(** * Artwork resolution: a shallow embedding of the cover services and hooks

    The development follows the TypeScript sources:
    - [services/itunesApiService.ts]  (class iTunesAPIService),
    - [services/fastItunesService.ts] (class FastItunesService),
    - [services/audioDbService.ts]    (class AudioDbService),
    - [services/albumCoverUpdater.ts] (class AlbumCoverUpdater),
    - [hooks/useFastAlbumCovers.ts], [hooks/useLazyAlbumCovers.ts],
      [hooks/useProgressiveAlbumCovers.ts].

    JavaScript strings are modelled as [string]: a sequence of code units,
    each in the Latin-1 range 0..255 (the catalogue in [types/Song.ts] stays
    inside it).  On that range [btoa] is total; [getFallbackArtwork] is given
    a second time over arbitrary UTF-16 code units (module [CodeUnits]), where
    [btoa] throws.  Numbers that the code keeps integral are [Z] or [N]; the
    32-bit wrap-around of the bit operators is written out. *)

From Stdlib Require Import ZArith NArith QArith List String Ascii Bool Lia DecimalString Sorted.
From stdpp Require Import gmap strings list.

Open Scope string_scope.
Open Scope list_scope.

Set Warnings "-clear-no-such-hyp".

(** ** JavaScript string primitives *)

Module JsString.

Definition code (c : ascii) : N := N_of_ascii c.

(** [String.prototype.toLowerCase] on Latin-1: A-Z and the accented capitals
      U+00C0..U+00DE (without the multiplication sign U+00D7) move up by 32. *)
Definition toLowerChar (c : ascii) : ascii :=
    let n := code c in
    if ((65 <=? n) && (n <=? 90))%N then ascii_of_N (n + 32)
    else if ((192 <=? n) && (n <=? 222) && negb (n =? 215))%N then ascii_of_N (n + 32)
    else c.

Fixpoint toLowerCase (s : string) : string :=
    match s with
    | EmptyString => EmptyString
    | String c r => String (toLowerChar c) (toLowerCase r)
    end.

(** The regular-expression class [\w]: ASCII letters, digits and underscore. *)
Definition is_word (c : ascii) : bool :=
    let n := code c in
    (((48 <=? n) && (n <=? 57)) || ((65 <=? n) && (n <=? 90))
     || ((97 <=? n) && (n <=? 122)) || (n =? 95))%N.

(** The class [\s] (and the characters [trim] strips) within Latin-1:
      TAB, LF, VT, FF, CR, SPACE and NO-BREAK SPACE. *)
Definition is_space (c : ascii) : bool :=
    let n := code c in
    (((9 <=? n) && (n <=? 13)) || (n =? 32) || (n =? 160))%N.

(** [s.replace(/[^\w\s]/g, '')] *)
Fixpoint remove_special (s : string) : string :=
    match s with
    | EmptyString => EmptyString
    | String c r =>
        if is_word c || is_space c then String c (remove_special r)
        else remove_special r
    end.

Fixpoint drop_spaces (s : string) : string :=
    match s with
    | EmptyString => EmptyString
    | String c r => if is_space c then drop_spaces r else s
    end.

(** [s.replace(/\s+/g, ' ')]: every maximal run of white space becomes one
      space.  [in_run] tells whether the previous character was white space. *)
Fixpoint collapse_from (in_run : bool) (s : string) : string :=
    match s with
    | EmptyString => EmptyString
    | String c r =>
        if is_space c
        then (if in_run then collapse_from true r
              else String " "%char (collapse_from true r))
        else String c (collapse_from false r)
    end.

Definition normalize_spaces (s : string) : string := collapse_from false s.

Fixpoint rev_string (acc s : string) : string :=
    match s with
    | EmptyString => acc
    | String c r => rev_string (String c acc) r
    end.

(** [s.trim()] *)
Definition trim (s : string) : string :=
    let s1 := drop_spaces s in
    rev_string EmptyString (drop_spaces (rev_string EmptyString s1)).

(** [s.includes(sub)] *)
Fixpoint includes (s sub : string) : bool :=
    if String.prefix sub s then true
    else match s with
         | EmptyString => false
         | String _ r => includes r sub
         end.

Fixpoint drop (n : nat) (s : string) : string :=
    match n, s with
    | O, _ => s
    | S _, EmptyString => EmptyString
    | S m, String _ r => drop m r
    end.

Fixpoint take (n : nat) (s : string) : string :=
    match n, s with
    | O, _ => EmptyString
    | S _, EmptyString => EmptyString
    | S m, String c r => String c (take m r)
    end.

(** [s.replace(pat, rep)] with a string pattern: only the first occurrence
      is replaced.  The replacement strings used by the services contain no
      dollar sign, so they are inserted literally. *)
Fixpoint replace (s pat rep : string) : string :=
    if String.prefix pat s then rep +:+ drop (String.length pat) s
    else match s with
         | EmptyString => EmptyString
         | String c r => String c (replace r pat rep)
         end.

(** [s.startsWith(p)] *)
Definition startsWith (s p : string) : bool := String.prefix p s.

(** Truthiness of a string: only the empty string is falsy. *)
Definition truthy (s : string) : bool :=
    match s with EmptyString => false | _ => true end.

(** [text.substring(0, n)] for [0 <= n]. *)
Definition substring0 (n : nat) (s : string) : string := take n s.

(** Decimal rendering of a non-negative integer inside a template literal. *)
Definition of_N (n : N) : string := NilZero.string_of_uint (N.to_uint n).

End JsString.

Import JsString.

(** ** iTunesAPIService: data and the pure helpers *)

Record iTunesTrack := mkTrack {
  trackId : Z;
  artistName : string;
  trackName : string;
  collectionName : string;
  artworkUrl30 : string;
  artworkUrl60 : string;
  artworkUrl100 : string;
  releaseDate : string;
  primaryGenreName : string
}.

(** [cleanSearchTerm] of iTunesAPIService (FastItunesService.cleanTerm is the
    same pipeline). *)
Definition cleanSearchTerm (term : string) : string :=
  trim (normalize_spaces (remove_special (toLowerCase term))).

Module MatchScorer.

(** The five increments of the scoring callback in [findBestMatch], in the
      order in which the code applies them. *)
Definition artistSimilarity (resultArtist artist : string) : Z :=
    if includes resultArtist artist || includes artist resultArtist then 10 else 0.

Definition artistExact (resultArtist artist : string) : Z :=
    if String.eqb resultArtist artist then 20 else 0.

Definition trackSimilarity (resultTrack track : string) : Z :=
    if includes resultTrack track || includes track resultTrack then 8 else 0.

Definition trackExact (resultTrack track : string) : Z :=
    if String.eqb resultTrack track then 15 else 0.

Definition artworkBonus (r : iTunesTrack) : Z :=
    if truthy (artworkUrl100 r) then 5 else 0.

(** What the artist criteria, respectively the track criteria, add. *)
Definition artistPoints (r : iTunesTrack) (artist : string) : Z :=
    let resultArtist := cleanSearchTerm (artistName r) in
    (artistSimilarity resultArtist artist + artistExact resultArtist artist)%Z.

Definition trackPoints (r : iTunesTrack) (track : string) : Z :=
    let resultTrack := cleanSearchTerm (trackName r) in
    (trackSimilarity resultTrack track + trackExact resultTrack track)%Z.

Definition score (artist track : string) (r : iTunesTrack) : Z :=
    let resultArtist := cleanSearchTerm (artistName r) in
    let resultTrack := cleanSearchTerm (trackName r) in
    let score := 0%Z in
    let score := (score + artistSimilarity resultArtist artist)%Z in
    let score := (score + artistExact resultArtist artist)%Z in
    let score := (score + trackSimilarity resultTrack track)%Z in
    let score := (score + trackExact resultTrack track)%Z in
    let score := (score + artworkBonus r)%Z in
    score.

(** [Array.prototype.sort] is stable; with the comparator
      [(a, b) => b.score - a.score] it orders by descending score and keeps
      the input order among equal scores. *)
Section Sort.
Context {A : Type} (cmp : A -> A -> Z).

Fixpoint insert_sorted (x : A) (l : list A) : list A :=
      match l with
      | [] => [x]
      | y :: r => if (cmp x y <=? 0)%Z then x :: y :: r else y :: insert_sorted x r
      end.

Definition sort (l : list A) : list A := foldr insert_sorted [] l.
End Sort.

Definition scored (artist track : string) (results : list iTunesTrack)
    : list (iTunesTrack * Z) :=
    map (fun r => (r, score artist track r)) results.

Definition byScoreDesc (a b : iTunesTrack * Z) : Z := (snd b - snd a)%Z.

Definition findBestMatch (results : list iTunesTrack) (artist track : string)
    : option iTunesTrack :=
    match results with
    | [] => None
    | _ =>
        let scoredResults := sort byScoreDesc (scored artist track results) in
        match head scoredResults with
        | Some bestMatch => if (5 <? snd bestMatch)%Z then Some (fst bestMatch) else None
        | None => None
        end
    end.

End MatchScorer.

Import MatchScorer.

(** ** FallbackSynthesizer: iTunesAPIService.getFallbackArtwork *)

Module Fallback.

(** [ToInt32]: the wrap-around of the bit operators. *)
Definition toInt32 (z : Z) : Z := ((z + 2 ^ 31) mod 2 ^ 32 - 2 ^ 31)%Z.

(** One round of the loop of [simpleHash]:
    [hash = ((hash << 5) - hash) + char; hash = hash & hash]. *)
Definition hashStep (hash : Z) (c : ascii) : Z :=
  let char := Z.of_N (code c) in
  let hash := (toInt32 (Z.shiftl (toInt32 hash) 5) - hash + char)%Z in
  Z.land (toInt32 hash) (toInt32 hash).

Fixpoint hashLoop (hash : Z) (str : string) : Z :=
  match str with
  | EmptyString => hash
  | String c r => hashLoop (hashStep hash c) r
  end.

Definition simpleHash (str : string) : Z := Z.abs (hashLoop 0 str).

(** [truncate(text, maxLength)]; [substring] clamps a negative end to 0. *)
Definition truncate (text : string) (maxLength : Z) : string :=
  if (maxLength <? Z.of_nat (String.length text))%Z
  then substring0 (Z.to_nat (maxLength - 3)) text +:+ "..."
  else text.

(** [btoa]: base64 of a string of Latin-1 code units. *)
Definition b64alphabet : string :=
  "ABCDEFGHIJKLMNOPQRSTUVWXYZabcdefghijklmnopqrstuvwxyz0123456789+/".

Definition b64 (n : N) : ascii :=
  match String.get (N.to_nat n) b64alphabet with
  | Some c => c
  | None => "="%char
  end.

Fixpoint btoa (s : string) : string :=
  match s with
  | EmptyString => EmptyString
  | String a EmptyString =>
      let x := code a in
      String (b64 (x / 4)) (String (b64 (x mod 4 * 16)) "==")
  | String a (String b EmptyString) =>
      let x := code a in
      let y := code b in
      String (b64 (x / 4)) (String (b64 (x mod 4 * 16 + y / 16))
        (String (b64 (y mod 16 * 4)) "="))
  | String a (String b (String c r)) =>
      let x := code a in
      let y := code b in
      let z := code c in
      String (b64 (x / 4)) (String (b64 (x mod 4 * 16 + y / 16))
        (String (b64 (y mod 16 * 4 + z / 64)) (String (b64 (z mod 64)) (btoa r))))
  end%N.

(** The SVG template is written with an apostrophe where the source has a
    double quote, one list element per source line. *)
Definition dq : ascii := "034"%char.
Definition nl : string := String "010"%char EmptyString.

Fixpoint unquote (s : string) : string :=
  match s with
  | EmptyString => EmptyString
  | String c r => String (if Ascii.eqb c "'"%char then dq else c) (unquote r)
  end.

Fixpoint join_lines (ls : list string) : string :=
  match ls with
  | [] => EmptyString
  | [l] => l
  | l :: r => l +:+ nl +:+ join_lines r
  end.

Definition svg0 : string :=
  unquote (join_lines
    [ "";
      "      <svg width='600' height='600' viewBox='0 0 600 600' xmlns='http://www.w3.org/2000/svg'>";
      "        <defs>";
      "          <linearGradient id='grad1' x1='0%' y1='0%' x2='100%' y2='100%'>";
      "            <stop offset='0%' style='stop-color:hsl(" ]).

Definition svg1 : string := ", ".

Definition svg2 : string := "%, ".

Definition svg3 : string :=
  unquote (join_lines
    [ "%);stop-opacity:1' />";
      "            <stop offset='100%' style='stop-color:hsl(" ]).

Definition svg4 : string := ", ".

Definition svg5 : string := "%, ".

Definition svg6 : string :=
  unquote (join_lines
    [ "%);stop-opacity:1' />";
      "          </linearGradient>";
      "        </defs>";
      "        <rect width='600' height='600' fill='url(#grad1)'/>";
      "        <circle cx='300' cy='300' r='120' fill='none' stroke='rgba(255,255,255,0.3)' stroke-width='3'/>";
      "        <circle cx='300' cy='300' r='80' fill='none' stroke='rgba(255,255,255,0.2)' stroke-width='2'/>";
      "        <circle cx='300' cy='300' r='40' fill='rgba(255,255,255,0.2)'/>";
      "        <circle cx='300' cy='300' r='15' fill='rgba(255,255,255,0.4)'/>";
      "        <text x='300' y='480' text-anchor='middle' fill='rgba(255,255,255,0.8)' font-family='Arial, sans-serif' font-size='24' font-weight='300'>" ]).

Definition svg7 : string :=
  unquote (join_lines
    [ "</text>";
      "        <text x='300' y='520' text-anchor='middle' fill='rgba(255,255,255,0.6)' font-family='Arial, sans-serif' font-size='18' font-weight='300'>" ]).

Definition svg8 : string :=
  unquote (join_lines
    [ "</text>";
      "      </svg>";
      "    " ]).

Definition num (z : Z) : string := of_N (Z.to_N z).

Record Palette := mkPalette { hue : Z; saturation : Z; lightness : Z }.

Definition palette (artist trackTitle : string) : Palette :=
  let hash := simpleHash (artist +:+ trackTitle) in
  {| hue := Z.rem hash 360;
     saturation := 30 + Z.rem hash 40;
     lightness := 20 + Z.rem hash 30 |}.

Definition svgDocument (artist trackTitle : string) : string :=
  let p := palette artist trackTitle in
  svg0 +:+ num (hue p) +:+ svg1 +:+ num (saturation p) +:+ svg2
       +:+ num (lightness p + 10) +:+ svg3
       +:+ num (Z.rem (hue p + 60) 360) +:+ svg4 +:+ num (saturation p) +:+ svg5
       +:+ num (lightness p) +:+ svg6
       +:+ truncate artist 20 +:+ svg7 +:+ truncate trackTitle 25 +:+ svg8.

Definition getFallbackArtwork (artist trackTitle : string) : string :=
  "data:image/svg+xml;base64," +:+ btoa (svgDocument artist trackTitle).

End Fallback.

Import Fallback.

(** ** Effects: completions, exceptions and state

    An [async] function run to completion is a state transformer that ends
    either normally or by throwing.  [tryCatch] and [tryFinally] are the
    [try]/[catch] and [try]/[finally] statements. *)

Inductive Error :=
| NetworkFailure
| HttpStatus (status : Z)
| MalformedJson
| RequestAborted
| ImageLoadFailed
| ImageLoadTimeout
| UpdateAlreadyInProgress
| InvalidCharacter.

Inductive Completion (A : Type) :=
| Normal (a : A)
| Throw (e : Error).

Arguments Normal {A} a.
Arguments Throw {A} e.

Definition Eff (S A : Type) : Type := S -> Completion A * S.

Definition ret {S A} (a : A) : Eff S A := fun s => (Normal a, s).

Definition throw {S A} (e : Error) : Eff S A := fun s => (Throw e, s).

Definition bind {S A B} (m : Eff S A) (k : A -> Eff S B) : Eff S B :=
  fun s =>
    match m s with
    | (Normal a, s1) => k a s1
    | (Throw e, s1) => (Throw e, s1)
    end.

Definition tryCatch {S A} (body : Eff S A) (handler : Error -> Eff S A) : Eff S A :=
  fun s =>
    match body s with
    | (Normal a, s1) => (Normal a, s1)
    | (Throw e, s1) => handler e s1
    end.

(** The [finally] blocks of the sources only update state and never throw. *)
Definition tryFinally {S A} (body : Eff S A) (finalizer : S -> S) : Eff S A :=
  fun s => let '(c, s1) := body s in (c, finalizer s1).

Definition gets {S A} (f : S -> A) : Eff S A := fun s => (Normal (f s), s).

Definition modify {S} (f : S -> S) : Eff S unit := fun s => (Normal tt, f s).

Definition liftCompletion {S A} (c : Completion A) : Eff S A := fun s => (c, s).

Notation "'do' x <- m ; k" := (bind m (fun x => k))
  (at level 10, x name, m at level 100, k at level 200).
Notation "m ;;; k" := (bind m (fun _ => k))
  (at level 199, right associativity).

(** ** Strings beyond Latin-1

    A JavaScript string in full is a sequence of UTF-16 code units.
    [getFallbackArtwork] with the functions it calls, over such sequences:
    [btoa] throws an [InvalidCharacterError] when its argument holds a code
    unit above 0xFF. *)
Module CodeUnits.

Definition JsText : Type := list N.

Definition ofString (s : string) : JsText := map JsString.code (list_ascii_of_string s).

Fixpoint toLatin1 (t : JsText) : option string :=
  match t with
  | [] => Some EmptyString
  | unit :: rest =>
      if (unit <? 256)%N then
        match toLatin1 rest with
        | Some s => Some (String (ascii_of_N unit) s)
        | None => None
        end
      else None
  end.

Definition hashStep (hash : Z) (char : N) : Z :=
  let hash := (Fallback.toInt32 (Z.shiftl (Fallback.toInt32 hash) 5) - hash + Z.of_N char)%Z in
  Z.land (Fallback.toInt32 hash) (Fallback.toInt32 hash).

Definition simpleHash (str : JsText) : Z := Z.abs (fold_left hashStep str 0%Z).

Definition truncate (text : JsText) (maxLength : Z) : JsText :=
  if (maxLength <? Z.of_nat (length text))%Z
  then firstn (Z.to_nat (maxLength - 3)) text ++ ofString "..."
  else text.

Definition btoa (t : JsText) : Completion string :=
  match toLatin1 t with
  | Some s => Normal (Fallback.btoa s)
  | None => Throw InvalidCharacter
  end.

Definition palette (artist trackTitle : JsText) : Fallback.Palette :=
  let hash := simpleHash (artist ++ trackTitle) in
  {| Fallback.hue := Z.rem hash 360;
     Fallback.saturation := 30 + Z.rem hash 40;
     Fallback.lightness := 20 + Z.rem hash 30 |}.

Definition svgDocument (artist trackTitle : JsText) : JsText :=
  let p := palette artist trackTitle in
  ofString Fallback.svg0 ++ ofString (Fallback.num (Fallback.hue p))
    ++ ofString Fallback.svg1 ++ ofString (Fallback.num (Fallback.saturation p))
    ++ ofString Fallback.svg2 ++ ofString (Fallback.num (Fallback.lightness p + 10))
    ++ ofString Fallback.svg3
    ++ ofString (Fallback.num (Z.rem (Fallback.hue p + 60) 360))
    ++ ofString Fallback.svg4 ++ ofString (Fallback.num (Fallback.saturation p))
    ++ ofString Fallback.svg5 ++ ofString (Fallback.num (Fallback.lightness p))
    ++ ofString Fallback.svg6
    ++ truncate artist 20 ++ ofString Fallback.svg7
    ++ truncate trackTitle 25 ++ ofString Fallback.svg8.

Definition getFallbackArtwork (artist trackTitle : JsText) : Completion string :=
  match btoa (svgDocument artist trackTitle) with
  | Normal encoded => Normal ("data:image/svg+xml;base64," +:+ encoded)
  | Throw e => Throw e
  end.

End CodeUnits.

(** ** The network boundary

    What one [fetch] of the iTunes search endpoint can give: the promise
    rejects; the status is not ok; the body is not JSON; or a parsed object
    whose [results] may be absent. *)
Inductive Response :=
| FetchRejected
| NotOk (status : Z)
| BadJson
| Json (results : option (list iTunesTrack)).

(** The answer to the n-th request of the process, by search term.  The URL
    is [baseURL?term=encodeURIComponent(term)&media=music&entity=song&limit=..];
    requests are recorded by their term. *)
Definition Network : Type := nat -> string -> Response.

Record World := mkWorld {
  itunesCache : gmap string string;   (* iTunesAPIService.coverCache *)
  fastCache : gmap string string;     (* FastItunesService.coverCache *)
  requests : list string              (* external calls issued so far *)
}.

Definition emptyWorld : World :=
  {| itunesCache := ∅; fastCache := ∅; requests := [] |}.

Definition setItunesCache (f : gmap string string -> gmap string string) (w : World) : World :=
  {| itunesCache := f (itunesCache w); fastCache := fastCache w; requests := requests w |}.

Definition setFastCache (f : gmap string string -> gmap string string) (w : World) : World :=
  {| itunesCache := itunesCache w; fastCache := f (fastCache w); requests := requests w |}.

Definition recordRequest (term : string) (w : World) : World :=
  {| itunesCache := itunesCache w; fastCache := fastCache w;
     requests := requests w ++ [term] |}.

(** [await fetch(url)] *)
Definition fetch (net : Network) (term : string) : Eff World Response :=
  fun w => (Normal (net (length (requests w)) term), recordRequest term w).

(** [String.replace('100x100bb', '600x600bb')] as all three services apply it. *)
Definition highQualityArtwork (artworkUrl : string) : string :=
  replace artworkUrl "100x100bb" "600x600bb".

Module ITunes.

Definition cacheKey (artist track : string) : string :=
  toLowerCase artist +:+ "-" +:+ toLowerCase track.

Definition searchTerm (artist track : string) : string :=
  cleanSearchTerm artist +:+ " " +:+ cleanSearchTerm track.

(** The synchronous prefix of [searchTrack], up to [await fetch(url)]. *)
Inductive Started :=
| CacheHit (cover : string)
| Requested (term : string).

Definition searchTrack_start (artist track : string) (cache : gmap string string) : Started :=
  match cache !! cacheKey artist track with
  | Some cover => CacheHit cover
  | None => Requested (searchTerm artist track)
  end.

(** [if (!response.ok) throw ...; const data = await response.json()] *)
Definition readJson (r : Response) : Completion (option (list iTunesTrack)) :=
  match r with
  | FetchRejected => Throw NetworkFailure
  | NotOk status => Throw (HttpStatus status)
  | BadJson => Throw MalformedJson
  | Json results => Normal results
  end.

(** The rest of the [try] block once the response is there, with its [catch]. *)
Definition searchTrack_resume (artist track : string) (response : Eff World Response)
  : Eff World (option string) :=
  tryCatch
    (let cleanArtist := cleanSearchTerm artist in
     let cleanTrack := cleanSearchTerm track in
     do r <- response;
     do data <- liftCompletion (readJson r);
     match data with
     | Some results =>
         if (0 <? length results)%nat then
           match findBestMatch results cleanArtist cleanTrack with
           | Some bestMatch =>
               if truthy (artworkUrl100 bestMatch) then
                 let highQuality := highQualityArtwork (artworkUrl100 bestMatch) in
                 modify (setItunesCache (insert (cacheKey artist track) highQuality)) ;;;
                 ret (Some highQuality)
               else ret None
           | None => ret None
           end
         else ret None
     | None => ret None
     end)
    (fun _ => ret None).

Definition searchTrack (net : Network) (artist track : string) : Eff World (option string) :=
  fun w =>
    match searchTrack_start artist track (itunesCache w) with
    | CacheHit cover => (Normal (Some cover), w)
    | Requested term => searchTrack_resume artist track (fetch net term) w
    end.

Definition clearCache : Eff World unit := modify (setItunesCache (fun _ => ∅)).

(** [getFallbackArtwork] as a method of the service object. *)
Definition getFallbackArtwork (artist trackTitle : string) : Eff World string :=
  ret (Fallback.getFallbackArtwork artist trackTitle).

(** A history of calls on the service. *)
Inductive Op :=
| OpSearchTrack (artist track : string)
| OpGetFallbackArtwork (artist trackTitle : string)
| OpClearCache.

Definition runOp (net : Network) (op : Op) (w : World) : World :=
  match op with
  | OpSearchTrack artist track => snd (searchTrack net artist track w)
  | OpGetFallbackArtwork artist trackTitle => snd (getFallbackArtwork artist trackTitle w)
  | OpClearCache => snd (clearCache w)
  end.

Definition runOps (net : Network) (ops : list Op) (w : World) : World :=
  foldl (fun w op => runOp net op w) w ops.

Definition isClear (op : Op) : bool :=
  match op with OpClearCache => true | _ => false end.


(** [searchArtistTracks(artist, limit)]: the limit only enters the URL; the
    results are returned as they are ([data.results || []]), an error gives
    the empty list. *)
Definition searchArtistTracks (net : Network) (artist : string) (limit : Z)
  : Eff World (list iTunesTrack) :=
  tryCatch
    (let cleanArtist := cleanSearchTerm artist in
     do r <- fetch net cleanArtist;
     do data <- liftCompletion (readJson r);
     ret (match data with Some results => results | None => [] end))
    (fun _ => ret []).

End ITunes.

Module FastItunes.

Definition cacheKey (artist track : string) : string :=
  toLowerCase artist +:+ "-" +:+ toLowerCase track.

(** [FastItunesService.getAlbumCover]: a status that is not ok returns null
    at once; the first result that carries artwork is taken. *)
Definition getAlbumCover (net : Network) (artist track : string) : Eff World (option string) :=
  fun w =>
    match fastCache w !! cacheKey artist track with
    | Some cover => (Normal (Some cover), w)
    | None =>
        tryCatch
          (let cleanArtist := cleanSearchTerm artist in
           let cleanTrack := cleanSearchTerm track in
           do r <- fetch net (cleanArtist +:+ " " +:+ cleanTrack);
           match r with
           | FetchRejected => throw NetworkFailure
           | NotOk _ => ret None
           | BadJson => throw MalformedJson
           | Json data =>
               match data with
               | Some results =>
                   if (0 <? length results)%nat then
                     match find (fun t => truthy (artworkUrl100 t)) results with
                     | Some t =>
                         let highQuality := highQualityArtwork (artworkUrl100 t) in
                         modify (setFastCache (insert (cacheKey artist track) highQuality)) ;;;
                         ret (Some highQuality)
                     | None => ret None
                     end
                   else ret None
               | None => ret None
               end
           end)
          (fun _ => ret None)
          w
    end.

Definition clearCache : Eff World unit := modify (setFastCache (fun _ => ∅)).


(** [Array.prototype.slice(start, end)]: a negative bound counts from the
    end of the array; bounds are clamped to the array. *)
Definition slice {A} (l : list A) (start stop : Z) : list A :=
  let len := Z.of_nat (length l) in
  let k := if (start <? 0)%Z then Z.max (len + start) 0 else Z.min start len in
  let final := if (stop <? 0)%Z then Z.max (len + stop) 0 else Z.min stop len in
  firstn (Z.to_nat (final - k)) (skipn (Z.to_nat k) l).

(** The successive values of [batch] in
    [for (let i = 0; i < requests.length; i += maxConcurrent)
       batch = requests.slice(i, i + maxConcurrent)]
    of [loadCoversBatch] (the background loader of useFastAlbumCovers has the
    same loop with [batchSize = 3]).  [None]: the loop is still running when
    the fuel is used up. *)
Fixpoint batchesFrom {A} (fuel : nat) (requests : list A) (maxConcurrent i : Z)
  : option (list (list A)) :=
  if (i <? Z.of_nat (length requests))%Z then
    match fuel with
    | O => None
    | S fuel' =>
        match batchesFrom fuel' requests maxConcurrent (i + maxConcurrent) with
        | Some rest => Some (slice requests i (i + maxConcurrent) :: rest)
        | None => None
        end
    end
  else Some [].

End FastItunes.

(** ** Songs and albums ([Song] and [AlbumData] have the same fields) *)

Module AlbumData.
Record t := mk {
  id : string;
  title : string;
  artist : string;
  youtubeId : string;
  albumCover : string;
  albumName : option string;
  year : option Z
}.

(** [{ ...album, albumCover: cover }] *)
Definition withCover (album : t) (cover : string) : t :=
  {| id := id album; title := title album; artist := artist album;
     youtubeId := youtubeId album; albumCover := cover;
     albumName := albumName album; year := year album |}.
End AlbumData.

Abbreviation AlbumData := AlbumData.t.
Abbreviation Song := AlbumData.t.

(** Truthiness of a [string | null] and the operator [a || b] on it. *)
Definition truthyOpt (o : option string) : bool :=
  match o with Some s => truthy s | None => false end.

Definition orElse (o : option string) (d : string) : string :=
  match o with
  | Some s => if truthy s then s else d
  | None => d
  end.

(** ** AlbumCoverUpdater *)

Module Updater.

Record UpdateProgress := mkProgress {
  current : nat;
  total : nat;
  currentSong : string;
  completed : list AlbumData;
  failed : list string
}.

(** The updater object together with the world it acts on.  [delivered]
    collects what the progress callback was called with (the arrays as they
    were at the time of the call). *)
Record State := mkState {
  updateInProgress : bool;
  progressCallback : bool;
  delivered : list UpdateProgress;
  world : World
}.

Definition liftWorld {A} (m : Eff World A) : Eff State A :=
  fun u =>
    let '(c, w) := m (world u) in
    (c, {| updateInProgress := updateInProgress u; progressCallback := progressCallback u;
           delivered := delivered u; world := w |}).

Definition enter (onProgress : bool) (u : State) : State :=
  {| updateInProgress := true; progressCallback := onProgress;
     delivered := delivered u; world := world u |}.

Definition leave (u : State) : State :=
  {| updateInProgress := false; progressCallback := false;
     delivered := delivered u; world := world u |}.

(** [this.progressCallback?.(progress)] *)
Definition reportProgress (p : UpdateProgress) : Eff State unit :=
  modify (fun u =>
    if progressCallback u
    then {| updateInProgress := updateInProgress u; progressCallback := progressCallback u;
            delivered := delivered u ++ [p]; world := world u |}
    else u).

Definition label (album : AlbumData) : string :=
  AlbumData.artist album +:+ " - " +:+ AlbumData.title album.

(** One round of the [for] loop: the inner [try]/[catch]. *)
Definition updateOne (net : Network) (album : AlbumData)
    (updatedAlbums : list AlbumData) (failedUpdates : list string)
  : Eff State (list AlbumData * list string) :=
  tryCatch
    (do albumCover <- liftWorld
         (ITunes.searchTrack net (AlbumData.artist album) (AlbumData.title album));
     let updatedAlbum :=
       AlbumData.withCover album
         (orElse albumCover
            (getFallbackArtwork (AlbumData.artist album) (AlbumData.title album))) in
     ret (updatedAlbums ++ [updatedAlbum],
          if truthyOpt albumCover then failedUpdates else failedUpdates ++ [label album]))
    (fun _ =>
       let updatedAlbum :=
         AlbumData.withCover album
           (getFallbackArtwork (AlbumData.artist album) (AlbumData.title album)) in
       ret (updatedAlbums ++ [updatedAlbum], failedUpdates ++ [label album])).

(** The loop over the albums from index [i] on; the pause between two
    requests only lets time pass. *)
Fixpoint updateLoop (net : Network) (total i : nat) (albums : list AlbumData)
    (updatedAlbums : list AlbumData) (failedUpdates : list string)
  : Eff State (list AlbumData * list string) :=
  match albums with
  | [] => ret (updatedAlbums, failedUpdates)
  | album :: rest =>
      reportProgress
        {| current := i + 1; total := total; currentSong := label album;
           completed := updatedAlbums; failed := failedUpdates |} ;;;
      do r <- updateOne net album updatedAlbums failedUpdates;
      updateLoop net total (S i) rest (fst r) (snd r)
  end.

Definition updateSpecificCovers (net : Network) (albums : list AlbumData)
    (onProgress : bool) : Eff State (list AlbumData) :=
  fun u =>
    if updateInProgress u then (Throw UpdateAlreadyInProgress, u)
    else
      tryFinally
        (do r <- updateLoop net (length albums) 0 albums [] [];
         ret (fst r))
        leave (enter onProgress u).

(** [updateAllCovers] runs over the catalogue [ALBUMS_DATABASE] and reports
    once more at the end. *)
Definition updateAllCovers (net : Network) (ALBUMS_DATABASE : list AlbumData)
    (onProgress : bool) : Eff State (list AlbumData) :=
  fun u =>
    if updateInProgress u then (Throw UpdateAlreadyInProgress, u)
    else
      tryFinally
        (do r <- updateLoop net (length ALBUMS_DATABASE) 0 ALBUMS_DATABASE [] [];
         reportProgress
           {| current := length ALBUMS_DATABASE; total := length ALBUMS_DATABASE;
              currentSong := "Complete!"; completed := fst r; failed := snd r |} ;;;
         ret (fst r))
        leave (enter onProgress u).


Definition isUpdateInProgress (u : State) : bool := updateInProgress u.

End Updater.

(** ** Maps and sets of the hooks *)

Definition mapHas {V} (m : gmap string V) (k : string) : bool :=
  match m !! k with Some _ => true | None => false end.

Definition setHas (s : gset string) (k : string) : bool := bool_decide (k ∈ s).

(** [songs[i]] for a number [i]: undefined outside the array. *)
Definition songAt (songs : list Song) (i : Z) : option Song :=
  if (i <? 0)%Z then None else songs !! Z.to_nat i.

(** [(count / total) * 100], guarded by [total > 0]; the quotient is taken in
    the rationals. *)
Definition percentage (count total : nat) : Q :=
  if (0 <? total)%nat
  then (inject_Z (Z.of_nat count) / inject_Z (Z.of_nat total) * 100)%Q
  else 0%Q.

(** ** useFastAlbumCovers *)

Module FastHook.

(** The React state and the [loadingQueue] ref of one hook instance. *)
Record Hook := mkHook {
  loadedCovers : gmap string string;
  loadingItems : gset string;
  attemptedLoads : gset string;
  loadingQueue : gset string
}.

Definition initial : Hook :=
  {| loadedCovers := ∅; loadingItems := ∅; attemptedLoads := ∅; loadingQueue := ∅ |}.

Definition State : Type := Hook * World.

Definition getCacheKey (song : Song) : string :=
  toLowerCase (AlbumData.artist song) +:+ "-" +:+ toLowerCase (AlbumData.title song).

(** A [loadCover] callback closes over the [attemptedLoads] and
    [loadedCovers] of the render that created it; [loadingQueue] is a ref and
    is read live. *)
Record Closure := mkClosure {
  seenLoaded : gmap string string;
  seenAttempted : gset string
}.

Definition closureOf (h : Hook) : Closure :=
  {| seenLoaded := loadedCovers h; seenAttempted := attemptedLoads h |}.

Definition skips (cl : Closure) (h : Hook) (cacheKey : string) : bool :=
  setHas (seenAttempted cl) cacheKey || mapHas (seenLoaded cl) cacheKey
  || setHas (loadingQueue h) cacheKey.

(** [loadingQueue.current.add(cacheKey); setLoadingItems(...)] *)
Definition begin (song : Song) (h : Hook) : Hook :=
  {| loadedCovers := loadedCovers h;
     loadingItems := loadingItems h ∪ {[AlbumData.id song]};
     attemptedLoads := attemptedLoads h;
     loadingQueue := loadingQueue h ∪ {[getCacheKey song]} |}.

(** [if (cover) setLoadedCovers(prev => new Map([...prev, [cacheKey, cover]]))] *)
Definition onCover (song : Song) (cover : option string) (h : Hook) : Hook :=
  match cover with
  | Some c =>
      if truthy c then
        {| loadedCovers := <[getCacheKey song := c]> (loadedCovers h);
           loadingItems := loadingItems h;
           attemptedLoads := attemptedLoads h;
           loadingQueue := loadingQueue h |}
      else h
  | None => h
  end.

(** The [finally] block. *)
Definition finish (song : Song) (h : Hook) : Hook :=
  {| loadedCovers := loadedCovers h;
     loadingItems := loadingItems h ∖ {[AlbumData.id song]};
     attemptedLoads := attemptedLoads h ∪ {[getCacheKey song]};
     loadingQueue := loadingQueue h ∖ {[getCacheKey song]} |}.

Definition liftWorld {A} (m : Eff World A) : Eff State A :=
  fun st => let '(c, w) := m (snd st) in (c, (fst st, w)).

Definition onHook (f : Hook -> Hook) (st : State) : State := (f (fst st), snd st).

Definition loadCover (net : Network) (cl : Closure) (song : Song) : Eff State unit :=
  fun st =>
    if skips cl (fst st) (getCacheKey song) then (Normal tt, st)
    else
      tryFinally
        (tryCatch
           (do cover <- liftWorld
                (FastItunes.getAlbumCover net (AlbumData.artist song) (AlbumData.title song));
            modify (onHook (onCover song cover)))
           (fun _ => ret tt))
        (onHook (finish song))
        (onHook (begin song) st).

(** The priority effect: centre first, then outwards, the previous song
    before the next one at each radius.  Songs are paired with their index. *)
Definition ring (songs : list Song) (centerIndex radius : Z) : list (Z * Song) :=
  let prevIndex := (centerIndex - radius)%Z in
  let nextIndex := (centerIndex + radius)%Z in
  (if (0 <=? prevIndex)%Z
   then match songAt songs prevIndex with Some s => [(prevIndex, s)] | None => [] end
   else [])
  ++
  (if (nextIndex <? Z.of_nat (length songs))%Z
   then match songAt songs nextIndex with Some s => [(nextIndex, s)] | None => [] end
   else []).

(** The values of [radius] in [for (radius = 1; radius <= preloadRadius; radius++)]. *)
Definition radii (preloadRadius : Z) : list Z :=
  map (fun k => Z.of_nat k) (seq 1 (Z.to_nat preloadRadius)).

Definition songsToLoadIx (songs : list Song) (centerIndex preloadRadius : Z)
  : list (Z * Song) :=
  match songs with
  | [] => []
  | _ =>
      (match songAt songs centerIndex with Some s => [(centerIndex, s)] | None => [] end)
      ++ flat_map (ring songs centerIndex) (radii preloadRadius)
  end.

Definition songsToLoad (songs : list Song) (centerIndex preloadRadius : Z) : list Song :=
  map snd (songsToLoadIx songs centerIndex preloadRadius).

Definition planIndices (songs : list Song) (centerIndex preloadRadius : Z) : list Z :=
  map fst (songsToLoadIx songs centerIndex preloadRadius).

(** [loadingProgress]: attempted keys over the number of songs. *)
Definition loadingProgress (songs : list Song) (h : Hook) : Q :=
  percentage (size (attemptedLoads h)) (length songs).

(** What can happen to a hook instance over a fixed song list: a [loadCover]
    that passes its guard starts, or a started one settles with whatever the
    service returned (a thrown error settles like [None]). *)
Inductive step (songs : list Song) : Hook -> Hook -> Prop :=
| step_begin (cl : Closure) (song : Song) (h : Hook) :
    song ∈ songs -> skips cl h (getCacheKey song) = false ->
    step songs h (begin song h)
| step_settle (song : Song) (cover : option string) (h : Hook) :
    song ∈ songs -> getCacheKey song ∈ loadingQueue h ->
    step songs h (finish song (onCover song cover h)).

Inductive reachable (songs : list Song) : Hook -> Prop :=
| reach_initial : reachable songs initial
| reach_step h h' : reachable songs h -> step songs h h' -> reachable songs h'.

Definition allSettled (songs : list Song) (h : Hook) : Prop :=
  forall song, song ∈ songs -> getCacheKey song ∈ attemptedLoads h.


(** [getCover(song)]: [loadedCovers.get(cacheKey) || null] *)
Definition getCover (h : Hook) (song : Song) : option string :=
  match loadedCovers h !! getCacheKey song with
  | Some c => if truthy c then Some c else None
  | None => None
  end.

(** [isLoading(songId)] *)
Definition isLoading (h : Hook) (songId : string) : bool := setHas (loadingItems h) songId.

End FastHook.

(** ** useLazyAlbumCovers *)

Module LazyHook.

Record LazyLoadState := mkLazy {
  loadedCovers : gmap string string;
  loadingCovers : gset string;
  failedCovers : gset string;
  loadedCount : nat
}.

Definition initial : LazyLoadState :=
  {| loadedCovers := ∅; loadingCovers := ∅; failedCovers := ∅; loadedCount := 0 |}.

(** React state, the [loadingQueue] ref, and the services. *)
Record State := mkState {
  state : LazyLoadState;
  loadingQueue : gset string;
  world : World
}.

Definition songKey (song : Song) : string :=
  AlbumData.artist song +:+ "-" +:+ AlbumData.title song.

(** How the image preload of a remote cover ends. *)
Inductive ImageOutcome := ImageLoaded | ImageError | ImageTimeout.

(** When the abort signal fires, if one was passed and fires at all. *)
Inductive Abort := NoAbort | AbortBeforeSearch | AbortDuringSearch | AbortDuringPreload.

(** [signal?.aborted] at the first check, at the check after the search, and
    in the [catch] block. *)
Definition abortedAtStart (a : Abort) : bool :=
  match a with AbortBeforeSearch => true | _ => false end.

Definition abortedAfterSearch (a : Abort) : bool :=
  match a with AbortBeforeSearch | AbortDuringSearch => true | _ => false end.

Definition abortedInCatch (a : Abort) : bool :=
  match a with NoAbort => false | _ => true end.

Definition liftWorld {A} (m : Eff World A) : Eff State A :=
  fun st =>
    let '(c, w) := m (world st) in
    (c, {| state := state st; loadingQueue := loadingQueue st; world := w |}).

(** [setState(prev => ...)] *)
Definition setState (f : LazyLoadState -> LazyLoadState) : Eff State unit :=
  modify (fun st =>
    {| state := f (state st); loadingQueue := loadingQueue st; world := world st |}).

Definition setQueue (f : gset string -> gset string) (st : State) : State :=
  {| state := state st; loadingQueue := f (loadingQueue st); world := world st |}.

Definition markLoading (key : string) (prev : LazyLoadState) : LazyLoadState :=
  {| loadedCovers := loadedCovers prev;
     loadingCovers := loadingCovers prev ∪ {[key]};
     failedCovers := failedCovers prev;
     loadedCount := loadedCount prev |}.

Definition storeLoaded (key cover : string) (prev : LazyLoadState) : LazyLoadState :=
  let newLoadedCovers := <[key := cover]> (loadedCovers prev) in
  {| loadedCovers := newLoadedCovers;
     loadingCovers := loadingCovers prev ∖ {[key]};
     failedCovers := failedCovers prev;
     loadedCount := size newLoadedCovers |}.

Definition storeFailed (key fallbackCover : string) (prev : LazyLoadState) : LazyLoadState :=
  let newLoadedCovers := <[key := fallbackCover]> (loadedCovers prev) in
  {| loadedCovers := newLoadedCovers;
     loadingCovers := loadingCovers prev ∖ {[key]};
     failedCovers := failedCovers prev ∪ {[key]};
     loadedCount := size newLoadedCovers |}.

(** The image preload: only for covers that are not [data:] URLs. *)
Definition preload (image : string -> ImageOutcome) (albumCover : string) : Eff State unit :=
  if truthy albumCover && negb (startsWith albumCover "data:") then
    match image albumCover with
    | ImageLoaded => ret tt
    | ImageError => throw ImageLoadFailed
    | ImageTimeout => throw ImageLoadTimeout
    end
  else ret tt.

(** [loadAlbumCover(song, signal)]; [seen] is the state the callback closed
    over. *)
Definition loadAlbumCover (net : Network) (image : string -> ImageOutcome)
    (abort : Abort) (seen : LazyLoadState) (song : Song) : Eff State unit :=
  fun st =>
    let key := songKey song in
    if mapHas (loadedCovers seen) key || setHas (loadingCovers seen) key
       || setHas (failedCovers seen) key
    then (Normal tt, st)
    else if setHas (loadingQueue st) key then (Normal tt, st)
    else
      (modify (setQueue (fun q => q ∪ {[key]})) ;;;
       setState (markLoading key) ;;;
       tryFinally
         (tryCatch
            ((if abortedAtStart abort then throw RequestAborted else ret tt) ;;;
             do found <- liftWorld
                  (ITunes.searchTrack net (AlbumData.artist song) (AlbumData.title song));
             (if abortedAfterSearch abort then throw RequestAborted else ret tt) ;;;
             let albumCover :=
               orElse found
                 (getFallbackArtwork (AlbumData.artist song) (AlbumData.title song)) in
             preload image albumCover ;;;
             setState (storeLoaded key albumCover))
            (fun _ =>
               if abortedInCatch abort then ret tt
               else
                 let fallbackCover :=
                   getFallbackArtwork (AlbumData.artist song) (AlbumData.title song) in
                 setState (storeFailed key fallbackCover)))
         (setQueue (fun q => q ∖ {[key]})))
      st.

(** The scheduling effect: the preload window in index order, then the rest
    of the lazy window in index order; only songs that the state seen by the
    effect has neither loaded nor loading. *)
Definition indexRange (lo hi : Z) : list Z :=
  map (fun k => (lo + Z.of_nat k)%Z) (seq 0 (Z.to_nat (hi - lo + 1))).

Definition wanted (seen : LazyLoadState) (song : Song) : bool :=
  negb (mapHas (loadedCovers seen) (songKey song))
  && negb (setHas (loadingCovers seen) (songKey song)).

Definition pick (songs : list Song) (seen : LazyLoadState) (i : Z) : list (Z * Song) :=
  match songAt songs i with
  | Some s => if wanted seen s then [(i, s)] else []
  | None => []
  end.

Definition songsToLoadIx (songs : list Song) (centerIndex preloadRadius lazyLoadRadius : Z)
    (seen : LazyLoadState) : list (Z * Song) :=
  match songs with
  | [] => []
  | _ =>
      let last := (Z.of_nat (length songs) - 1)%Z in
      let preloadStart := Z.max 0 (centerIndex - preloadRadius) in
      let preloadEnd := Z.min last (centerIndex + preloadRadius) in
      let lazyStart := Z.max 0 (centerIndex - lazyLoadRadius) in
      let lazyEnd := Z.min last (centerIndex + lazyLoadRadius) in
      flat_map (pick songs seen) (indexRange preloadStart preloadEnd)
      ++ flat_map
           (fun i => if ((i <? preloadStart) || (preloadEnd <? i))%Z
                     then pick songs seen i else [])
           (indexRange lazyStart lazyEnd)
  end.

Definition planIndices (songs : list Song) (centerIndex preloadRadius lazyLoadRadius : Z)
    (seen : LazyLoadState) : list Z :=
  map fst (songsToLoadIx songs centerIndex preloadRadius lazyLoadRadius seen).

Definition loadingProgress (songs : list Song) (s : LazyLoadState) : Q :=
  percentage (loadedCount s) (length songs).


(** [getSongCover(song)]: [state.loadedCovers.get(songKey) || song.albumCover] *)
Definition getSongCover (s : LazyLoadState) (song : Song) : string :=
  orElse (loadedCovers s !! songKey song) (AlbumData.albumCover song).

(** [isSongLoading(songId)] and [isSongFailed(songId)]: the song is looked up
    by id in [songs] first. *)
Definition findSong (songs : list Song) (songId : string) : option Song :=
  find (fun s => String.eqb (AlbumData.id s) songId) songs.

Definition isSongLoading (songs : list Song) (s : LazyLoadState) (songId : string) : bool :=
  match findSong songs songId with
  | Some song => setHas (loadingCovers s) (songKey song)
  | None => false
  end.

Definition isSongFailed (songs : list Song) (s : LazyLoadState) (songId : string) : bool :=
  match findSong songs songId with
  | Some song => setHas (failedCovers s) (songKey song)
  | None => false
  end.

(** [clearCache()] of the hook: the React state is reset, the service cache
    and the loading queue are emptied. *)
Definition clearCache : Eff State unit :=
  modify (fun st =>
    {| state := initial; loadingQueue := ∅;
       world := setItunesCache (fun _ => ∅) (world st) |}).

End LazyHook.

(** ** useProgressiveAlbumCovers: the counters behind [loadingProgress] *)

Module ProgressiveHook.

Record Hook := mkHook {
  songCovers : gmap string string;
  loadedCount : nat;
  loadingQueueRef : gset string;
  loadedIdsRef : gset string
}.

(** After the initialising effect has run for the song list (every song
    starts with the placeholder). *)
Definition initial (placeholder : string) (songs : list Song) : Hook :=
  {| songCovers := list_to_map (map (fun s => (AlbumData.id s, placeholder)) songs);
     loadedCount := 0; loadingQueueRef := ∅; loadedIdsRef := ∅ |}.

Definition skips (h : Hook) (song : Song) : bool :=
  setHas (loadedIdsRef h) (AlbumData.id song) || setHas (loadingQueueRef h) (AlbumData.id song).

Definition begin (song : Song) (h : Hook) : Hook :=
  {| songCovers := songCovers h; loadedCount := loadedCount h;
     loadingQueueRef := loadingQueueRef h ∪ {[AlbumData.id song]};
     loadedIdsRef := loadedIdsRef h |}.

(** The callback passed to [loadAlbumCoverProgressive], then the [finally]
    block of [loadSongCover]. *)
Definition onCoverLoaded (song : Song) (cover : string) (h : Hook) : Hook :=
  {| songCovers := <[AlbumData.id song := cover]> (songCovers h);
     loadedCount := loadedCount h + 1;
     loadingQueueRef := loadingQueueRef h;
     loadedIdsRef := loadedIdsRef h ∪ {[AlbumData.id song]} |}.

Definition finish (song : Song) (h : Hook) : Hook :=
  {| songCovers := songCovers h; loadedCount := loadedCount h;
     loadingQueueRef := loadingQueueRef h ∖ {[AlbumData.id song]};
     loadedIdsRef := loadedIdsRef h |}.

Definition loadingProgress (songs : list Song) (h : Hook) : Q :=
  percentage (loadedCount h) (length songs).

Inductive step (songs : list Song) : Hook -> Hook -> Prop :=
| step_begin (song : Song) (h : Hook) :
    song ∈ songs -> skips h song = false -> step songs h (begin song h)
| step_settle (song : Song) (cover : string) (h : Hook) :
    song ∈ songs -> AlbumData.id song ∈ loadingQueueRef h ->
    step songs h (finish song (onCoverLoaded song cover h)).

End ProgressiveHook.

(** ** AudioDbService *)

Module AudioDb.

Definition cacheKey (songTitle artistName : string) : string :=
  artistName +:+ "-" +:+ songTitle.

Definition getPlaceholderImage : string :=
  "data:image/svg+xml;base64,PHN2ZyB3aWR0aD0iMjAwIiBoZWlnaHQ9IjIwMCIgdmlld0JveD"
  +:+ "0iMCAwIDIwMCAyMDAiIGZpbGw9Im5vbmUiIHhtbG5zPSJodHRwOi8vd3d3LnczLm9yZy8yMDAwL3"
  +:+ "N2ZyI+CjxyZWN0IHdpZHRoPSIyMDAiIGhlaWdodD0iMjAwIiBmaWxsPSJsaW5lYXItZ3JhZGllbn"
  +:+ "QoMTM1ZGVnLCAjMjEyMTIxIDAlLCAjMTExMTExIDEwMCUpIi8+CjxjaXJjbGUgY3g9IjEwMCIgY3"
  +:+ "k9IjEwMCIgcj0iNDAiIGZpbGw9Im5vbmUiIHN0cm9rZT0iIzU1NTU1NSIgc3Ryb2tlLXdpZHRoPS"
  +:+ "IyIi8+CjxjaXJjbGUgY3g9IjEwMCIgY3k9IjEwMCIgcj0iMTIiIGZpbGw9IiM3Nzc3NzciLz4KPH"
  +:+ "N2ZyB4PSI4MCIgeT0iNzAiIHdpZHRoPSIyNCIgaGVpZ2h0PSIyNCIgdmlld0JveD0iMCAwIDI0ID"
  +:+ "I0IiBmaWxsPSIjOTk5OTk5Ij4KPHA+PHBhdGggZD0iTTEyIDNWMTMuNTVBNCA0IDAgMSAwIDE0ID"
  +:+ "EwVjQuNzVMOSA2VjEwLjU1QTQgNCAwIDEgMCAxMSA4VjNaMTIgM1oiLz48L3A+PC9zdmc+Cjx0ZX"
  +:+ "h0IHg9IjEwMCIgeT0iMTcwIiB0ZXh0LWFuY2hvcj0ibWlkZGxlIiBmaWxsPSIjNzc3Nzc3IiBmb2"
  +:+ "50LXNpemU9IjEyIiBmb250LWZhbWlseT0iQXJpYWwiPk5vIENvdmVyPC90ZXh0Pgo8L3N2Zz4K".

Inductive MediaType := song | album.

(** One call of [searchiTunes]; the method catches its own errors, so it
    yields a cover or null.  Its outcome is taken from the environment: the
    answer to the n-th search of the lookup. *)
Record Query := mkQuery {
  querySongTitle : string;
  queryArtistName : string;
  queryMedia : MediaType
}.

Definition Searches : Type := nat -> Query -> option string.

Definition searchiTunes (env : Searches) (songTitle artistName : string) (media : MediaType)
  : Eff (list Query) (option string) :=
  fun log =>
    let q := {| querySongTitle := songTitle; queryArtistName := artistName;
                queryMedia := media |} in
    (Normal (env (length log) q), log ++ [q]).

(** [artistName.split(' ')[0].replace(/[^\w]/g, '').toLowerCase()] *)
Fixpoint firstWord (s : string) : string :=
  match s with
  | EmptyString => EmptyString
  | String c r => if Ascii.eqb c " "%char then EmptyString else String c (firstWord r)
  end.

Fixpoint keepWord (s : string) : string :=
  match s with
  | EmptyString => EmptyString
  | String c r => if is_word c then String c (keepWord r) else keepWord r
  end.

Definition simplifyArtistName (artistName : string) : string :=
  toLowerCase (keepWord (firstWord artistName)).

(** [if (cover) return cover;] followed by the rest of the function. *)
Definition returnIfCover {S} (cover : option string) (rest : Eff S string) : Eff S string :=
  match cover with
  | Some c => if truthy c then ret c else rest
  | None => rest
  end.

(** [fetchAlbumCoverFromiTunes]: four strategies, then the placeholder; the
    [catch] also ends in the placeholder. *)
Definition fetchAlbumCoverFromiTunes (env : Searches) (songTitle artistName : string)
  : Eff (list Query) string :=
  tryCatch
    (do exactSongCover <- searchiTunes env songTitle artistName song;
     returnIfCover exactSongCover (
     do albumSearchCover <-
        searchiTunes env (artistName +:+ " " +:+ songTitle) EmptyString album;
     returnIfCover albumSearchCover (
     do artistSearchCover <- searchiTunes env EmptyString artistName song;
     returnIfCover artistSearchCover (
     let simplifiedArtist := simplifyArtistName artistName in
     if negb (String.eqb simplifiedArtist artistName) then
       do simplifiedSearchCover <- searchiTunes env EmptyString simplifiedArtist song;
       returnIfCover simplifiedSearchCover (ret getPlaceholderImage)
     else ret getPlaceholderImage))))
    (fun _ => ret getPlaceholderImage).


(** [levenshteinDistance(str1, str2)].  The matrix is built row by row: row
    0 is [0, 1, ..., str1.length]; row [j] starts with [j] and every further
    cell is the minimum of the cell to its left plus one, the cell above plus
    one, and the cell above left plus the substitution cost. *)
Fixpoint fillRow (left diag : nat) (above : list nat) (str1 : string) (c2 : ascii)
  : list nat :=
  match str1, above with
  | String c1 rest, up :: above' =>
      let substitution := diag + (if Ascii.eqb c1 c2 then 0 else 1) in
      let cell := Nat.min (Nat.min (left + 1) (up + 1)) substitution in
      cell :: fillRow cell up above' rest c2
  | _, _ => []
  end.

Definition nextRow (j : nat) (previous : list nat) (str1 : string) (c2 : ascii) : list nat :=
  match previous with
  | diag :: above => j :: fillRow j diag above str1 c2
  | [] => []
  end.

Fixpoint fillRows (j : nat) (previous : list nat) (str1 str2 : string) : list nat :=
  match str2 with
  | EmptyString => previous
  | String c2 rest => fillRows (S j) (nextRow (S j) previous str1 c2) str1 rest
  end.

Definition levenshteinDistance (str1 str2 : string) : nat :=
  List.last (fillRows 0 (seq 0 (S (String.length str1))) str1 str2) 0.

(** [calculateSimilarity(str1, str2)], as a rational. *)
Definition calculateSimilarity (str1 str2 : string) : Q :=
  if negb (truthy str1) || negb (truthy str2) then 0%Q
  else
    let longer := if (String.length str2 <? String.length str1)%nat then str1 else str2 in
    let shorter := if (String.length str1 <=? String.length str2)%nat then str1 else str2 in
    if (String.length longer =? 0)%nat then 1%Q
    else
      let distance := levenshteinDistance longer shorter in
      ((inject_Z (Z.of_nat (String.length longer)) - inject_Z (Z.of_nat distance))
       / inject_Z (Z.of_nat (String.length longer)))%Q.

(** [s.split(' ')] *)
Fixpoint splitSpaces (current : string) (s : string) : list string :=
  match s with
  | EmptyString => [rev_string EmptyString current]
  | String c r =>
      if Ascii.eqb c " "%char
      then rev_string EmptyString current :: splitSpaces EmptyString r
      else splitSpaces (String c current) r
  end.

Definition split (s : string) : list string := splitSpaces EmptyString s.

Definition longWords (s : string) : list string :=
  List.filter (fun word => (2 <? String.length word)%nat) (split s).

(** [isArtistMatch(searchArtist, resultArtist)] *)
Definition isArtistMatch (searchArtist resultArtist : string) : bool :=
  if negb (truthy searchArtist) || negb (truthy resultArtist) then false
  else if String.eqb searchArtist resultArtist then true
  else
    existsb
      (fun searchWord =>
         existsb
           (fun resultWord =>
              includes resultWord searchWord || includes searchWord resultWord)
           (longWords resultArtist))
      (longWords searchArtist).

(** *** The request queue under interleaving

    A lookup is the promise returned by [fetchAlbumCoverFromiTunes]; it never
    rejects.  A caller is one invocation of [getAlbumCover] or of
    [loadAlbumCoverProgressive]. *)
Inductive Promise := Pending | Fulfilled (value : string).

Record Lookup := mkLookup {
  lookupKey : string;
  lookupTitle : string;
  lookupArtist : string;
  lookupState : Promise
}.

Inductive Caller :=
| Returned (cover : string)                    (* got its cover *)
| AwaitingOwn (key : string) (request : nat)   (* created the request, awaits it *)
| AwaitingShared (request : nat).              (* took the request from the queue *)

Record Service := mkService {
  cache : gmap string string;
  requestQueue : gmap string nat;
  lookups : list Lookup;
  callers : gmap nat Caller
}.

Definition initial : Service :=
  {| cache := ∅; requestQueue := ∅; lookups := []; callers := ∅ |}.

Inductive Priority := high | normal | low.

Inductive Event :=
| GetAlbumCover (caller : nat) (songTitle artistName : string)
| LoadProgressive (caller : nat) (songTitle artistName : string) (priority : Priority)
| Settle (request : nat) (result : string)
| Continue (caller : nat).

(** The synchronous prefix shared by [getAlbumCover] and
    [loadAlbumCoverProgressive]: cache, then queue, then a new request.  (The
    progressive variant delays the start of its lookup by priority; the
    promise is queued at once all the same.) *)
Definition invoke (caller : nat) (songTitle artistName : string) (s : Service)
  : option Service :=
  match callers s !! caller with
  | Some _ => None
  | None =>
      let key := cacheKey songTitle artistName in
      match cache s !! key with
      | Some cover =>
          Some {| cache := cache s; requestQueue := requestQueue s; lookups := lookups s;
                  callers := <[caller := Returned cover]> (callers s) |}
      | None =>
          match requestQueue s !! key with
          | Some request =>
              Some {| cache := cache s; requestQueue := requestQueue s;
                      lookups := lookups s;
                      callers := <[caller := AwaitingShared request]> (callers s) |}
          | None =>
              let request := length (lookups s) in
              Some {| cache := cache s;
                      requestQueue := <[key := request]> (requestQueue s);
                      lookups := lookups s ++
                        [{| lookupKey := key; lookupTitle := songTitle;
                            lookupArtist := artistName; lookupState := Pending |}];
                      callers := <[caller := AwaitingOwn key request]> (callers s) |}
          end
      end
  end.

Definition fulfil (result : string) (l : Lookup) : Lookup :=
  {| lookupKey := lookupKey l; lookupTitle := lookupTitle l;
     lookupArtist := lookupArtist l; lookupState := Fulfilled result |}.

Definition settle (request : nat) (result : string) (s : Service) : option Service :=
  match lookups s !! request with
  | Some l =>
      match lookupState l with
      | Pending =>
          Some {| cache := cache s; requestQueue := requestQueue s;
                  lookups := <[request := fulfil result l]> (lookups s);
                  callers := callers s |}
      | Fulfilled _ => None
      end
  | None => None
  end.

Definition valueOf (s : Service) (request : nat) : option string :=
  match lookups s !! request with
  | Some l => match lookupState l with Fulfilled v => Some v | Pending => None end
  | None => None
  end.

(** After [await request]: the creator stores the result and removes the
    queue entry ([finally]); a caller that shared the request just gets the
    value. *)
Definition continue (caller : nat) (s : Service) : option Service :=
  match callers s !! caller with
  | Some (AwaitingOwn key request) =>
      match valueOf s request with
      | Some result =>
          Some {| cache := <[key := result]> (cache s);
                  requestQueue := delete key (requestQueue s);
                  lookups := lookups s;
                  callers := <[caller := Returned result]> (callers s) |}
      | None => None
      end
  | Some (AwaitingShared request) =>
      match valueOf s request with
      | Some result =>
          Some {| cache := cache s; requestQueue := requestQueue s; lookups := lookups s;
                  callers := <[caller := Returned result]> (callers s) |}
      | None => None
      end
  | _ => None
  end.

Definition step (s : Service) (e : Event) : option Service :=
  match e with
  | GetAlbumCover caller songTitle artistName => invoke caller songTitle artistName s
  | LoadProgressive caller songTitle artistName _ => invoke caller songTitle artistName s
  | Settle request result => settle request result s
  | Continue caller => continue caller s
  end.

Fixpoint run (s : Service) (events : list Event) : option Service :=
  match events with
  | [] => Some s
  | e :: rest => match step s e with Some s1 => run s1 rest | None => None end
  end.

Definition reachable (s : Service) : Prop := exists events, run initial events = Some s.

Definition isPendingFor (key : string) (l : Lookup) : bool :=
  String.eqb (lookupKey l) key
  && match lookupState l with Pending => true | Fulfilled _ => false end.

(** Lookups for [key] that have not settled, and lookups for [key] ever started. *)
Definition outstanding (s : Service) (key : string) : nat :=
  length (filter (fun l => isPendingFor key l = true) (lookups s)).

Definition started (s : Service) (key : string) : nat :=
  length (filter (fun l => String.eqb (lookupKey l) key = true) (lookups s)).

End AudioDb.

(** ** iTunesAPIService.searchTrack under interleaving

    The service keeps no table of requests in flight: an invocation that
    misses the cache issues its own [fetch]. *)

(** ** AudioDbService, one call at a time

    [loadAlbumCoverProgressive] run to completion, with the callback it is
    given.  The queue holds, for a key, what the queued promise settles to;
    the delay before a low-priority lookup only lets time pass. *)
Module AudioDbCalls.

Record State := mkState {
  cache : gmap string string;
  requestQueue : gmap string (Completion string);
  searches : list AudioDb.Query;
  delivered : list string            (* the arguments [onCoverLoaded] was called with *)
}.

Definition setCache (f : gmap string string -> gmap string string) (s : State) : State :=
  {| cache := f (cache s); requestQueue := requestQueue s; searches := searches s;
     delivered := delivered s |}.

Definition setQueue
    (f : gmap string (Completion string) -> gmap string (Completion string)) (s : State)
  : State :=
  {| cache := cache s; requestQueue := f (requestQueue s); searches := searches s;
     delivered := delivered s |}.

(** [onCoverLoaded(cover)]: the callback is called and may throw; how it
    ends may depend on the calls that came before. *)
Definition Callback : Type := list string -> string -> Completion unit.

Definition call (onCoverLoaded : Callback) (cover : string) : Eff State unit :=
  fun s =>
    (onCoverLoaded (delivered s) cover,
     {| cache := cache s; requestQueue := requestQueue s; searches := searches s;
        delivered := delivered s ++ [cover] |}).

(** [const request = (async () => ... this.fetchAlbumCoverFromiTunes(..))()]:
    the lookup runs; [request] is what its promise settles to. *)
Definition startRequest (env : AudioDb.Searches) (songTitle artistName : string)
  : Eff State (Completion string) :=
  fun s =>
    let '(request, log) :=
      AudioDb.fetchAlbumCoverFromiTunes env songTitle artistName (searches s) in
    (Normal request,
     {| cache := cache s; requestQueue := requestQueue s; searches := log;
        delivered := delivered s |}).

Definition loadAlbumCoverProgressive (env : AudioDb.Searches) (songTitle artistName : string)
    (onCoverLoaded : Callback) (priority : AudioDb.Priority)
  : Eff State unit :=
  fun s =>
    let cacheKey := AudioDb.cacheKey songTitle artistName in
    match cache s !! cacheKey with
    | Some cover => call onCoverLoaded cover s
    | None =>
        match requestQueue s !! cacheKey with
        | Some queued =>
            tryCatch
              (do result <- liftCompletion queued;
               call onCoverLoaded result)
              (fun _ => call onCoverLoaded AudioDb.getPlaceholderImage)
              s
        | None =>
            (do request <- startRequest env songTitle artistName;
             modify (setQueue (insert cacheKey request)) ;;;
             tryFinally
               (tryCatch
                  (do result <- liftCompletion request;
                   modify (setCache (insert cacheKey result)) ;;;
                   call onCoverLoaded result)
                  (fun _ =>
                     let placeholder := AudioDb.getPlaceholderImage in
                     modify (setCache (insert cacheKey placeholder)) ;;;
                     call onCoverLoaded placeholder))
               (setQueue (delete cacheKey)))
              s
        end
    end.

End AudioDbCalls.

Module ITunesConcurrent.

Record Service := mkService {
  world : World;
  inflight : gmap nat (string * string);
  returned : gmap nat (option string)
}.

Definition initial : Service := {| world := emptyWorld; inflight := ∅; returned := ∅ |}.

Inductive Event :=
| SearchTrack (caller : nat) (artist track : string)
| Respond (caller : nat) (response : Response).

Definition step (s : Service) (e : Event) : option Service :=
  match e with
  | SearchTrack caller artist track =>
      match inflight s !! caller, returned s !! caller with
      | None, None =>
          match ITunes.searchTrack_start artist track (itunesCache (world s)) with
          | ITunes.CacheHit cover =>
              Some {| world := world s; inflight := inflight s;
                      returned := <[caller := Some cover]> (returned s) |}
          | ITunes.Requested term =>
              Some {| world := recordRequest term (world s);
                      inflight := <[caller := (artist, track)]> (inflight s);
                      returned := returned s |}
          end
      | _, _ => None
      end
  | Respond caller response =>
      match inflight s !! caller with
      | Some (artist, track) =>
          let '(c, w) := ITunes.searchTrack_resume artist track (ret response) (world s) in
          match c with
          | Normal r =>
              Some {| world := w; inflight := delete caller (inflight s);
                      returned := <[caller := r]> (returned s) |}
          | Throw _ => None
          end
      | None => None
      end
  end.

Fixpoint run (s : Service) (events : list Event) : option Service :=
  match events with
  | [] => Some s
  | e :: rest => match step s e with Some s1 => run s1 rest | None => None end
  end.

End ITunesConcurrent.

(** * Notions used in the statements *)

(** [pre] is where the first occurrence of [pat] in [s] starts. *)
Definition firstOccurrence (s pat pre post : string) : Prop :=
  s = pre +:+ pat +:+ post /\
  forall pre' post', s = pre' +:+ pat +:+ post' -> String.length pre <= String.length pre'.

Definition antiHero : iTunesTrack :=
  {| trackId := 1; artistName := "Taylor Swift"; trackName := "Anti-Hero";
     collectionName := "Midnights"; artworkUrl30 := ""; artworkUrl60 := "";
     artworkUrl100 := "https://is1-ssl.mzstatic.com/image/thumb/Music/a/100x100bb.jpg";
     releaseDate := "2022-10-21"; primaryGenreName := "Pop" |}.

Definition unrelated : iTunesTrack :=
  {| trackId := 2; artistName := "Miles Davis"; trackName := "So What";
     collectionName := "Kind of Blue"; artworkUrl30 := ""; artworkUrl60 := "";
     artworkUrl100 := "https://is1-ssl.mzstatic.com/image/thumb/Music/b/100x100bb.jpg";
     releaseDate := "1959-08-17"; primaryGenreName := "Jazz" |}.

(** A candidate matches when its normalized artist or track equals, contains
    or is contained in the requested one. *)
Definition matchesRequest (artist track : string) (r : iTunesTrack) : bool :=
  let resultArtist := cleanSearchTerm (artistName r) in
  let resultTrack := cleanSearchTerm (trackName r) in
  String.eqb resultArtist artist || includes resultArtist artist || includes artist resultArtist
  || String.eqb resultTrack track || includes resultTrack track || includes track resultTrack.

(** Earlier in the plan: nearer to the centre, or equally near and of
    smaller index. *)
Definition before (centerIndex a b : Z) : Prop :=
  (Z.abs (a - centerIndex) < Z.abs (b - centerIndex))%Z \/
  (Z.abs (a - centerIndex) = Z.abs (b - centerIndex) /\ a < b)%Z.

Definition ringsFrom (songs : list Song) (c : Z) (s k : nat) : list Z :=
  map fst (flat_map (FastHook.ring songs c) (map (fun k => Z.of_nat k) (seq s k))).

Definition tenSongs : list Song :=
  map (fun k =>
         {| AlbumData.id := of_N k; AlbumData.title := "Track " +:+ of_N k;
            AlbumData.artist := "Artist " +:+ of_N k; AlbumData.youtubeId := "";
            AlbumData.albumCover := ""; AlbumData.albumName := None;
            AlbumData.year := None |})
      [0; 1; 2; 3; 4; 5; 6; 7; 8; 9]%N.

(** What [searchTrack] makes of a response on a cache miss. *)
Definition selectArtwork (artist track : string) (r : Response) : option string :=
  match r with
  | Json (Some results) =>
      if (0 <? length results)%nat then
        match findBestMatch results (cleanSearchTerm artist) (cleanSearchTerm track) with
        | Some bestMatch =>
            if truthy (artworkUrl100 bestMatch)
            then Some (highQualityArtwork (artworkUrl100 bestMatch))
            else None
        | None => None
        end
      else None
  | _ => None
  end.

Definition afterSearch (artist track : string) (found : option string) (w : World) : World :=
  match found with
  | Some cover => setItunesCache (insert (ITunes.cacheKey artist track) cover) w
  | None => w
  end.

Definition selectFirstArtwork (r : Response) : option string :=
  match r with
  | Json (Some results) =>
      if (0 <? length results)%nat then
        match find (fun t => truthy (artworkUrl100 t)) results with
        | Some t => Some (highQualityArtwork (artworkUrl100 t))
        | None => None
        end
      else None
  | _ => None
  end.

Definition afterFastSearch (artist track : string) (found : option string) (w : World) : World :=
  match found with
  | Some cover => setFastCache (insert (FastItunes.cacheKey artist track) cover) w
  | None => w
  end.

Definition answering (results : list iTunesTrack) : Network :=
  fun _ _ => Json (Some results).

Definition unreachableNet : Network := fun _ _ => FetchRejected.


Definition idleUpdater : Updater.State :=
  {| Updater.updateInProgress := false; Updater.progressCallback := false;
     Updater.delivered := []; Updater.world := emptyWorld |}.

Definition lazySkips (seen : LazyHook.LazyLoadState) (st : LazyHook.State) (song : Song) : bool :=
  mapHas (LazyHook.loadedCovers seen) (LazyHook.songKey song)
  || setHas (LazyHook.loadingCovers seen) (LazyHook.songKey song)
  || setHas (LazyHook.failedCovers seen) (LazyHook.songKey song)
  || setHas (LazyHook.loadingQueue st) (LazyHook.songKey song).

Definition preloadFails (image : string -> LazyHook.ImageOutcome) (albumCover : string) : bool :=
  truthy albumCover && negb (startsWith albumCover "data:")
  && match image albumCover with LazyHook.ImageLoaded => false | _ => true end.

(** The React state after an unaborted load: [found] is what the search
    returned. *)
Definition settledState (image : string -> LazyHook.ImageOutcome) (song : Song)
    (found : option string) (prev : LazyHook.LazyLoadState) : LazyHook.LazyLoadState :=
  let key := LazyHook.songKey song in
  let fallback := getFallbackArtwork (AlbumData.artist song) (AlbumData.title song) in
  let albumCover := orElse found fallback in
  if preloadFails image albumCover
  then LazyHook.storeFailed key fallback (LazyHook.markLoading key prev)
  else LazyHook.storeLoaded key albumCover (LazyHook.markLoading key prev).

(** Computations that cannot end by throwing. *)
Definition neverThrows {S A} (m : Eff S A) : Prop :=
  forall s, exists a s', m s = (Normal a, s').

(** Computations that end normally with a value satisfying [P]. *)
Definition ensures {S A} (P : A -> Prop) (m : Eff S A) : Prop :=
  forall s, exists a s', m s = (Normal a, s') /\ P a.

Definition freshLazy : LazyHook.State :=
  {| LazyHook.state := LazyHook.initial; LazyHook.loadingQueue := ∅;
     LazyHook.world := emptyWorld |}.

Definition sampleSong : Song :=
  {| AlbumData.id := "1"; AlbumData.title := "Anti-Hero"; AlbumData.artist := "Taylor Swift";
     AlbumData.youtubeId := "b1kbLWvqugk"; AlbumData.albumCover := "";
     AlbumData.albumName := Some "Midnights"; AlbumData.year := Some 2022%Z |}.

Definition songKeys (songs : list Song) : gset string :=
  list_to_set (map FastHook.getCacheKey songs).

Inductive progressiveReachable (placeholder : string) (songs : list Song)
  : ProgressiveHook.Hook -> Prop :=
| preach_initial :
    progressiveReachable placeholder songs (ProgressiveHook.initial placeholder songs)
| preach_step h h' :
    progressiveReachable placeholder songs h -> ProgressiveHook.step songs h h' ->
    progressiveReachable placeholder songs h'.

Definition songIds (songs : list Song) : gset string :=
  list_to_set (map AlbumData.id songs).

(** Two entries for the same song (same artist and title, hence the same
    cache key) under different ids. *)
Definition twoVersions : list Song :=
  [ sampleSong;
    {| AlbumData.id := "1b"; AlbumData.title := "Anti-Hero"; AlbumData.artist := "Taylor Swift";
       AlbumData.youtubeId := "other"; AlbumData.albumCover := "";
       AlbumData.albumName := None; AlbumData.year := None |} ].

Definition firstAttempted : FastHook.Hook :=
  FastHook.finish sampleSong
    (FastHook.onCover sampleSong None (FastHook.begin sampleSong FastHook.initial)).

Abbreviation chars := list_ascii_of_string.

(** Lower-case ASCII letters, digits and the underscore: what is left of the
    class [\w] after [toLowerCase]. *)
Definition cleanChar (c : ascii) : bool :=
  let n := code c in
  (((48 <=? n) && (n <=? 57)) || ((97 <=? n) && (n <=? 122)) || (n =? 95))%N.

Definition termChar (c : ascii) : Prop := cleanChar c = true \/ c = " "%char.

(** No two spaces in a row. *)
Definition singleSpaced (l : list ascii) : Prop :=
  forall a b, l <> a ++ " "%char :: " "%char :: b.

(** The first and the last character, if any, are not spaces. *)
Definition trimmed (l : list ascii) : Prop :=
  head l <> Some " "%char /\ last l <> Some " "%char.

Fixpoint dropSpacesL (l : list ascii) : list ascii :=
  match l with
  | [] => []
  | c :: r => if is_space c then dropSpacesL r else l
  end.

Definition antiHeroLive : iTunesTrack :=
  {| trackId := 3; artistName := "Taylor Swift"; trackName := "Anti-Hero";
     collectionName := "Live"; artworkUrl30 := ""; artworkUrl60 := "";
     artworkUrl100 := "https://is1-ssl.mzstatic.com/image/thumb/Music/c/100x100bb.jpg";
     releaseDate := "2023-01-01"; primaryGenreName := "Pop" |}.

Definition hyphenated : iTunesTrack :=
  {| trackId := 4; artistName := "Jay-Z"; trackName := "Encore";
     collectionName := "The Black Album"; artworkUrl30 := ""; artworkUrl60 := "";
     artworkUrl100 := "https://is1-ssl.mzstatic.com/image/thumb/Music/d/100x100bb.jpg";
     releaseDate := "2003-11-14"; primaryGenreName := "Hip-Hop" |}.

Definition isSearch (op : ITunes.Op) : bool :=
  match op with ITunes.OpSearchTrack _ _ => true | _ => false end.

(** Every cover in the cache is a non-empty string. *)
Definition cacheWellFormed (w : World) : Prop :=
  forall key cover, itunesCache w !! key = Some cover -> truthy cover = true.

Definition reportFor (total index : nat) (album : AlbumData) (completed : list AlbumData)
    (p : Updater.UpdateProgress) : Prop :=
  Updater.current p = index + 1 /\ Updater.total p = total /\
  Updater.currentSong p = Updater.label album /\
  Updater.completed p = completed.

Definition busyUpdater : Updater.State :=
  {| Updater.updateInProgress := true; Updater.progressCallback := true;
     Updater.delivered := []; Updater.world := emptyWorld |}.

(** The React state after a load that passed its guard, by the moment of the
    abort. *)
Definition finalState (image : string -> LazyHook.ImageOutcome) (abort : LazyHook.Abort)
    (song : Song) (found : option string) (prev : LazyHook.LazyLoadState)
  : LazyHook.LazyLoadState :=
  let key := LazyHook.songKey song in
  let fallback := getFallbackArtwork (AlbumData.artist song) (AlbumData.title song) in
  let albumCover := orElse found fallback in
  match abort with
  | LazyHook.NoAbort => settledState image song found prev
  | LazyHook.AbortBeforeSearch | LazyHook.AbortDuringSearch => LazyHook.markLoading key prev
  | LazyHook.AbortDuringPreload =>
      if preloadFails image albumCover then LazyHook.markLoading key prev
      else LazyHook.storeLoaded key albumCover (LazyHook.markLoading key prev)
  end.

(** What the hook's state keeps: the counter is the number of stored covers,
    every failed key has a cover, and no stored cover is empty. *)
Definition lazyInvariant (s : LazyHook.LazyLoadState) : Prop :=
  LazyHook.loadedCount s = size (LazyHook.loadedCovers s) /\
  LazyHook.failedCovers s ⊆ dom (LazyHook.loadedCovers s) /\
  (forall key cover, LazyHook.loadedCovers s !! key = Some cover -> truthy cover = true).

(** The song at index [i] exists and is neither loaded nor loading. *)
Definition picked (songs : list Song) (seen : LazyHook.LazyLoadState) (i : Z) : bool :=
  match songAt songs i with
  | Some s => LazyHook.wanted seen s
  | None => false
  end.

(** Earlier in the lazy plan: inside the preload window before outside it,
    and by ascending index otherwise. *)
Definition lazyBefore (centerIndex preloadRadius a b : Z) : Prop :=
  ((Z.abs (a - centerIndex) <= preloadRadius)%Z /\
   ~ (Z.abs (b - centerIndex) <= preloadRadius)%Z) \/
  (((Z.abs (a - centerIndex) <= preloadRadius)%Z <->
    (Z.abs (b - centerIndex) <= preloadRadius)%Z) /\ (a < b)%Z).


(** The searches [fetchAlbumCoverFromiTunes] may issue, in order. *)
Definition strategies (songTitle artistName : string) : list AudioDb.Query :=
  [ AudioDb.mkQuery songTitle artistName AudioDb.song;
    AudioDb.mkQuery (artistName +:+ " " +:+ songTitle) EmptyString AudioDb.album;
    AudioDb.mkQuery EmptyString artistName AudioDb.song ]
  ++ (if String.eqb (AudioDb.simplifyArtistName artistName) artistName then []
      else [AudioDb.mkQuery EmptyString (AudioDb.simplifyArtistName artistName) AudioDb.song]).

(** The edit distance by its defining recurrence on the last characters of
    the two strings (both given back to front): deleting, inserting or
    replacing one character costs 1. *)
Fixpoint editDistance (s : list ascii) : list ascii -> nat :=
  match s with
  | [] => fun t => length t
  | a :: s' =>
      fix inner (t : list ascii) : nat :=
        match t with
        | [] => S (length s')
        | b :: t' =>
            Nat.min (Nat.min (editDistance s' (b :: t') + 1) (inner t' + 1))
                    (editDistance s' t' + (if Ascii.eqb a b then 0 else 1))
        end
  end.

(** The prefixes of [rest] that extend the prefix [p], each back to front. *)
Fixpoint revPrefixes (p : list ascii) (rest : string) : list (list ascii) :=
  match rest with
  | EmptyString => []
  | String c r => (c :: p) :: revPrefixes (c :: p) r
  end.

(** [cover] is [url] with the first occurrence of the literal [100x100bb]
    replaced by [600x600bb], and [url] itself when there is none. *)
Definition upgraded (url cover : string) : Prop :=
  (includes url "100x100bb" = false -> cover = url) /\
  (includes url "100x100bb" = true ->
     exists pre post,
       firstOccurrence url "100x100bb" pre post /\
       cover = pre +:+ "600x600bb" +:+ post).

(** A candidate whose thumbnail URL has the size without the suffix [bb]. *)
Definition plainThumbnail : iTunesTrack :=
  {| trackId := 5; artistName := "Taylor Swift"; trackName := "Anti-Hero";
     collectionName := "Midnights"; artworkUrl30 := ""; artworkUrl60 := "";
     artworkUrl100 := "https://a.example/img/100x100.jpg";
     releaseDate := "2022-10-21"; primaryGenreName := "Pop" |}.

(** In the service with overlapping calls: the key has a cover in the cache
    and no call for it is still waiting for its response. *)
Definition settled (s : ITunesConcurrent.Service) (key cover : string) : Prop :=
  itunesCache (ITunesConcurrent.world s) !! key = Some cover /\
  forall caller artist track,
    ITunesConcurrent.inflight s !! caller = Some (artist, track) ->
    ITunes.cacheKey artist track <> key.

(** Anti-Hero cached after one search, nothing in flight. *)
Definition antiHeroSettled : list ITunesConcurrent.Event :=
  [ITunesConcurrent.SearchTrack 1 "Taylor Swift" "Anti-Hero";
   ITunesConcurrent.Respond 1 (Json (Some [antiHero]))].



(** Some code unit is above 0xFF. *)
Definition beyondLatin1 (t : CodeUnits.JsText) : Prop := Exists (fun unit => (256 <= unit)%N) t.

(** What a fresh [loadAlbumCoverProgressive] stores and delivers, by the
    outcome of the first call of the callback. *)
Definition afterCallback {A} (outcome : Completion unit) (ok failed : A) : A :=
  match outcome with
  | Normal _ => ok
  | Throw _ => failed
  end.

Definition freshAudioDb : AudioDbCalls.State :=
  {| AudioDbCalls.cache := ∅; AudioDbCalls.requestQueue := ∅;
     AudioDbCalls.searches := []; AudioDbCalls.delivered := [] |}.

Module AudioDbSpec.

Import AudioDb.

Record QueueInvariant (s : Service) : Prop := mkInv {
  owner_queued : forall c k p,
    callers s !! c = Some (AwaitingOwn k p) -> requestQueue s !! k = Some p;
  owner_unique : forall c1 c2 k1 k2 p,
    callers s !! c1 = Some (AwaitingOwn k1 p) ->
    callers s !! c2 = Some (AwaitingOwn k2 p) -> c1 = c2;
  pending_queued : forall p l,
    lookups s !! p = Some l -> lookupState l = Pending ->
    requestQueue s !! lookupKey l = Some p;
  queued_started : forall k p,
    requestQueue s !! k = Some p -> p < length (lookups s)
}.

(** Give every caller of [cs] the same entry. *)
Definition setAll (v : Caller) (cs : list nat) (m : gmap nat Caller) : gmap nat Caller :=
  foldl (fun m c => <[c := v]> m) m cs.

Definition withCallers (s : Service) (m : gmap nat Caller) : Service :=
  {| cache := cache s; requestQueue := requestQueue s; lookups := lookups s; callers := m |}.

(** The key has a cover in the cache or a promise in the request queue. *)
Definition known (s : Service) (key : string) : Prop :=
  is_Some (cache s !! key) \/ is_Some (requestQueue s !! key).

Record LifetimeInvariant (s : Service) : Prop := mkLife {
  life_queue : QueueInvariant s;
  owner_uncached : forall c k p,
    callers s !! c = Some (AwaitingOwn k p) -> cache s !! k = None;
  known_started : forall k, known s k -> started s k = 1;
  unknown_not_started : forall k, ~ known s k -> started s k = 0
}.

Definition placeholderCached : list Event :=
  [GetAlbumCover 1 "Anti-Hero" "Taylor Swift"; Settle 0 getPlaceholderImage; Continue 1].

End AudioDbSpec.

(** * Properties *)

(** ** Strings *)

Lemma prefix_refl (s : string) : String.prefix s s = true.
Proof.
  induction s as [|c s IH]; simpl; [reflexivity|].
  destruct (ascii_dec c c); [exact IH | congruence].
Qed.

Lemma prefix_app (p t : string) : String.prefix p (p +:+ t) = true.
Proof.
  induction p as [|c p IH]; simpl; [destruct t; reflexivity|].
  destruct (ascii_dec c c); [exact IH | congruence].
Qed.

Lemma prefix_split (p s : string) :
  String.prefix p s = true -> exists t, s = p +:+ t.
Proof.
  revert s; induction p as [|c p IH]; intros s H.
  - exists s; reflexivity.
  - destruct s as [|d s]; simpl in H; [discriminate|].
    destruct (ascii_dec c d) as [->|]; [|discriminate].
    destruct (IH _ H) as [t ->]. exists t; reflexivity.
Qed.

Lemma drop_app (p t : string) : drop (String.length p) (p +:+ t) = t.
Proof. induction p as [|c p IH]; simpl; [destruct t; reflexivity | exact IH]. Qed.

Lemma includes_unfold (s sub : string) :
  includes s sub =
  if String.prefix sub s then true
  else match s with EmptyString => false | String _ r => includes r sub end.
Proof. destruct s; reflexivity. Qed.

Lemma replace_unfold (s pat rep : string) :
  replace s pat rep =
  if String.prefix pat s then rep +:+ drop (String.length pat) s
  else match s with
       | EmptyString => EmptyString
       | String c r => String c (replace r pat rep)
       end.
Proof. destruct s; reflexivity. Qed.

Lemma includes_refl (s : string) : includes s s = true.
Proof. rewrite includes_unfold. now rewrite prefix_refl. Qed.

Lemma includes_occurrence (pre pat post : string) :
  includes (pre +:+ pat +:+ post) pat = true.
Proof.
  induction pre as [|c pre IH].
  - change ("" +:+ pat +:+ post) with (pat +:+ post).
    rewrite includes_unfold. now rewrite prefix_app.
  - change (String c pre +:+ pat +:+ post) with (String c (pre +:+ pat +:+ post)).
    rewrite includes_unfold. rewrite IH.
    destruct (String.prefix pat _); reflexivity.
Qed.

Lemma replace_absent (s pat rep : string) :
  includes s pat = false -> replace s pat rep = s.
Proof.
  induction s as [|c s IH]; rewrite includes_unfold, replace_unfold; intros H.
  - destruct (String.prefix pat ""); [discriminate | reflexivity].
  - destruct (String.prefix pat (String c s)); [discriminate|].
    now rewrite IH.
Qed.

Lemma replace_first (s pat rep pre post : string) :
  firstOccurrence s pat pre post -> replace s pat rep = pre +:+ rep +:+ post.
Proof.
  revert s; induction pre as [|c pre IH]; intros s [-> Hmin].
  - change ("" +:+ pat +:+ post) with (pat +:+ post).
    rewrite replace_unfold. now rewrite prefix_app, drop_app.
  - change (String c pre +:+ pat +:+ post) with (String c (pre +:+ pat +:+ post)).
    rewrite replace_unfold.
    destruct (String.prefix pat (String c (pre +:+ pat +:+ post))) eqn:E.
    + destruct (prefix_split _ _ E) as [t Ht].
      specialize (Hmin "" t Ht). simpl in Hmin. lia.
    + change (String c pre +:+ rep +:+ post) with (String c (pre +:+ rep +:+ post)).
      f_equal. apply IH. split; [reflexivity|].
      intros pre' post' Heq. specialize (Hmin (String c pre') post').
      change (String c pre' +:+ pat +:+ post') with (String c (pre' +:+ pat +:+ post')) in Hmin.
      change (String c pre +:+ pat +:+ post) with (String c (pre +:+ pat +:+ post)) in Hmin.
      rewrite Heq in Hmin. specialize (Hmin eq_refl). simpl in Hmin. lia.
Qed.

Lemma first_occurrence_exists (s pat : string) :
  includes s pat = true -> exists pre post, firstOccurrence s pat pre post.
Proof.
  induction s as [|c s IH]; rewrite includes_unfold; intros H.
  - destruct (String.prefix pat "") eqn:E; [|discriminate].
    destruct (prefix_split _ _ E) as [t Ht]. exists "", t. split; [exact Ht|].
    intros; simpl; lia.
  - destruct (String.prefix pat (String c s)) eqn:E.
    + destruct (prefix_split _ _ E) as [t Ht]. exists "", t. split; [exact Ht|].
      intros; simpl; lia.
    + destruct (IH H) as (pre & post & -> & Hmin).
      exists (String c pre), post. split; [reflexivity|].
      intros pre' post' Heq. destruct pre' as [|d pre'].
      * change ("" +:+ pat +:+ post') with (pat +:+ post') in Heq.
        change (String c pre +:+ pat +:+ post) with (String c (pre +:+ pat +:+ post)) in Heq.
        rewrite Heq in E. rewrite prefix_app in E. discriminate.
      * change (String c pre +:+ pat +:+ post) with (String c (pre +:+ pat +:+ post)) in Heq.
        change (String d pre' +:+ pat +:+ post') with (String d (pre' +:+ pat +:+ post')) in Heq.
        injection Heq as -> Heq.
        specialize (Hmin _ _ Heq). simpl. lia.
Qed.

(** ** MatchScorer *)

Lemma score_parts (artist track : string) (r : iTunesTrack) :
  score artist track r = (artistPoints r artist + trackPoints r track + artworkBonus r)%Z.
Proof. unfold score, artistPoints, trackPoints. lia. Qed.

(** *** The stable sort and its first element *)

Lemma insert_sorted_head (x : iTunesTrack * Z) (l : list (iTunesTrack * Z)) :
  head (insert_sorted byScoreDesc x l) =
  match head l with
  | Some y => if (snd y <=? snd x)%Z then Some x else Some y
  | None => Some x
  end.
Proof.
  destruct l as [|y r]; simpl; [reflexivity|].
  unfold byScoreDesc.
  destruct (snd y - snd x <=? 0)%Z eqn:E1, (snd y <=? snd x)%Z eqn:E2; try reflexivity; lia.
Qed.

Lemma sort_head_max (l : list (iTunesTrack * Z)) :
  match head (sort byScoreDesc l) with
  | Some m => m ∈ l /\ forall x, x ∈ l -> (snd x <= snd m)%Z
  | None => l = []
  end.
Proof.
  induction l as [|x l IH]; [reflexivity|].
  change (sort byScoreDesc (x :: l)) with (insert_sorted byScoreDesc x (sort byScoreDesc l)).
  rewrite insert_sorted_head.
  destruct (head (sort byScoreDesc l)) as [m|].
  - destruct IH as [Hin Hmax].
    destruct (snd m <=? snd x)%Z eqn:E.
    + split; [left|]. intros y Hy. apply elem_of_cons in Hy as [->|Hy]; [lia|].
      specialize (Hmax y Hy). lia.
    + split; [now right|]. intros y Hy. apply elem_of_cons in Hy as [->|Hy]; [lia|].
      now apply Hmax.
  - subst l. split; [left|]. intros y Hy. apply elem_of_cons in Hy as [->|Hy]; [lia|].
    inversion Hy.
Qed.

Lemma unmatched_score (artist track : string) (r : iTunesTrack) :
  matchesRequest artist track r = false -> score artist track r = artworkBonus r.
Proof.
  unfold matchesRequest, score, artistSimilarity, artistExact, trackSimilarity, trackExact.
  intros H. repeat (apply orb_false_elim in H as [H ?]).
  repeat match goal with E : _ = false |- _ => rewrite E; clear E end.
  simpl. lia.
Qed.

Lemma artworkBonus_le (r : iTunesTrack) : (artworkBonus r <= 5)%Z.
Proof. unfold artworkBonus. destruct (truthy _); lia. Qed.

Lemma findBestMatch_spec (results : list iTunesTrack) (artist track : string) :
  match findBestMatch results artist track with
  | Some best =>
      best ∈ results /\ (5 < score artist track best)%Z /\
      forall r, r ∈ results -> (score artist track r <= score artist track best)%Z
  | None => forall r, r ∈ results -> (score artist track r <= 5)%Z
  end.
Proof.
  unfold findBestMatch. destruct results as [|r0 rs].
  - intros r Hr. inversion Hr.
  - set (results := r0 :: rs).
    pose proof (sort_head_max (scored artist track results)) as H.
    destruct (head (sort byScoreDesc (scored artist track results))) as [[b sb]|].
    + destruct H as [Hin Hmax]. unfold scored in Hin.
      apply list_elem_of_fmap in Hin as (b' & Heq & Hb'). injection Heq as -> ->.
      assert (Hall : forall r, r ∈ results ->
                (score artist track r <= score artist track b')%Z).
      { intros r Hr. apply (Hmax (r, score artist track r)).
        unfold scored. apply list_elem_of_fmap. now exists r. }
      cbn [fst snd]. destruct (5 <? score artist track b')%Z eqn:E.
      * repeat split; [assumption | lia | assumption].
      * intros r Hr. specialize (Hall r Hr). lia.
    + discriminate H.
Qed.

(** C5: [findBestMatch] returns a candidate only when its score is strictly
    above the floor 5 (and then it is a candidate of the list with the
    highest score); otherwise it returns none.  In particular, when no
    candidate matches the requested artist or track by equality or by
    substring, none is selected: the artwork bonus alone does not suffice. *)
Theorem findBestMatch_floor (results : list iTunesTrack) (artist track : string) :
  (forall best, findBestMatch results artist track = Some best ->
     best ∈ results /\ (5 < score artist track best)%Z) /\
  ((forall r, r ∈ results -> (score artist track r <= 5)%Z) ->
     findBestMatch results artist track = None) /\
  ((forall r, r ∈ results -> matchesRequest artist track r = false) ->
     findBestMatch results artist track = None).
Proof.
  pose proof (findBestMatch_spec results artist track) as H.
  assert (Hfloor : (forall r, r ∈ results -> (score artist track r <= 5)%Z) ->
                   findBestMatch results artist track = None).
  { intros Hle. destruct (findBestMatch results artist track) as [b|]; [|reflexivity].
    destruct H as (Hin & Hgt & _). specialize (Hle b Hin). lia. }
  split; [|split].
  - intros best E. rewrite E in H. destruct H as (Hin & Hgt & _). now split.
  - exact Hfloor.
  - intros Hno. apply Hfloor. intros r Hr.
    rewrite (unmatched_score _ _ _ (Hno r Hr)). apply artworkBonus_le.
Qed.

Lemma findBestMatch_floor_witness :
  findBestMatch [unrelated] "taylor swift" "antihero" = None /\
  findBestMatch [unrelated; antiHero] "taylor swift" "antihero" = Some antiHero.
Proof.
  split; [|reflexivity].
  apply (findBestMatch_floor [unrelated] "taylor swift" "antihero").
  intros r Hr. apply list_elem_of_singleton in Hr as ->. reflexivity.
Defined.

(** ** FallbackSynthesizer *)

Lemma simpleHash_nonneg (str : string) : (0 <= simpleHash str)%Z.
Proof. unfold simpleHash. apply Z.abs_nonneg. Qed.

Lemma palette_ranges (artist trackTitle : string) :
  let p := palette artist trackTitle in
  (0 <= hue p < 360 /\ 30 <= saturation p < 70 /\ 20 <= lightness p < 50)%Z.
Proof.
  unfold palette; cbn [hue saturation lightness].
  pose proof (simpleHash_nonneg (artist +:+ trackTitle)) as H.
  pose proof (Z.rem_bound_pos (simpleHash (artist +:+ trackTitle)) 360 H ltac:(lia)).
  pose proof (Z.rem_bound_pos (simpleHash (artist +:+ trackTitle)) 40 H ltac:(lia)).
  pose proof (Z.rem_bound_pos (simpleHash (artist +:+ trackTitle)) 30 H ltac:(lia)).
  lia.
Qed.

Example palette_sample :
  simpleHash "Taylor SwiftAnti-Hero" = 302973841%Z /\
  palette "Taylor Swift" "Anti-Hero" = {| hue := 1; saturation := 31; lightness := 21 |}.
Proof. split; reflexivity. Qed.

Example truncate_sample :
  truncate "A very long artist name indeed" 20 = "A very long artis..." /\
  truncate "Taylor Swift" 20 = "Taylor Swift".
Proof. split; reflexivity. Qed.

Example btoa_sample : btoa "<svg>" = "PHN2Zz4=" /\ btoa "ab" = "YWI=" /\ btoa "abc" = "YWJj".
Proof. repeat split; reflexivity. Qed.

(** C7: [getFallbackArtwork] is pure and deterministic.  Called in any two
    states of the service (whatever the cache holds and whatever was requested
    before), it returns the same image and changes nothing; the image is the
    base64 data URL of the SVG document built from the hash-derived palette
    (hue in 0..359, saturation in 30..69, lightness in 20..49) and the
    truncated artist and track, so it depends on the two strings only. *)
Theorem getFallbackArtwork_deterministic (artist trackTitle : string) (w1 w2 : World) :
  exists image,
    ITunes.getFallbackArtwork artist trackTitle w1 = (Normal image, w1) /\
    ITunes.getFallbackArtwork artist trackTitle w2 = (Normal image, w2) /\
    image = "data:image/svg+xml;base64," +:+ btoa (svgDocument artist trackTitle) /\
    let p := palette artist trackTitle in
    (0 <= hue p < 360 /\ 30 <= saturation p < 70 /\ 20 <= lightness p < 50)%Z.
Proof.
  exists (getFallbackArtwork artist trackTitle).
  repeat split; try reflexivity; apply palette_ranges.
Qed.

Lemma songAt_Some (songs : list Song) (i : Z) :
  is_Some (songAt songs i) <-> (0 <= i < Z.of_nat (length songs))%Z.
Proof.
  unfold songAt. destruct (i <? 0)%Z eqn:E.
  - split; [intros [? ?]; discriminate | lia].
  - rewrite lookup_lt_is_Some. lia.
Qed.

Lemma songAt_None (songs : list Song) (i : Z) :
  songAt songs i = None <-> ~ (0 <= i < Z.of_nat (length songs))%Z.
Proof. rewrite <- songAt_Some. rewrite eq_None_not_Some. tauto. Qed.

Lemma StronglySorted_append {A} (R : A -> A -> Prop) (l1 l2 : list A) :
  StronglySorted R l1 -> StronglySorted R l2 ->
  (forall a b, a ∈ l1 -> b ∈ l2 -> R a b) ->
  StronglySorted R (l1 ++ l2).
Proof.
  induction 1 as [|x l1 Hs IH Hx]; intros H2 Hcross; [exact H2|].
  simpl. constructor.
  - apply IH; [assumption|]. intros a b Ha Hb. apply Hcross; [now right | assumption].
  - apply Forall_app. split; [assumption|].
    apply Forall_forall. intros b Hb. apply Hcross; [left | assumption].
Qed.

Lemma StronglySorted_positions {A} (R : A -> A -> Prop) (l : list A) :
  StronglySorted R l ->
  forall i j a b, (i < j)%nat -> l !! i = Some a -> l !! j = Some b -> R a b.
Proof.
  induction 1 as [|x l Hs IH Hx]; intros i j a b Hij Ha Hb.
  - rewrite lookup_nil in Ha. discriminate.
  - destruct j as [|j]; [lia|]. destruct i as [|i]; simpl in *.
    + injection Ha as ->. rewrite Forall_forall in Hx. apply Hx.
      apply list_elem_of_lookup. eauto.
    + apply (IH i j); [lia | assumption | assumption].
Qed.

Lemma ring_indices (songs : list Song) (c r : Z) :
  map fst (FastHook.ring songs c r) =
  (if decide (0 <= c - r < Z.of_nat (length songs))%Z then [(c - r)%Z] else [])
  ++ (if decide (0 <= c + r < Z.of_nat (length songs))%Z then [(c + r)%Z] else []).
Proof.
  unfold FastHook.ring. rewrite map_app. f_equal.
  - destruct (0 <=? c - r)%Z eqn:E.
    + destruct (songAt songs (c - r)) eqn:Es.
      * assert (is_Some (songAt songs (c - r))) as Hs by eauto.
        apply songAt_Some in Hs. now rewrite decide_True.
      * apply songAt_None in Es. now rewrite decide_False.
    + rewrite decide_False; [reflexivity | lia].
  - destruct (c + r <? Z.of_nat (length songs))%Z eqn:E.
    + destruct (songAt songs (c + r)) eqn:Es.
      * assert (is_Some (songAt songs (c + r))) as Hs by eauto.
        apply songAt_Some in Hs. now rewrite decide_True.
      * apply songAt_None in Es. now rewrite decide_False.
    + rewrite decide_False; [reflexivity | lia].
Qed.

Lemma ring_lookup (songs : list Song) (c r i : Z) (s : Song) :
  (i, s) ∈ FastHook.ring songs c r -> songAt songs i = Some s.
Proof.
  unfold FastHook.ring. intros H. apply elem_of_app in H as [H|H].
  - destruct (0 <=? c - r)%Z; [|inversion H].
    destruct (songAt songs (c - r)) eqn:E; [|inversion H].
    apply list_elem_of_singleton in H. injection H as -> ->. exact E.
  - destruct (c + r <? Z.of_nat (length songs))%Z; [|inversion H].
    destruct (songAt songs (c + r)) eqn:E; [|inversion H].
    apply list_elem_of_singleton in H. injection H as -> ->. exact E.
Qed.

Lemma ringsFrom_step (songs : list Song) (c : Z) (s k : nat) :
  ringsFrom songs c s (S k) =
  map fst (FastHook.ring songs c (Z.of_nat s)) ++ ringsFrom songs c (S s) k.
Proof. unfold ringsFrom. simpl. now rewrite map_app. Qed.

Lemma ring_elem (songs : list Song) (c r i : Z) :
  i ∈ map fst (FastHook.ring songs c r) <->
  (0 <= i < Z.of_nat (length songs))%Z /\ (i = c - r \/ i = c + r)%Z.
Proof.
  rewrite ring_indices, elem_of_app.
  destruct (decide (0 <= c - r < Z.of_nat (length songs))%Z),
           (decide (0 <= c + r < Z.of_nat (length songs))%Z);
    rewrite ?list_elem_of_singleton, ?elem_of_nil; lia.
Qed.

Lemma ringsFrom_elem (songs : list Song) (c : Z) (k s : nat) (i : Z) :
  i ∈ ringsFrom songs c s k <->
  (0 <= i < Z.of_nat (length songs))%Z /\
  (Z.of_nat s <= Z.abs (i - c) < Z.of_nat s + Z.of_nat k)%Z.
Proof.
  revert s; induction k as [|k IH]; intros s.
  - unfold ringsFrom; simpl. rewrite elem_of_nil. lia.
  - rewrite ringsFrom_step, elem_of_app, IH, ring_elem. lia.
Qed.

Lemma ring_sorted (songs : list Song) (c : Z) (s : nat) :
  (1 <= s)%nat -> StronglySorted (before c) (map fst (FastHook.ring songs c (Z.of_nat s))).
Proof.
  intros Hs. rewrite ring_indices.
  repeat case_decide; cbn [app].
  - apply SSorted_cons; [apply SSorted_cons; [apply SSorted_nil | constructor]|].
    constructor; [|constructor]. right. lia.
  - apply SSorted_cons; [apply SSorted_nil | constructor].
  - apply SSorted_cons; [apply SSorted_nil | constructor].
  - apply SSorted_nil.
Qed.

Lemma ringsFrom_sorted (songs : list Song) (c : Z) (k s : nat) :
  (1 <= s)%nat -> StronglySorted (before c) (ringsFrom songs c s k).
Proof.
  revert s; induction k as [|k IH]; intros s Hs.
  - constructor.
  - rewrite ringsFrom_step. apply StronglySorted_append.
    + now apply ring_sorted.
    + apply IH. lia.
    + intros a b Ha Hb. apply ring_elem in Ha. apply ringsFrom_elem in Hb.
      left. lia.
Qed.

Lemma planIndices_unfold (songs : list Song) (c R : Z) :
  songs <> [] ->
  FastHook.planIndices songs c R =
  (if decide (0 <= c < Z.of_nat (length songs))%Z then [c] else [])
  ++ ringsFrom songs c 1 (Z.to_nat R).
Proof.
  intros Hne. unfold FastHook.planIndices, FastHook.songsToLoadIx, ringsFrom, FastHook.radii.
  destruct songs as [|s0 rest]; [congruence|].
  rewrite map_app. f_equal.
  destruct (songAt (s0 :: rest) c) eqn:E.
  - assert (is_Some (songAt (s0 :: rest) c)) as Hs by eauto.
    apply songAt_Some in Hs. now rewrite decide_True.
  - apply songAt_None in E. now rewrite decide_False.
Qed.

Lemma planIndices_sorted (songs : list Song) (c R : Z) :
  StronglySorted (before c) (FastHook.planIndices songs c R).
Proof.
  destruct (decide (songs = [])) as [->|Hne]; [constructor|].
  rewrite planIndices_unfold by assumption.
  apply StronglySorted_append.
  - case_decide; repeat constructor.
  - apply ringsFrom_sorted. lia.
  - intros a b Ha Hb. case_decide; [|inversion Ha].
    apply list_elem_of_singleton in Ha as ->. apply ringsFrom_elem in Hb.
    left. lia.
Qed.

Lemma planIndices_elem (songs : list Song) (c R i : Z) :
  i ∈ FastHook.planIndices songs c R <->
  (0 <= i < Z.of_nat (length songs))%Z /\ (i = c \/ Z.abs (i - c) <= R)%Z.
Proof.
  destruct (decide (songs = [])) as [->|Hne].
  - unfold FastHook.planIndices; simpl. rewrite elem_of_nil. lia.
  - rewrite planIndices_unfold by assumption.
    rewrite elem_of_app, ringsFrom_elem.
    case_decide; rewrite ?list_elem_of_singleton, ?elem_of_nil; lia.
Qed.

Lemma songsToLoadIx_lookup (songs : list Song) (c R i : Z) (s : Song) :
  (i, s) ∈ FastHook.songsToLoadIx songs c R -> songAt songs i = Some s.
Proof.
  unfold FastHook.songsToLoadIx. destruct songs as [|s0 rest]; [intros H; inversion H|].
  intros H. apply elem_of_app in H as [H|H].
  - destruct (songAt (s0 :: rest) c) eqn:E; [|inversion H].
    apply list_elem_of_singleton in H. injection H as -> ->. exact E.
  - apply list_elem_of_In, in_flat_map in H as (r & _ & H).
    apply list_elem_of_In in H. eapply ring_lookup; eassumption.
Qed.

(** C6, as the code has it (useFastAlbumCovers): the plan begins with the
    song at [centerIndex] when that index is valid; it lists exactly the valid
    indices within [preloadRadius] of the centre; indices come in ascending
    distance from the centre, and of the two at equal distance the one before
    the centre (the smaller index) comes first; every planned song is the
    song at its index. *)
Theorem fast_plan_order (songs : list Song) (centerIndex preloadRadius : Z) :
  let plan := FastHook.planIndices songs centerIndex preloadRadius in
  ((0 <= centerIndex < Z.of_nat (length songs))%Z -> head plan = Some centerIndex) /\
  (forall i j a b, (i < j)%nat -> plan !! i = Some a -> plan !! j = Some b ->
     (Z.abs (a - centerIndex) < Z.abs (b - centerIndex))%Z \/
     (Z.abs (a - centerIndex) = Z.abs (b - centerIndex) /\ a < b)%Z) /\
  (forall i, i ∈ plan <->
     (0 <= i < Z.of_nat (length songs))%Z /\
     (i = centerIndex \/ Z.abs (i - centerIndex) <= preloadRadius)%Z) /\
  (forall i s, (i, s) ∈ FastHook.songsToLoadIx songs centerIndex preloadRadius ->
     songAt songs i = Some s).
Proof.
  cbv zeta. split; [|split; [|split]].
  - intros Hc. destruct (decide (songs = [])) as [->|Hne]; [simpl in Hc; lia|].
    rewrite planIndices_unfold by assumption. now rewrite decide_True.
  - intros i j a b Hij Ha Hb.
    exact (StronglySorted_positions _ _ (planIndices_sorted songs centerIndex preloadRadius)
             i j a b Hij Ha Hb).
  - apply planIndices_elem.
  - apply songsToLoadIx_lookup.
Qed.

Lemma fast_plan_order_witness :
  head (FastHook.planIndices tenSongs 5 5) = Some 5%Z.
Proof.
  apply (fast_plan_order tenSongs 5 5). simpl. lia.
Defined.

(** The claim of C6 fails on ten songs with the focus at index 5: at equal
    distance the smaller index comes first in useFastAlbumCovers (4 before 6),
    and the plan of useLazyAlbumCovers runs in index order and begins with
    index 0, not with the focus. *)
Lemma plan_prefers_smaller_index :
  FastHook.planIndices tenSongs 5 5 = [5; 4; 6; 3; 7; 2; 8; 1; 9; 0]%Z /\
  LazyHook.planIndices tenSongs 5 5 10 LazyHook.initial = [0; 1; 2; 3; 4; 5; 6; 7; 8; 9]%Z.
Proof. split; vm_compute; reflexivity. Qed.

(** ** iTunesAPIService.searchTrack *)

Lemma searchTrack_resume_eq (artist track : string) (r : Response) (w : World) :
  ITunes.searchTrack_resume artist track (ret r) w =
  (Normal (selectArtwork artist track r), afterSearch artist track (selectArtwork artist track r) w).
Proof.
  unfold ITunes.searchTrack_resume, tryCatch, bind, ret, liftCompletion, selectArtwork,
    afterSearch, ITunes.readJson, modify.
  destruct r as [| | |[results|]]; cbv beta iota zeta; try reflexivity.
  destruct (0 <? length results)%nat; [|reflexivity].
  destruct (findBestMatch _ _ _) as [b|]; [|reflexivity].
  destruct (truthy (artworkUrl100 b)); reflexivity.
Qed.

Lemma searchTrack_hit (net : Network) (artist track cover : string) (w : World) :
  itunesCache w !! ITunes.cacheKey artist track = Some cover ->
  ITunes.searchTrack net artist track w = (Normal (Some cover), w).
Proof. intros H. unfold ITunes.searchTrack, ITunes.searchTrack_start. now rewrite H. Qed.

Lemma searchTrack_miss (net : Network) (artist track : string) (w : World) :
  itunesCache w !! ITunes.cacheKey artist track = None ->
  let term := ITunes.searchTerm artist track in
  let found := selectArtwork artist track (net (length (requests w)) term) in
  ITunes.searchTrack net artist track w =
  (Normal found, afterSearch artist track found (recordRequest term w)).
Proof.
  intros H. cbv zeta. unfold ITunes.searchTrack, ITunes.searchTrack_start. rewrite H.
  unfold ITunes.searchTrack_resume, tryCatch, bind, ret, liftCompletion, fetch,
    selectArtwork, afterSearch, ITunes.readJson, modify.
  destruct (net _ _) as [| | |[results|]]; cbv beta iota zeta; try reflexivity.
  destruct (0 <? length results)%nat; [|reflexivity].
  destruct (findBestMatch _ _ _) as [b|]; [|reflexivity].
  destruct (truthy (artworkUrl100 b)); reflexivity.
Qed.

Lemma searchTrack_normal (net : Network) (artist track : string) (w : World) :
  exists found w', ITunes.searchTrack net artist track w = (Normal found, w').
Proof.
  destruct (itunesCache w !! ITunes.cacheKey artist track) as [c|] eqn:E.
  - exists (Some c), w. now apply searchTrack_hit.
  - eexists _, _. rewrite (searchTrack_miss net _ _ _ E). reflexivity.
Qed.

Lemma truthy_highQuality (url : string) :
  truthy url = true -> truthy (highQualityArtwork url) = true.
Proof.
  unfold highQualityArtwork. rewrite replace_unfold.
  destruct (String.prefix "100x100bb" url); [reflexivity|].
  destruct url; [discriminate | reflexivity].
Qed.

Lemma selectArtwork_truthy (artist track cover : string) (r : Response) :
  selectArtwork artist track r = Some cover -> truthy cover = true.
Proof.
  unfold selectArtwork. destruct r as [| | |[results|]]; try discriminate.
  destruct (0 <? length results)%nat; [|discriminate].
  destruct (findBestMatch _ _ _) as [b|]; [|discriminate].
  destruct (truthy (artworkUrl100 b)) eqn:E; [|discriminate].
  intros [= <-]. now apply truthy_highQuality.
Qed.

(** A search never overwrites or removes a cache entry. *)
Lemma searchTrack_keeps (net : Network) (artist track key cover : string) (w : World) :
  itunesCache w !! key = Some cover ->
  itunesCache (snd (ITunes.searchTrack net artist track w)) !! key = Some cover.
Proof.
  intros H.
  destruct (itunesCache w !! ITunes.cacheKey artist track) as [c|] eqn:E.
  - now rewrite (searchTrack_hit net _ _ _ _ E).
  - rewrite (searchTrack_miss net _ _ _ E). cbn [snd].
    destruct (selectArtwork _ _ _); cbn; [|exact H].
    rewrite lookup_insert_ne; [exact H | congruence].
Qed.

Lemma searchTrack_caches (net : Network) (artist track cover : string) (w w' : World) :
  ITunes.searchTrack net artist track w = (Normal (Some cover), w') ->
  itunesCache w' !! ITunes.cacheKey artist track = Some cover.
Proof.
  destruct (itunesCache w !! ITunes.cacheKey artist track) as [c|] eqn:E.
  - rewrite (searchTrack_hit net _ _ _ _ E). intros [= <- <-]. exact E.
  - rewrite (searchTrack_miss net _ _ _ E).
    destruct (selectArtwork _ _ _); intros [= <- <-]. cbn. apply lookup_insert_eq.
Qed.

Lemma runOps_keeps (net : Network) (ops : list ITunes.Op) (key cover : string) (w : World) :
  forallb (fun op => negb (ITunes.isClear op)) ops = true ->
  itunesCache w !! key = Some cover ->
  itunesCache (ITunes.runOps net ops w) !! key = Some cover.
Proof.
  revert w; induction ops as [|op ops IH]; intros w Hops H; [exact H|].
  cbn [forallb] in Hops. apply andb_prop in Hops as [Hop Hops].
  unfold ITunes.runOps. cbn [foldl]. apply IH; [exact Hops|].
  destruct op; cbn [ITunes.runOp]; [now apply searchTrack_keeps | exact H | discriminate].
Qed.

(** ** FastItunesService.getAlbumCover and the hook's [loadCover] *)

Lemma getAlbumCover_hit (net : Network) (artist track cover : string) (w : World) :
  fastCache w !! FastItunes.cacheKey artist track = Some cover ->
  FastItunes.getAlbumCover net artist track w = (Normal (Some cover), w).
Proof. intros H. unfold FastItunes.getAlbumCover. now rewrite H. Qed.

Lemma getAlbumCover_miss (net : Network) (artist track : string) (w : World) :
  fastCache w !! FastItunes.cacheKey artist track = None ->
  let term := cleanSearchTerm artist +:+ " " +:+ cleanSearchTerm track in
  let found := selectFirstArtwork (net (length (requests w)) term) in
  FastItunes.getAlbumCover net artist track w =
  (Normal found, afterFastSearch artist track found (recordRequest term w)).
Proof.
  intros H. cbv zeta. unfold FastItunes.getAlbumCover. rewrite H.
  unfold tryCatch, bind, ret, throw, fetch, selectFirstArtwork, afterFastSearch, modify.
  destruct (net _ _) as [| | |[results|]]; cbv beta iota zeta; try reflexivity.
  destruct (0 <? length results)%nat; [|reflexivity].
  destruct (find _ results) as [t|]; reflexivity.
Qed.

Lemma getAlbumCover_normal (net : Network) (artist track : string) (w : World) :
  exists found w', FastItunes.getAlbumCover net artist track w = (Normal found, w').
Proof.
  destruct (fastCache w !! FastItunes.cacheKey artist track) as [c|] eqn:E.
  - exists (Some c), w. now apply getAlbumCover_hit.
  - eexists _, _. rewrite (getAlbumCover_miss net _ _ _ E). reflexivity.
Qed.

Lemma loadCover_skipped (net : Network) (cl : FastHook.Closure) (song : Song)
    (st : FastHook.State) :
  FastHook.skips cl (fst st) (FastHook.getCacheKey song) = true ->
  FastHook.loadCover net cl song st = (Normal tt, st).
Proof. intros H. unfold FastHook.loadCover. now rewrite H. Qed.

Lemma loadCover_run (net : Network) (cl : FastHook.Closure) (song : Song)
    (st : FastHook.State) :
  FastHook.skips cl (fst st) (FastHook.getCacheKey song) = false ->
  exists cover w',
    FastItunes.getAlbumCover net (AlbumData.artist song) (AlbumData.title song) (snd st)
      = (Normal cover, w') /\
    FastHook.loadCover net cl song st =
    (Normal tt,
     (FastHook.finish song (FastHook.onCover song cover (FastHook.begin song (fst st))), w')).
Proof.
  intros H. unfold FastHook.loadCover. rewrite H.
  destruct (getAlbumCover_normal net (AlbumData.artist song) (AlbumData.title song) (snd st))
    as (cover & w' & E).
  exists cover, w'. split; [exact E|].
  unfold tryFinally, tryCatch, bind, FastHook.liftWorld, FastHook.onHook, modify.
  cbn [fst snd]. rewrite E. reflexivity.
Qed.

(** ** AlbumCoverUpdater *)

(** ** useLazyAlbumCovers.loadAlbumCover *)

Lemma fallback_is_data_url (artist trackTitle : string) :
  startsWith (getFallbackArtwork artist trackTitle) "data:" = true /\
  truthy (getFallbackArtwork artist trackTitle) = true.
Proof.
  unfold getFallbackArtwork. generalize (btoa (svgDocument artist trackTitle)).
  intros t. split; reflexivity.
Qed.

Lemma neverThrows_ret {S A} (a : A) : neverThrows (ret a : Eff S A).
Proof. intros s. now exists a, s. Qed.

Lemma neverThrows_modify {S} (f : S -> S) : neverThrows (modify f).
Proof. intros s. now exists tt, (f s). Qed.

Lemma neverThrows_bind {S A B} (m : Eff S A) (k : A -> Eff S B) :
  neverThrows m -> (forall a, neverThrows (k a)) -> neverThrows (bind m k).
Proof.
  intros Hm Hk s. destruct (Hm s) as (a & s1 & E). unfold bind. rewrite E. apply Hk.
Qed.

Lemma neverThrows_tryCatch {S A} (body : Eff S A) (handler : Error -> Eff S A) :
  (forall e, neverThrows (handler e)) -> neverThrows (tryCatch body handler).
Proof.
  intros Hh s. unfold tryCatch. destruct (body s) as [[a|e] s1]; [now exists a, s1 | apply Hh].
Qed.

Lemma neverThrows_tryFinally {S A} (body : Eff S A) (finalizer : S -> S) :
  neverThrows body -> neverThrows (tryFinally body finalizer).
Proof.
  intros Hb s. destruct (Hb s) as (a & s1 & E). unfold tryFinally. rewrite E.
  now exists a, (finalizer s1).
Qed.

Lemma loadAlbumCover_normal (net : Network) (image : string -> LazyHook.ImageOutcome)
    (abort : LazyHook.Abort) (seen : LazyHook.LazyLoadState) (song : Song)
    (st : LazyHook.State) :
  exists st', LazyHook.loadAlbumCover net image abort seen song st = (Normal tt, st').
Proof.
  unfold LazyHook.loadAlbumCover.
  destruct (_ || _ || _); [eauto|].
  destruct (setHas _ _); [eauto|].
  match goal with |- exists st', ?m st = _ => assert (neverThrows m) as Hm end.
  { apply neverThrows_bind; [apply neverThrows_modify|]. intros _.
    apply neverThrows_bind; [apply neverThrows_modify|]. intros _.
    apply neverThrows_tryFinally, neverThrows_tryCatch. intros e.
    destruct (LazyHook.abortedInCatch abort);
      [apply neverThrows_ret | apply neverThrows_modify]. }
  destruct (Hm st) as ([] & st' & E). eauto.
Qed.

Lemma loadAlbumCover_settles (net : Network) (image : string -> LazyHook.ImageOutcome)
    (seen : LazyHook.LazyLoadState) (song : Song) (st : LazyHook.State)
    (found : option string) (w1 : World) :
  lazySkips seen st song = false ->
  ITunes.searchTrack net (AlbumData.artist song) (AlbumData.title song) (LazyHook.world st)
    = (Normal found, w1) ->
  LazyHook.loadAlbumCover net image LazyHook.NoAbort seen song st =
  (Normal tt,
   {| LazyHook.state := settledState image song found (LazyHook.state st);
      LazyHook.loadingQueue :=
        (LazyHook.loadingQueue st ∪ {[LazyHook.songKey song]}) ∖ {[LazyHook.songKey song]};
      LazyHook.world := w1 |}).
Proof.
  intros Hskip E. unfold lazySkips in Hskip.
  apply orb_false_elim in Hskip as [H1 H2].
  unfold LazyHook.loadAlbumCover. rewrite H1, H2.
  unfold LazyHook.setState, LazyHook.setQueue, LazyHook.liftWorld, bind, tryFinally,
    tryCatch, modify, throw, ret.
  cbv beta iota zeta.
  cbn [LazyHook.world LazyHook.state LazyHook.loadingQueue LazyHook.setQueue
       LazyHook.abortedAtStart LazyHook.abortedAfterSearch LazyHook.abortedInCatch].
  cbv beta iota zeta.
  cbn [LazyHook.world LazyHook.state LazyHook.loadingQueue LazyHook.setQueue].
  rewrite E. cbv beta iota zeta.
  unfold settledState, preloadFails, LazyHook.preload, throw, ret.
  cbn [LazyHook.world LazyHook.state LazyHook.loadingQueue LazyHook.setQueue].
  destruct (truthy _ && negb _); [destruct (image _)|]; reflexivity.
Qed.

Lemma orElse_truthy (found : option string) (d : string) :
  truthy d = true -> truthy (orElse found d) = true.
Proof.
  intros Hd. unfold orElse. destruct found as [c|]; [|exact Hd].
  destruct (truthy c) eqn:E; [exact E | exact Hd].
Qed.

Lemma orElse_falsy (found : option string) (d : string) :
  truthyOpt found = false -> orElse found d = d.
Proof.
  unfold truthyOpt, orElse. destruct found as [c|]; [|reflexivity].
  now intros ->.
Qed.

Lemma preloadFails_data (image : string -> LazyHook.ImageOutcome) (cover : string) :
  startsWith cover "data:" = true -> preloadFails image cover = false.
Proof.
  intros H. unfold preloadFails. rewrite H. cbn [negb]. now rewrite andb_false_r.
Qed.

Lemma ensures_ret {S A} (P : A -> Prop) (a : A) : P a -> ensures P (ret a : Eff S A).
Proof. intros H s. now exists a, s. Qed.

Lemma ensures_bind {S A B} (P : B -> Prop) (m : Eff S A) (k : A -> Eff S B) :
  neverThrows m -> (forall a, ensures P (k a)) -> ensures P (bind m k).
Proof.
  intros Hm Hk s. destruct (Hm s) as (a & s1 & E). unfold bind. rewrite E. apply Hk.
Qed.

Lemma ensures_tryCatch {S A} (P : A -> Prop) (body : Eff S A) (handler : Error -> Eff S A) :
  ensures P body -> ensures P (tryCatch body handler).
Proof.
  intros Hb s. destruct (Hb s) as (a & s1 & E & Ha). unfold tryCatch. rewrite E.
  now exists a, s1.
Qed.

Lemma searchiTunes_neverThrows (env : AudioDb.Searches) (songTitle artistName : string)
    (media : AudioDb.MediaType) :
  neverThrows (AudioDb.searchiTunes env songTitle artistName media).
Proof. intros log. unfold AudioDb.searchiTunes. eauto. Qed.

Lemma ensures_returnIfCover {S} (cover : option string) (rest : Eff S string) :
  ensures (fun c => truthy c = true) rest ->
  ensures (fun c => truthy c = true) (AudioDb.returnIfCover cover rest).
Proof.
  intros Hr. unfold AudioDb.returnIfCover. destruct cover as [c|]; [|exact Hr].
  destruct (truthy c) eqn:E; [now apply ensures_ret | exact Hr].
Qed.

Lemma fetchAlbumCoverFromiTunes_normal (env : AudioDb.Searches)
    (songTitle artistName : string) (log : list AudioDb.Query) :
  exists cover log',
    AudioDb.fetchAlbumCoverFromiTunes env songTitle artistName log = (Normal cover, log') /\
    truthy cover = true.
Proof.
  revert log. change (ensures (fun c => truthy c = true)
    (AudioDb.fetchAlbumCoverFromiTunes env songTitle artistName)).
  assert (Hp : forall S, ensures (fun c => truthy c = true)
                 (ret AudioDb.getPlaceholderImage : Eff S string)).
  { intros S. now apply ensures_ret. }
  unfold AudioDb.fetchAlbumCoverFromiTunes. apply ensures_tryCatch.
  apply ensures_bind; [apply searchiTunes_neverThrows|]. intros c1.
  apply ensures_returnIfCover.
  apply ensures_bind; [apply searchiTunes_neverThrows|]. intros c2.
  apply ensures_returnIfCover.
  apply ensures_bind; [apply searchiTunes_neverThrows|]. intros c3.
  apply ensures_returnIfCover. cbv zeta.
  destruct (negb _); [|apply Hp].
  apply ensures_bind; [apply searchiTunes_neverThrows|]. intros c4.
  apply ensures_returnIfCover, Hp.
Qed.

(** ** Progress *)

Lemma percentage_zero (count : nat) : percentage count 0 = 0%Q.
Proof. reflexivity. Qed.

Lemma percentage_pos (count t : nat) :
  percentage count (S t) = (Z.of_nat count * 100 # Pos.of_succ_nat t)%Q.
Proof.
  unfold percentage. cbn [Nat.ltb Nat.leb].
  unfold Qdiv, Qmult, Qinv, inject_Z.
  change (Z.of_nat (S t)) with (Z.pos (Pos.of_succ_nat t)).
  cbn [Qnum Qden Pos.mul]. rewrite Pos.mul_1_r. f_equal. lia.
Qed.

Lemma percentage_bounds (count total : nat) :
  (count <= total)%nat -> (0 <= percentage count total /\ percentage count total <= 100)%Q.
Proof.
  intros H. destruct total as [|t].
  - rewrite percentage_zero. split; unfold Qle; simpl; lia.
  - rewrite percentage_pos. unfold Qle. cbn [Qnum Qden].
    rewrite Zpos_P_of_succ_nat. split; nia.
Qed.

Lemma percentage_mono (c1 c2 total : nat) :
  (c1 <= c2)%nat -> (percentage c1 total <= percentage c2 total)%Q.
Proof.
  intros H. destruct total as [|t].
  - rewrite !percentage_zero. unfold Qle; simpl; lia.
  - rewrite !percentage_pos. unfold Qle. cbn [Qnum Qden].
    rewrite Zpos_P_of_succ_nat. nia.
Qed.

Lemma percentage_full (total : nat) :
  (0 < total)%nat -> (percentage total total == 100)%Q.
Proof.
  intros H. destruct total as [|t]; [lia|].
  rewrite percentage_pos. unfold Qeq. cbn [Qnum Qden].
  rewrite Zpos_P_of_succ_nat. nia.
Qed.

Lemma songKeys_size (songs : list Song) : (size (songKeys songs) <= length songs)%nat.
Proof.
  unfold songKeys. induction songs as [|s songs IH]; cbn [map list_to_set length].
  - rewrite size_empty. lia.
  - rewrite size_union_alt, size_singleton.
    assert (size (list_to_set (map FastHook.getCacheKey songs) ∖ {[FastHook.getCacheKey s]}
                  : gset string) <= size (list_to_set (map FastHook.getCacheKey songs) : gset string))%nat.
    { apply subseteq_size. set_solver. }
    lia.
Qed.

Lemma songKeys_size_NoDup (songs : list Song) :
  NoDup (map FastHook.getCacheKey songs) -> size (songKeys songs) = length songs.
Proof.
  intros H. unfold songKeys. rewrite size_list_to_set by assumption. apply length_map.
Qed.

Lemma fast_step_attempted (songs : list Song) (h h' : FastHook.Hook) :
  FastHook.step songs h h' ->
  FastHook.attemptedLoads h ⊆ FastHook.attemptedLoads h' /\
  FastHook.attemptedLoads h' ⊆ FastHook.attemptedLoads h ∪ songKeys songs.
Proof.
  intros [cl song h0 Hin Hs | song cover h0 Hin Hq].
  - cbn. set_solver.
  - assert (FastHook.getCacheKey song ∈ songKeys songs).
    { unfold songKeys. apply elem_of_list_to_set, list_elem_of_fmap. eauto. }
    unfold FastHook.onCover. destruct cover as [c|]; [destruct (truthy c)|]; cbn; set_solver.
Qed.

Lemma fast_reachable_attempted (songs : list Song) (h : FastHook.Hook) :
  FastHook.reachable songs h -> FastHook.attemptedLoads h ⊆ songKeys songs.
Proof.
  induction 1 as [|h h' Hr IH Hs]; [cbn; set_solver|].
  apply fast_step_attempted in Hs. set_solver.
Qed.

(** *** useProgressiveAlbumCovers *)

Lemma songIds_size (songs : list Song) : (size (songIds songs) <= length songs)%nat.
Proof.
  unfold songIds. induction songs as [|s songs IH]; cbn [map list_to_set length].
  - rewrite size_empty. lia.
  - rewrite size_union_alt, size_singleton.
    assert (size (list_to_set (map AlbumData.id songs) ∖ {[AlbumData.id s]} : gset string)
            <= size (list_to_set (map AlbumData.id songs) : gset string))%nat.
    { apply subseteq_size. set_solver. }
    lia.
Qed.

Lemma progressive_invariant (placeholder : string) (songs : list Song)
    (h : ProgressiveHook.Hook) :
  progressiveReachable placeholder songs h ->
  ProgressiveHook.loadedCount h = size (ProgressiveHook.loadedIdsRef h) /\
  ProgressiveHook.loadedIdsRef h ⊆ songIds songs /\
  ProgressiveHook.loadedIdsRef h ## ProgressiveHook.loadingQueueRef h.
Proof.
  induction 1 as [|h h' Hr (Hc & Hsub & Hdis) Hs].
  - cbn. rewrite size_empty. set_solver.
  - destruct Hs as [song h0 Hin Hs | song cover h0 Hin Hq].
    + cbn. unfold ProgressiveHook.skips, setHas in Hs.
      apply orb_false_elim in Hs as [H1 H2].
      apply bool_decide_eq_false in H1, H2.
      split; [exact Hc|]. split; [exact Hsub|]. set_solver.
    + cbn. assert (AlbumData.id song ∈ songIds songs).
      { unfold songIds. apply elem_of_list_to_set, list_elem_of_fmap. eauto. }
      assert (AlbumData.id song ∉ ProgressiveHook.loadedIdsRef h0) by set_solver.
      split; [|split; set_solver].
      rewrite size_union by set_solver. rewrite size_singleton. lia.
Qed.

(** C9, as the code has it.  Over a fixed song list the progress of
    useFastAlbumCovers is a percentage between 0 and 100, it never decreases
    from one step of the hook to the next, and an attempted key counts
    whether or not a cover came back.  It is exactly 100 once every song is
    attempted provided the list is not empty and no two songs share a cache
    key; for the empty list it is 0.  The count of
    useProgressiveAlbumCovers (one per loaded song id, placeholder or not)
    keeps its progress between 0 and 100 and never decreases either. *)
Theorem progress_bounded_and_monotone (songs : list Song) :
  (forall h, FastHook.reachable songs h ->
     (0 <= FastHook.loadingProgress songs h /\ FastHook.loadingProgress songs h <= 100)%Q) /\
  (forall h h', FastHook.step songs h h' ->
     (FastHook.loadingProgress songs h <= FastHook.loadingProgress songs h')%Q) /\
  (forall h, FastHook.reachable songs h -> songs <> [] ->
     NoDup (map FastHook.getCacheKey songs) -> FastHook.allSettled songs h ->
     (FastHook.loadingProgress songs h == 100)%Q) /\
  (forall h, FastHook.loadingProgress [] h = 0%Q) /\
  (forall placeholder h, progressiveReachable placeholder songs h ->
     (0 <= ProgressiveHook.loadingProgress songs h /\
      ProgressiveHook.loadingProgress songs h <= 100)%Q) /\
  (forall h h', ProgressiveHook.step songs h h' ->
     (ProgressiveHook.loadingProgress songs h <= ProgressiveHook.loadingProgress songs h')%Q).
Proof.
  split; [|split; [|split; [|split; [|split]]]].
  - intros h Hr. apply percentage_bounds.
    etransitivity; [|apply songKeys_size].
    apply subseteq_size. now apply fast_reachable_attempted.
  - intros h h' Hs. apply percentage_mono.
    apply subseteq_size. now apply fast_step_attempted in Hs.
  - intros h Hr Hne Hnd Hall. unfold FastHook.loadingProgress.
    assert (FastHook.attemptedLoads h = songKeys songs) as ->.
    { apply set_eq. intros k. split.
      - intros Hk. now apply (fast_reachable_attempted songs h Hr).
      - unfold songKeys. rewrite elem_of_list_to_set, list_elem_of_fmap.
        intros (s & -> & Hs). now apply Hall. }
    rewrite songKeys_size_NoDup by assumption.
    apply percentage_full. destruct songs; [congruence | simpl; lia].
  - intros h. reflexivity.
  - intros placeholder h Hr. apply percentage_bounds.
    destruct (progressive_invariant placeholder songs h Hr) as (-> & Hsub & _).
    etransitivity; [|apply songIds_size]. now apply subseteq_size.
  - intros h h' [song h0 Hin Hs | song cover h0 Hin Hq]; apply percentage_mono; cbn; lia.
Qed.

Lemma firstAttempted_reachable : FastHook.reachable twoVersions firstAttempted.
Proof.
  unfold firstAttempted. eapply FastHook.reach_step.
  - eapply FastHook.reach_step; [apply FastHook.reach_initial|].
    apply (FastHook.step_begin twoVersions (FastHook.closureOf FastHook.initial) sampleSong).
    + unfold twoVersions. constructor.
    + reflexivity.
  - apply (FastHook.step_settle twoVersions sampleSong None).
    + unfold twoVersions. constructor.
    + cbn. set_solver.
Qed.

Lemma progress_bounded_and_monotone_witness :
  (FastHook.loadingProgress [sampleSong] firstAttempted == 100)%Q.
Proof.
  apply (proj1 (proj2 (proj2 (progress_bounded_and_monotone [sampleSong])))).
  - unfold firstAttempted. eapply FastHook.reach_step.
    + eapply FastHook.reach_step; [apply FastHook.reach_initial|].
      apply (FastHook.step_begin [sampleSong] (FastHook.closureOf FastHook.initial) sampleSong).
      * constructor.
      * reflexivity.
    + apply (FastHook.step_settle [sampleSong] sampleSong None); [constructor | cbn; set_solver].
  - discriminate.
  - cbn. apply NoDup_singleton.
  - intros s Hs. apply list_elem_of_singleton in Hs as ->. cbn. set_solver.
Defined.

(** The claim of C9 fails at both edges: for the empty list every item has
    settled and the progress is 0; and when two songs share a cache key the
    progress stays at 50 although every song is attempted. *)
Lemma progress_short_of_100 :
  FastHook.allSettled [] FastHook.initial /\
  FastHook.loadingProgress [] FastHook.initial = 0%Q /\
  FastHook.reachable twoVersions firstAttempted /\
  FastHook.allSettled twoVersions firstAttempted /\
  (FastHook.loadingProgress twoVersions firstAttempted == 50)%Q.
Proof.
  split; [intros s Hs; inversion Hs|]. split; [reflexivity|].
  split; [apply firstAttempted_reachable|]. split.
  - intros s Hs. unfold twoVersions in Hs.
    apply elem_of_cons in Hs as [->|Hs]; [cbn; set_solver|].
    apply list_elem_of_singleton in Hs as ->. cbn.
    change (FastHook.getCacheKey _) with "taylor swift-anti-hero". set_solver.
  - unfold FastHook.loadingProgress, firstAttempted. cbn.
    assert (size (∅ ∪ {[FastHook.getCacheKey sampleSong]} : gset string) = 1%nat) as ->.
    { rewrite union_empty_l_L. apply size_singleton. }
    reflexivity.
Qed.

(** ** cleanSearchTerm *)

Lemma chars_append (a b : string) : chars (a +:+ b) = chars a ++ chars b.
Proof.
  induction a as [|c a IH]; [reflexivity|].
  change (String c a +:+ b) with (String c (a +:+ b)). cbn. now rewrite <- IH.
Qed.

Lemma chars_inj (a b : string) : chars a = chars b -> a = b.
Proof.
  intros H. rewrite <- (string_of_list_ascii_of_string a), <- (string_of_list_ascii_of_string b).
  now rewrite H.
Qed.

Lemma chars_rev_string (acc s : string) :
  chars (rev_string acc s) = rev (chars s) ++ chars acc.
Proof.
  revert acc; induction s as [|c s IH]; intros acc; [reflexivity|].
  cbn [rev_string]. rewrite IH. cbn. now rewrite <- app_assoc.
Qed.

Lemma chars_drop_spaces (s : string) : chars (drop_spaces s) = dropSpacesL (chars s).
Proof.
  induction s as [|c s IH]; [reflexivity|].
  cbn. destruct (is_space c); [exact IH | reflexivity].
Qed.

Lemma chars_trim (s : string) :
  chars (trim s) = rev (dropSpacesL (rev (dropSpacesL (chars s)))).
Proof.
  unfold trim. rewrite chars_rev_string, chars_drop_spaces, chars_rev_string,
    chars_drop_spaces. cbn. now rewrite !app_nil_r.
Qed.

Lemma cleanChar_facts (c : ascii) :
  (is_word (toLowerChar c) = true -> cleanChar (toLowerChar c) = true) /\
  (cleanChar c = true -> is_space c = false /\ is_word c = true /\ toLowerChar c = c).
Proof. destruct c as [[] [] [] [] [] [] [] []]; vm_compute; intuition congruence. Qed.

Lemma space_facts : is_space " "%char = true /\ toLowerChar " "%char = " "%char.
Proof. split; reflexivity. Qed.

Lemma termChar_space (c : ascii) : termChar c -> is_space c = true -> c = " "%char.
Proof.
  intros [Hc| ->] Hs; [|reflexivity].
  apply cleanChar_facts in Hc as (Hn & _). congruence.
Qed.

Lemma singleSpaced_tail (c : ascii) (l : list ascii) : singleSpaced (c :: l) -> singleSpaced l.
Proof. intros H a b ->. apply (H (c :: a) b). reflexivity. Qed.

Lemma singleSpaced_cons (c : ascii) (l : list ascii) :
  singleSpaced l -> (c = " "%char -> head l <> Some " "%char) -> singleSpaced (c :: l).
Proof.
  intros Hl Hc a b Heq. destruct a as [|x a].
  - cbn in Heq. injection Heq as -> ->. now apply Hc.
  - cbn in Heq. injection Heq as _ ->. now apply (Hl a b).
Qed.

Lemma singleSpaced_rev (l : list ascii) : singleSpaced l -> singleSpaced (rev l).
Proof.
  intros H a b Heq. apply (H (rev b) (rev a)).
  rewrite <- (rev_involutive l), Heq, rev_app_distr. cbn.
  now rewrite <- !app_assoc.
Qed.

Lemma dropSpacesL_suffix (l : list ascii) : exists pre, l = pre ++ dropSpacesL l.
Proof.
  induction l as [|c l [pre IH]]; [now exists []|].
  cbn. destruct (is_space c); [|now exists []].
  exists (c :: pre). cbn. now rewrite <- IH.
Qed.

Lemma singleSpaced_dropSpaces (l : list ascii) : singleSpaced l -> singleSpaced (dropSpacesL l).
Proof.
  intros H a b Heq. destruct (dropSpacesL_suffix l) as [pre Hpre].
  apply (H (pre ++ a) b). rewrite Hpre at 1. rewrite Heq. now rewrite <- app_assoc.
Qed.

Lemma Forall_dropSpaces (P : ascii -> Prop) (l : list ascii) :
  Forall P l -> Forall P (dropSpacesL l).
Proof.
  intros H. destruct (dropSpacesL_suffix l) as [pre Hpre]. rewrite Hpre in H.
  now apply Forall_app in H.
Qed.

Lemma dropSpacesL_head (l : list ascii) : head (dropSpacesL l) <> Some " "%char.
Proof.
  induction l as [|c l IH]; [discriminate|].
  cbn. destruct (is_space c) eqn:E; [exact IH|].
  cbn. intros [= ->]. discriminate.
Qed.

Lemma dropSpacesL_id (l : list ascii) :
  Forall termChar l -> head l <> Some " "%char -> dropSpacesL l = l.
Proof.
  destruct l as [|c l]; [reflexivity|]. intros Hall Hh. cbn.
  destruct (is_space c) eqn:E; [|reflexivity].
  apply Forall_cons in Hall as [Hc _]. rewrite (termChar_space c Hc E) in Hh.
  now contradiction Hh.
Qed.

Lemma head_rev (l : list ascii) : head (rev l) = last l.
Proof.
  induction l as [|c l IH] using rev_ind; [reflexivity|].
  rewrite rev_app_distr, last_snoc. reflexivity.
Qed.

Lemma last_rev (l : list ascii) : last (rev l) = head l.
Proof. rewrite <- head_rev. now rewrite rev_involutive. Qed.

Lemma dropSpacesL_last (l : list ascii) :
  last l <> Some " "%char -> last (dropSpacesL l) <> Some " "%char.
Proof.
  induction l as [|c l IH]; [intros _; discriminate|].
  cbn [dropSpacesL]. destruct (is_space c) eqn:E; [|auto].
  intros Hl. destruct l as [|d l].
  - cbn. discriminate.
  - apply IH. exact Hl.
Qed.

(** The pipeline of [cleanSearchTerm], stage by stage. *)
Lemma chars_toLowerCase (s : string) : chars (toLowerCase s) = map toLowerChar (chars s).
Proof. induction s as [|c s IH]; [reflexivity|]. cbn. now rewrite <- IH. Qed.

Lemma remove_special_chars (s : string) :
  Forall (fun c => cleanChar c = true \/ is_space c = true)
         (chars (remove_special (toLowerCase s))).
Proof.
  induction s as [|c s IH]; [constructor|].
  cbn [toLowerCase remove_special].
  destruct (is_word (toLowerChar c)) eqn:Ew; cbn [orb].
  - constructor; [|exact IH]. left. now apply cleanChar_facts.
  - destruct (is_space (toLowerChar c)) eqn:Es; [|exact IH].
    constructor; [now right | exact IH].
Qed.

Lemma collapse_chars (s : string) (b : bool) :
  Forall (fun c => cleanChar c = true \/ is_space c = true) (chars s) ->
  Forall termChar (chars (collapse_from b s)) /\
  singleSpaced (chars (collapse_from b s)) /\
  (b = true -> head (chars (collapse_from b s)) <> Some " "%char).
Proof.
  revert b; induction s as [|c s IH]; intros b Hall.
  - cbn. split; [constructor|]. split; [|discriminate].
    intros a b' H. destruct a; discriminate.
  - apply Forall_cons in Hall as [Hc Hall]. cbn [collapse_from].
    destruct (is_space c) eqn:Es.
    + destruct (IH true Hall) as (H1 & H2 & H3). destruct b.
      * split; [exact H1|]. split; [exact H2|]. intros _. now apply H3.
      * split; [constructor; [now right | exact H1]|]. split; [|discriminate].
        apply singleSpaced_cons; [exact H2|]. intros _. now apply H3.
    + destruct (IH false Hall) as (H1 & H2 & _).
      destruct Hc as [Hc|Hc]; [|congruence].
      split; [constructor; [now left | exact H1]|]. split.
      * apply singleSpaced_cons; [exact H2|]. intros ->. discriminate.
      * intros _. cbn. intros [= ->]. discriminate.
Qed.

Lemma cleanSearchTerm_chars (term : string) :
  Forall termChar (chars (cleanSearchTerm term)) /\
  singleSpaced (chars (cleanSearchTerm term)) /\
  trimmed (chars (cleanSearchTerm term)).
Proof.
  unfold cleanSearchTerm, normalize_spaces.
  destruct (collapse_chars _ false (remove_special_chars term)) as (H1 & H2 & _).
  set (u := collapse_from false (remove_special (toLowerCase term))) in *.
  rewrite chars_trim. split; [|split; [|split]].
  - apply Forall_rev, Forall_dropSpaces, Forall_rev, Forall_dropSpaces, H1.
  - apply singleSpaced_rev, singleSpaced_dropSpaces, singleSpaced_rev,
      singleSpaced_dropSpaces, H2.
  - rewrite head_rev. apply dropSpacesL_last. rewrite last_rev. apply dropSpacesL_head.
  - rewrite last_rev. apply dropSpacesL_head.
Qed.

Lemma toLowerCase_id (s : string) : Forall termChar (chars s) -> toLowerCase s = s.
Proof.
  induction s as [|c s IH]; [reflexivity|]. intros H.
  apply Forall_cons in H as [Hc H]. cbn. rewrite (IH H). f_equal.
  destruct Hc as [Hc| ->]; [now apply cleanChar_facts | reflexivity].
Qed.

Lemma remove_special_id (s : string) : Forall termChar (chars s) -> remove_special s = s.
Proof.
  induction s as [|c s IH]; [reflexivity|]. intros H.
  apply Forall_cons in H as [Hc H]. cbn. rewrite (IH H).
  destruct Hc as [Hc| ->]; [|reflexivity].
  apply cleanChar_facts in Hc as (_ & -> & _). reflexivity.
Qed.

Lemma collapse_id (s : string) (b : bool) :
  Forall termChar (chars s) -> singleSpaced (chars s) ->
  (b = true -> head (chars s) <> Some " "%char) ->
  collapse_from b s = s.
Proof.
  revert b; induction s as [|c s IH]; intros b Hall Hs Hb; [reflexivity|].
  apply Forall_cons in Hall as [Hc Hall]. cbn [collapse_from].
  pose proof (singleSpaced_tail _ _ Hs) as Hs'.
  destruct (is_space c) eqn:Es.
  - pose proof (termChar_space c Hc Es) as ->.
    destruct b; [exfalso; now apply Hb|].
    rewrite IH; try assumption; [reflexivity|].
    intros _ Hh. destruct s as [|d s]; [discriminate|]. cbn in Hh. injection Hh as ->.
    now apply (Hs [] (chars s)).
  - rewrite IH; try assumption; [reflexivity | discriminate].
Qed.

Lemma trim_id (s : string) :
  Forall termChar (chars s) -> trimmed (chars s) -> trim s = s.
Proof.
  intros Hall [Hh Hl]. apply chars_inj. rewrite chars_trim.
  rewrite (dropSpacesL_id (chars s)) by assumption.
  rewrite dropSpacesL_id; [apply rev_involutive | now apply Forall_rev |].
  now rewrite head_rev.
Qed.

(** X1: the result of [cleanSearchTerm] consists of lower-case ASCII letters,
    digits, underscores and spaces only; it has no two spaces in a row and
    neither starts nor ends with a space. *)
Theorem cleanSearchTerm_normal_form (term : string) :
  let t := chars (cleanSearchTerm term) in
  Forall (fun c => cleanChar c = true \/ c = " "%char) t /\
  (forall a b, t <> a ++ " "%char :: " "%char :: b) /\
  head t <> Some " "%char /\ last t <> Some " "%char.
Proof. exact (cleanSearchTerm_chars term). Qed.

(** X2: [cleanSearchTerm] is idempotent: a term that was cleaned once is not
    changed by cleaning it again (so the cleaned request terms that
    [searchTrack] hands to [findBestMatch] compare like the cleaned candidate
    names). *)
Theorem cleanSearchTerm_idempotent (term : string) :
  cleanSearchTerm (cleanSearchTerm term) = cleanSearchTerm term.
Proof.
  destruct (cleanSearchTerm_chars term) as (Hall & Hs & Ht).
  set (t := cleanSearchTerm term) in *.
  unfold cleanSearchTerm at 1, normalize_spaces.
  rewrite (toLowerCase_id t Hall), (remove_special_id t Hall).
  rewrite (collapse_id t false Hall Hs) by discriminate.
  now apply trim_id.
Qed.

(** ** More on findBestMatch *)

Lemma sort_head_first (l : list (iTunesTrack * Z)) (m : iTunesTrack * Z) :
  head (sort byScoreDesc l) = Some m ->
  exists pre post, l = pre ++ m :: post /\
    (forall x, x ∈ pre -> (snd x < snd m)%Z) /\
    (forall x, x ∈ post -> (snd x <= snd m)%Z).
Proof.
  revert m; induction l as [|x l IH]; intros m; [discriminate|].
  change (sort byScoreDesc (x :: l)) with (insert_sorted byScoreDesc x (sort byScoreDesc l)).
  rewrite insert_sorted_head.
  pose proof (sort_head_max l) as Hmax.
  destruct (head (sort byScoreDesc l)) as [y|].
  - destruct (IH y eq_refl) as (pre & post & -> & Hpre & Hpost).
    destruct (snd y <=? snd x)%Z eqn:E; intros [= <-].
    + exists [], (pre ++ y :: post). split; [reflexivity|]. split.
      * intros z Hz. inversion Hz.
      * intros z Hz. destruct Hmax as [_ Hmax]. specialize (Hmax z Hz). lia.
    + exists (x :: pre), post. split; [reflexivity|]. split.
      * intros z Hz. apply elem_of_cons in Hz as [->|Hz]; [lia | now apply Hpre].
      * exact Hpost.
  - subst l. intros [= <-]. exists [], []. split; [reflexivity|].
    split; intros z Hz; inversion Hz.
Qed.

(** X3: when several candidates share the highest score, [findBestMatch]
    returns the one that comes first in the response: every candidate before
    the selected one scores strictly less, every candidate after it scores at
    most as much. *)
Theorem findBestMatch_first_of_best (results : list iTunesTrack) (artist track : string)
    (best : iTunesTrack) :
  findBestMatch results artist track = Some best ->
  exists pre post, results = pre ++ best :: post /\
    (forall r, r ∈ pre -> (score artist track r < score artist track best)%Z) /\
    (forall r, r ∈ post -> (score artist track r <= score artist track best)%Z).
Proof.
  unfold findBestMatch. destruct results as [|r0 rs]; [discriminate|].
  set (results := r0 :: rs).
  destruct (head (sort byScoreDesc (scored artist track results))) as [[b sb]|] eqn:E;
    [|discriminate].
  cbn [fst snd]. destruct (5 <? sb)%Z; [|discriminate]. intros [= ->].
  destruct (sort_head_first _ _ E) as (pre' & post' & Heq & Hpre & Hpost).
  unfold scored in Heq. change (map ?f ?l) with (f <$> l) in Heq.
  apply fmap_app_inv in Heq as (pre & rest & -> & Hrest & ->).
  symmetry in Hrest. apply fmap_cons_inv in Hrest as (b' & post & [= <- <-] & -> & ->).
  exists pre, post. split; [reflexivity|]. split.
  - intros r Hr. apply (Hpre (r, score artist track r)).
    apply list_elem_of_fmap. now exists r.
  - intros r Hr. apply (Hpost (r, score artist track r)).
    apply list_elem_of_fmap. now exists r.
Qed.

Lemma findBestMatch_first_of_best_witness :
  exists pre post, [unrelated; antiHero; antiHeroLive] = pre ++ antiHero :: post /\
    (forall r, r ∈ pre ->
       (score "taylor swift" "antihero" r < score "taylor swift" "antihero" antiHero)%Z) /\
    (forall r, r ∈ post ->
       (score "taylor swift" "antihero" r <= score "taylor swift" "antihero" antiHero)%Z).
Proof.
  apply (findBestMatch_first_of_best [unrelated; antiHero; antiHeroLive]
           "taylor swift" "antihero" antiHero).
  reflexivity.
Defined.

Lemma score_bounds (artist track : string) (r : iTunesTrack) :
  (0 <= score artist track r <= 58)%Z /\
  (artistSimilarity (cleanSearchTerm (artistName r)) artist = 0%Z ->
   score artist track r <= 28)%Z.
Proof.
  unfold score, artistSimilarity, artistExact, trackSimilarity, trackExact, artworkBonus.
  set (ra := cleanSearchTerm (artistName r)). set (rt := cleanSearchTerm (trackName r)).
  destruct (String.eqb ra artist) eqn:Ea.
  - apply String.eqb_eq in Ea. rewrite Ea, includes_refl. cbn [orb].
    destruct (includes rt track || includes track rt), (String.eqb rt track),
      (truthy (artworkUrl100 r)); split; try lia; discriminate.
  - destruct (includes ra artist || includes artist ra),
      (includes rt track || includes track rt), (String.eqb rt track),
      (truthy (artworkUrl100 r)); split; try lia; try discriminate; intros _; lia.
Qed.

(** X4: the artist weighs more than the track.  Every score lies between 0
    and 58, and a candidate whose artist matches neither exactly nor by
    substring scores at most 28.  So when some candidate's normalized artist
    equals the requested artist, a match is returned, it scores at least 30,
    and its artist matches the request (at least by substring). *)
Theorem exact_artist_wins (results : list iTunesTrack) (artist track : string)
    (r : iTunesTrack) :
  r ∈ results -> cleanSearchTerm (artistName r) = artist ->
  exists best,
    findBestMatch results artist track = Some best /\
    (30 <= score artist track best <= 58)%Z /\
    artistSimilarity (cleanSearchTerm (artistName best)) artist = 10%Z.
Proof.
  intros Hin Heq.
  assert (Hr : (30 <= score artist track r)%Z).
  { rewrite score_parts.
    assert (artistPoints r artist = 30%Z) as ->.
    { unfold artistPoints, artistSimilarity, artistExact.
      now rewrite Heq, includes_refl, String.eqb_refl. }
    unfold trackPoints, trackSimilarity, trackExact, artworkBonus.
    repeat match goal with |- context [if ?b then _ else _] => destruct b end; lia. }
  pose proof (findBestMatch_spec results artist track) as H.
  destruct (findBestMatch results artist track) as [best|].
  - destruct H as (_ & _ & Hmax). specialize (Hmax r Hin).
    exists best. split; [reflexivity|].
    pose proof (score_bounds artist track best) as [Hb Hno].
    split; [lia|].
    unfold artistSimilarity in *.
    destruct (includes _ artist || includes artist _); [reflexivity|].
    specialize (Hno eq_refl). lia.
  - specialize (H r Hin). lia.
Qed.

Lemma exact_artist_wins_witness :
  exists best,
    findBestMatch [unrelated; antiHero] "taylor swift" "shake it off" = Some best /\
    (30 <= score "taylor swift" "shake it off" best <= 58)%Z /\
    artistSimilarity (cleanSearchTerm (artistName best)) "taylor swift" = 10%Z.
Proof.
  apply (exact_artist_wins [unrelated; antiHero] "taylor swift" "shake it off" antiHero).
  - right. left.
  - reflexivity.
Defined.

(** ** More on iTunesAPIService *)

Lemma append_assoc (a b c : string) : (a +:+ b) +:+ c = a +:+ (b +:+ c).
Proof.
  induction a as [|x a IH]; [reflexivity|].
  change (String x a +:+ b) with (String x (a +:+ b)).
  change (String x (a +:+ b) +:+ c) with (String x ((a +:+ b) +:+ c)).
  change (String x a +:+ (b +:+ c)) with (String x (a +:+ (b +:+ c))).
  now rewrite IH.
Qed.

Lemma toLowerCase_append (a b : string) :
  toLowerCase (a +:+ b) = toLowerCase a +:+ toLowerCase b.
Proof.
  induction a as [|x a IH]; [reflexivity|].
  change (String x a +:+ b) with (String x (a +:+ b)). cbn [toLowerCase].
  change (String (toLowerChar x) (toLowerCase a) +:+ toLowerCase b)
    with (String (toLowerChar x) (toLowerCase a +:+ toLowerCase b)).
  now rewrite IH.
Qed.

(** X5: the cache key ignores case: once a search has returned a cover, a
    search for an artist and track that differ from the first only in case
    returns that cover from the cache, leaving the world (and the request
    log) unchanged. *)
Theorem searchTrack_ignores_case (net : Network) (artist track artist' track' cover : string)
    (w w1 : World) :
  toLowerCase artist' = toLowerCase artist -> toLowerCase track' = toLowerCase track ->
  ITunes.searchTrack net artist track w = (Normal (Some cover), w1) ->
  ITunes.searchTrack net artist' track' w1 = (Normal (Some cover), w1).
Proof.
  intros Ha Ht Hs. apply searchTrack_hit.
  unfold ITunes.cacheKey. rewrite Ha, Ht.
  exact (searchTrack_caches net artist track cover w w1 Hs).
Qed.

Lemma searchTrack_ignores_case_witness :
  let w1 := snd (ITunes.searchTrack (answering [antiHero]) "Taylor Swift" "Anti-Hero" emptyWorld) in
  ITunes.searchTrack (answering [antiHero]) "TAYLOR SWIFT" "anti-hero" w1 =
  (Normal (Some "https://is1-ssl.mzstatic.com/image/thumb/Music/a/600x600bb.jpg"), w1).
Proof.
  cbv zeta.
  apply (searchTrack_ignores_case (answering [antiHero]) "Taylor Swift" "Anti-Hero"
           "TAYLOR SWIFT" "anti-hero" _ emptyWorld).
  - reflexivity.
  - reflexivity.
  - vm_compute. reflexivity.
Defined.

(** X6: the cache key joins artist and track with a hyphen and nothing
    else, so a hyphen on either side is ambiguous: artist [x-y] with track [z]
    and artist [x] with track [y-z] have the same key, and after a successful
    search for the first pair a search for the second returns the first
    pair's cover from the cache. *)
Theorem cacheKey_hyphen_collision (net : Network) (x y z cover : string) (w w1 : World) :
  ITunes.cacheKey (x +:+ "-" +:+ y) z = ITunes.cacheKey x (y +:+ "-" +:+ z) /\
  (ITunes.searchTrack net (x +:+ "-" +:+ y) z w = (Normal (Some cover), w1) ->
   ITunes.searchTrack net x (y +:+ "-" +:+ z) w1 = (Normal (Some cover), w1)).
Proof.
  assert (Hk : ITunes.cacheKey (x +:+ "-" +:+ y) z = ITunes.cacheKey x (y +:+ "-" +:+ z)).
  { unfold ITunes.cacheKey. rewrite !toLowerCase_append.
    change (toLowerCase "-") with "-". now rewrite !append_assoc. }
  split; [exact Hk|]. intros Hs. apply searchTrack_hit. rewrite <- Hk.
  exact (searchTrack_caches net _ _ cover w w1 Hs).
Qed.

Lemma cacheKey_hyphen_collision_witness :
  let w1 := snd (ITunes.searchTrack (answering [hyphenated]) "Jay-Z" "Encore" emptyWorld) in
  ITunes.searchTrack (answering [hyphenated]) "Jay" "Z-Encore" w1 =
  (Normal (Some "https://is1-ssl.mzstatic.com/image/thumb/Music/d/600x600bb.jpg"), w1).
Proof.
  cbv zeta.
  apply (proj2 (cacheKey_hyphen_collision (answering [hyphenated]) "Jay" "Z" "Encore" _
                  emptyWorld _)).
  vm_compute. reflexivity.
Defined.

Lemma searchTrack_requests (net : Network) (artist track : string) (w : World) :
  requests (snd (ITunes.searchTrack net artist track w)) =
  requests w ++
  match itunesCache w !! ITunes.cacheKey artist track with
  | Some _ => []
  | None => [ITunes.searchTerm artist track]
  end.
Proof.
  destruct (itunesCache w !! ITunes.cacheKey artist track) as [c|] eqn:E.
  - rewrite (searchTrack_hit net _ _ _ _ E). cbn. now rewrite app_nil_r.
  - rewrite (searchTrack_miss net _ _ _ E). cbn [snd].
    destruct (selectArtwork _ _ _); reflexivity.
Qed.

(** X7: request accounting.  A [searchTrack] issues no request on a cache
    hit and exactly one, for the cleaned artist and track, on a miss; over any
    history of calls the request log only grows at its end, by at most one
    entry per [searchTrack] call ([getFallbackArtwork] and [clearCache] issue
    none). *)
Theorem requests_only_from_searches (net : Network) (ops : list ITunes.Op) (w : World) :
  exists new,
    requests (ITunes.runOps net ops w) = requests w ++ new /\
    length new <= length (filter (fun op => isSearch op = true) ops).
Proof.
  revert w; induction ops as [|op ops IH]; intros w.
  - exists []. cbn. now rewrite app_nil_r.
  - unfold ITunes.runOps. cbn [foldl].
    destruct (IH (ITunes.runOp net op w)) as (new & Hnew & Hlen).
    unfold ITunes.runOps in Hnew. rewrite Hnew. rewrite filter_cons.
    destruct op as [artist track|artist track|]; cbn [ITunes.runOp isSearch].
    + rewrite searchTrack_requests. rewrite decide_True by reflexivity.
      eexists. rewrite <- app_assoc. split; [reflexivity|].
      rewrite length_app. destruct (itunesCache w !! _); cbn; lia.
    + rewrite decide_False by discriminate. exists new. split; [reflexivity | exact Hlen].
    + rewrite decide_False by discriminate. exists new. split; [reflexivity | exact Hlen].
Qed.

Lemma cacheWellFormed_search (net : Network) (artist track : string) (w : World) :
  cacheWellFormed w -> cacheWellFormed (snd (ITunes.searchTrack net artist track w)).
Proof.
  intros Hw. destruct (itunesCache w !! ITunes.cacheKey artist track) as [c|] eqn:E.
  - now rewrite (searchTrack_hit net _ _ _ _ E).
  - rewrite (searchTrack_miss net _ _ _ E). cbn [snd].
    destruct (selectArtwork _ _ _) as [c|] eqn:Es; cbn; [|exact Hw].
    intros key cover. cbn. rewrite lookup_insert. case_decide.
    + intros [= <-]. eapply selectArtwork_truthy; eassumption.
    + apply Hw.
Qed.

(** X8: the cache only ever holds non-empty covers: this holds in the empty
    world, every call ([searchTrack], [getFallbackArtwork], [clearCache])
    keeps it, and then every cover that [searchTrack] returns is non-empty,
    so that [albumCover || fallback] keeps a cover that was found. *)
Theorem cache_holds_usable_covers (net : Network) (ops : list ITunes.Op) :
  let w := ITunes.runOps net ops emptyWorld in
  cacheWellFormed w /\
  forall artist track cover w',
    ITunes.searchTrack net artist track w = (Normal (Some cover), w') ->
    truthy cover = true /\ forall fallback, orElse (Some cover) fallback = cover.
Proof.
  cbv zeta.
  assert (Hw : forall w, cacheWellFormed w -> cacheWellFormed (ITunes.runOps net ops w)).
  { induction ops as [|op ops IH]; intros w Hwf; [exact Hwf|].
    unfold ITunes.runOps. cbn [foldl]. apply IH.
    destruct op; cbn [ITunes.runOp].
    - now apply cacheWellFormed_search.
    - exact Hwf.
    - intros key cover. cbn. rewrite lookup_empty. discriminate. }
  assert (H0 : cacheWellFormed emptyWorld).
  { intros key cover. cbn. rewrite lookup_empty. discriminate. }
  specialize (Hw emptyWorld H0). split; [exact Hw|].
  intros artist track cover w' Hs.
  assert (truthy cover = true) as Ht.
  { apply (cacheWellFormed_search net artist track _ Hw (ITunes.cacheKey artist track)).
    rewrite Hs. cbn [snd]. eapply searchTrack_caches. exact Hs. }
  split; [exact Ht|]. intros fallback. unfold orElse. now rewrite Ht.
Qed.

(** X9: [clearCache] forgets everything: right after it a [searchTrack] for
    any artist and track, cached before or not, goes to the network with
    exactly one request. *)
Theorem clearCache_forces_request (net : Network) (artist track : string) (w : World) :
  let cleared := snd (ITunes.clearCache w) in
  itunesCache cleared = ∅ /\
  requests (snd (ITunes.searchTrack net artist track cleared)) =
  requests w ++ [ITunes.searchTerm artist track].
Proof.
  cbv zeta. split; [reflexivity|].
  rewrite searchTrack_requests. cbn. now rewrite lookup_empty.
Qed.

(** X10: [searchArtistTracks] never throws and never touches the cover
    cache: it issues one request for the cleaned artist and returns the
    results of a well-formed response as they are, and the empty list when the
    request is rejected, the status is not ok, the body is not JSON, or the
    results are missing. *)
Theorem searchArtistTracks_total (net : Network) (artist : string) (limit : Z) (w : World) :
  let term := cleanSearchTerm artist in
  ITunes.searchArtistTracks net artist limit w =
  (Normal (match net (length (requests w)) term with
           | Json (Some results) => results
           | _ => []
           end),
   recordRequest term w) /\
  itunesCache (recordRequest term w) = itunesCache w.
Proof.
  cbv zeta. split; [|reflexivity].
  unfold ITunes.searchArtistTracks, tryCatch, bind, fetch, liftCompletion, ITunes.readJson, ret.
  destruct (net _ _) as [| | |[results|]]; reflexivity.
Qed.

Lemma cache_holds_usable_covers_witness :
  truthy "https://is1-ssl.mzstatic.com/image/thumb/Music/a/600x600bb.jpg" = true /\
  forall fallback,
    orElse (Some "https://is1-ssl.mzstatic.com/image/thumb/Music/a/600x600bb.jpg") fallback =
    "https://is1-ssl.mzstatic.com/image/thumb/Music/a/600x600bb.jpg".
Proof.
  apply (proj2 (cache_holds_usable_covers (answering [antiHero]) [])
           "Taylor Swift" "Anti-Hero" _
           (snd (ITunes.searchTrack (answering [antiHero]) "Taylor Swift" "Anti-Hero" emptyWorld))).
  vm_compute. reflexivity.
Defined.

(** ** More on the fallback artwork *)

Lemma toInt32_range (z : Z) : (- 2 ^ 31 <= toInt32 z < 2 ^ 31)%Z.
Proof.
  unfold toInt32. pose proof (Z.mod_pos_bound (z + 2 ^ 31) (2 ^ 32) ltac:(lia)). lia.
Qed.

Lemma toInt32_eq (z : Z) : exists q, toInt32 z = (z - 2 ^ 32 * q)%Z.
Proof.
  unfold toInt32. exists ((z + 2 ^ 31) / 2 ^ 32)%Z.
  rewrite Z.mod_eq by lia. lia.
Qed.

Lemma toInt32_congr (a b q : Z) : a = (b + 2 ^ 32 * q)%Z -> toInt32 a = toInt32 b.
Proof.
  intros ->. unfold toInt32. f_equal.
  replace (b + 2 ^ 32 * q + 2 ^ 31)%Z with (b + 2 ^ 31 + q * 2 ^ 32)%Z by lia.
  apply Z_mod_plus_full.
Qed.

Lemma hashStep_closed (hash : Z) (c : ascii) :
  hashStep hash c = toInt32 (31 * hash + Z.of_N (code c)).
Proof.
  unfold hashStep. rewrite Z.land_diag. rewrite Z.shiftl_mul_pow2 by lia.
  destruct (toInt32_eq hash) as [q1 E1].
  destruct (toInt32_eq (toInt32 hash * 2 ^ 5)) as [q2 E2].
  rewrite E2, E1. apply (toInt32_congr _ _ (- (32 * q1 + q2))). lia.
Qed.

Lemma hashLoop_range (str : string) (hash : Z) :
  (- 2 ^ 31 <= hash < 2 ^ 31)%Z -> (- 2 ^ 31 <= hashLoop hash str < 2 ^ 31)%Z.
Proof.
  revert hash; induction str as [|c str IH]; intros hash H; [exact H|].
  cbn [hashLoop]. apply IH. rewrite hashStep_closed. apply toInt32_range.
Qed.

(** X11: [simpleHash] is the multiply-by-31 string hash on 32-bit integers:
    each round maps [hash] to [31 * hash + char] wrapped to 32 bits, whatever
    the intermediate overflow of [hash << 5]; the result of [Math.abs] lies
    between 0 and 2^31 inclusive (2^31 when the wrapped hash is -2^31). *)
Theorem simpleHash_range (str : string) :
  (forall hash c, hashStep hash c = toInt32 (31 * hash + Z.of_N (code c))) /\
  (0 <= simpleHash str <= 2 ^ 31)%Z.
Proof.
  split; [apply hashStep_closed|].
  unfold simpleHash. pose proof (hashLoop_range str 0 ltac:(lia)). lia.
Qed.

Lemma length_append (a b : string) :
  String.length (a +:+ b) = String.length a + String.length b.
Proof.
  induction a as [|c a IH]; [reflexivity|].
  change (String c a +:+ b) with (String c (a +:+ b)). cbn. now rewrite IH.
Qed.

Lemma length_take (n : nat) (s : string) :
  String.length (JsString.take n s) = Nat.min n (String.length s).
Proof.
  revert s; induction n as [|n IH]; intros s; [reflexivity|].
  destruct s as [|c s]; [reflexivity|]. cbn. now rewrite IH.
Qed.

(** X12: [truncate(text, maxLength)] returns a text of at most [maxLength]
    characters unchanged; for [maxLength >= 3] a longer text becomes its first
    [maxLength - 3] characters followed by three dots, exactly [maxLength]
    characters long; for [maxLength < 3] a longer text becomes just the three
    dots (longer than [maxLength]). *)
Theorem truncate_spec (text : string) (maxLength : Z) :
  ((Z.of_nat (String.length text) <= maxLength)%Z -> truncate text maxLength = text) /\
  ((maxLength < Z.of_nat (String.length text))%Z ->
     truncate text maxLength =
       JsString.take (Z.to_nat (maxLength - 3)) text +:+ "..." /\
     ((3 <= maxLength)%Z -> Z.of_nat (String.length (truncate text maxLength)) = maxLength) /\
     ((maxLength < 3)%Z -> truncate text maxLength = "...")).
Proof.
  unfold truncate, substring0. split.
  - intros H. destruct (maxLength <? _)%Z eqn:E; [lia | reflexivity].
  - intros H. destruct (maxLength <? _)%Z eqn:E; [|lia].
    split; [reflexivity|]. split.
    + intros H3. rewrite length_append, length_take. cbn [String.length]. lia.
    + intros H3. replace (Z.to_nat (maxLength - 3)) with 0%nat by lia. reflexivity.
Qed.

Lemma truncate_spec_witness :
  truncate "Taylor Swift" 20 = "Taylor Swift" /\
  truncate "A very long artist name indeed" 20 = "A very long artis..." /\
  truncate "abcdef" 2 = "...".
Proof.
  split; [|split].
  - apply (proj1 (truncate_spec "Taylor Swift" 20)). cbn. lia.
  - apply (proj2 (truncate_spec "A very long artist name indeed" 20)). cbn. lia.
  - apply (proj2 (truncate_spec "abcdef" 2)); cbn; lia.
Defined.

Lemma btoa_length_aux (s : string) :
  String.length (btoa s) = 4 * ((String.length s + 2) / 3) /\
  (forall a, String.length (btoa (String a s)) = 4 * ((String.length s + 3) / 3)) /\
  (forall a b, String.length (btoa (String a (String b s))) = 4 * ((String.length s + 4) / 3)).
Proof.
  induction s as [|c s (IH0 & IH1 & IH2)].
  - repeat split; reflexivity.
  - split; [|split].
    + rewrite IH1. cbn [String.length]. do 2 f_equal. lia.
    + intros a. rewrite IH2. cbn [String.length]. do 2 f_equal. lia.
    + intros a b. cbn [btoa String.length]. rewrite IH0.
      replace (S (String.length s) + 4) with (String.length s + 2 + 1 * 3) by lia.
      rewrite Nat.div_add by lia. lia.
Qed.

(** [btoa] of [n] characters has [4 * ceil(n / 3)] characters: every
    three input characters give four, and a last group of one or two is padded
    to four. *)
Theorem btoa_length (s : string) :
  String.length (btoa s) = 4 * ((String.length s + 2) / 3).
Proof. apply btoa_length_aux. Qed.

(** X13: the generated fallback is a [data:image/svg+xml;base64,] URL, never
    empty; [loadAlbumCover] therefore stores it without the image preload,
    which cannot fail for it. *)
Theorem fallback_needs_no_preload (artist trackTitle : string)
    (image : string -> LazyHook.ImageOutcome) (st : LazyHook.State) :
  startsWith (getFallbackArtwork artist trackTitle) "data:image/svg+xml;base64," = true /\
  truthy (getFallbackArtwork artist trackTitle) = true /\
  LazyHook.preload image (getFallbackArtwork artist trackTitle) st = (Normal tt, st).
Proof.
  pose proof (fallback_is_data_url artist trackTitle) as [Hd Ht].
  split; [|split; [exact Ht|]].
  - unfold getFallbackArtwork, startsWith. apply prefix_app.
  - unfold LazyHook.preload. rewrite Hd, Ht. reflexivity.
Qed.

(** ** More on AlbumCoverUpdater *)

Lemma updateOne_frame (net : Network) (album : AlbumData)
    (updatedAlbums : list AlbumData) (failedUpdates : list string) (u : Updater.State) :
  exists cover failed' u',
    Updater.updateOne net album updatedAlbums failedUpdates u =
      (Normal (updatedAlbums ++ [AlbumData.withCover album cover], failed'), u') /\
    Updater.updateInProgress u' = Updater.updateInProgress u /\
    Updater.progressCallback u' = Updater.progressCallback u /\
    Updater.delivered u' = Updater.delivered u /\
    length (requests (Updater.world u')) <= S (length (requests (Updater.world u))).
Proof.
  unfold Updater.updateOne, tryCatch, bind, Updater.liftWorld, ret.
  pose proof (searchTrack_requests net (AlbumData.artist album) (AlbumData.title album)
                (Updater.world u)) as Hreq.
  destruct (ITunes.searchTrack net (AlbumData.artist album) (AlbumData.title album)
              (Updater.world u)) as [[found|e] w'] eqn:E.
  - eexists _, _, _. split; [reflexivity|]. cbn. repeat split.
    cbn in Hreq. rewrite Hreq, length_app. destruct (itunesCache _ !! _); cbn; lia.
  - destruct (searchTrack_normal net (AlbumData.artist album) (AlbumData.title album)
                (Updater.world u)) as (f & w2 & E2). congruence.
Qed.

Lemma updateLoop_reports (net : Network) (total : nat) (albums : list AlbumData) :
  forall i updatedAlbums failedUpdates u,
  exists out failed' u' reports,
    Updater.updateLoop net total i albums updatedAlbums failedUpdates u =
      (Normal (updatedAlbums ++ out, failed'), u') /\
    length out = length albums /\
    Updater.updateInProgress u' = Updater.updateInProgress u /\
    Updater.progressCallback u' = Updater.progressCallback u /\
    Updater.delivered u' =
      Updater.delivered u ++ (if Updater.progressCallback u then reports else []) /\
    length reports = length albums /\
    (forall k album, albums !! k = Some album ->
       exists p, reports !! k = Some p /\
         reportFor total (i + k) album (updatedAlbums ++ firstn k out) p) /\
    length (requests (Updater.world u')) <=
      length (requests (Updater.world u)) + length albums.
Proof.
  induction albums as [|album rest IH]; intros i updatedAlbums failedUpdates u.
  - exists [], failedUpdates, u, []. rewrite !app_nil_r. cbn.
    destruct (Updater.progressCallback u); rewrite ?app_nil_r;
      repeat split; try lia; intros k album H; discriminate.
  - cbn [Updater.updateLoop]. unfold bind at 1. unfold Updater.reportProgress, modify.
    set (report := {| Updater.current := i + 1; Updater.total := total;
                      Updater.currentSong := Updater.label album;
                      Updater.completed := updatedAlbums;
                      Updater.failed := failedUpdates |}).
    set (u1 := if Updater.progressCallback u then _ else u).
    assert (Hu1 : Updater.updateInProgress u1 = Updater.updateInProgress u /\
                  Updater.progressCallback u1 = Updater.progressCallback u /\
                  Updater.world u1 = Updater.world u /\
                  Updater.delivered u1 =
                    Updater.delivered u ++ (if Updater.progressCallback u then [report] else [])).
    { unfold u1. destruct (Updater.progressCallback u) eqn:Ep; cbn;
        rewrite ?app_nil_r; auto. }
    destruct Hu1 as (Hf1 & Hc1 & Hw1 & Hd1).
    destruct (updateOne_frame net album updatedAlbums failedUpdates u1)
      as (cover & failed1 & u2 & E1 & Hf2 & Hc2 & Hd2 & Hr2).
    unfold bind. rewrite E1. cbn [fst snd].
    destruct (IH (S i) (updatedAlbums ++ [AlbumData.withCover album cover]) failed1 u2)
      as (out & failed' & u' & reports & E2 & Hlen & Hf3 & Hc3 & Hd3 & Hrl & Hrep & Hr3).
    exists (AlbumData.withCover album cover :: out), failed', u', (report :: reports).
    split; [rewrite E2; now rewrite <- app_assoc|].
    split; [cbn; lia|]. split; [congruence|]. split; [congruence|].
    split.
    { rewrite Hd3, Hd2, Hd1, Hc2, Hc1. destruct (Updater.progressCallback u);
        rewrite <- ?app_assoc; reflexivity. }
    split; [cbn; lia|]. split.
    { intros k a Hk. destruct k as [|k].
      - injection Hk as <-. exists report. split; [reflexivity|].
        unfold reportFor. cbn. rewrite Nat.add_0_r, app_nil_r. auto.
      - cbn in Hk. destruct (Hrep k a Hk) as (p & Hp & H1 & H2 & H3 & H4).
        exists p. split; [exact Hp|]. unfold reportFor.
        rewrite H1, H2, H3, H4. cbn [firstn]. rewrite <- app_assoc.
        repeat split. lia. }
    rewrite Hw1 in Hr2. cbn [length]. lia.
Qed.

(** X14: the re-entrancy guard and its release.  While an update is in
    progress both updaters throw and change nothing.  An update that starts
    always ends with the flag cleared and the callback dropped, so a further
    update can run right after it. *)
Theorem update_lock_released (net : Network) (albums albums' : list AlbumData)
    (onProgress onProgress' : bool) (u : Updater.State) :
  (Updater.updateInProgress u = true ->
     Updater.updateSpecificCovers net albums onProgress u = (Throw UpdateAlreadyInProgress, u) /\
     Updater.updateAllCovers net albums onProgress u = (Throw UpdateAlreadyInProgress, u)) /\
  (Updater.updateInProgress u = false ->
     exists out u1 out' u2,
       Updater.updateSpecificCovers net albums onProgress u = (Normal out, u1) /\
       Updater.isUpdateInProgress u1 = false /\ Updater.progressCallback u1 = false /\
       Updater.updateAllCovers net albums' onProgress' u1 = (Normal out', u2) /\
       Updater.isUpdateInProgress u2 = false /\ Updater.progressCallback u2 = false).
Proof.
  split.
  - intros H. unfold Updater.updateSpecificCovers, Updater.updateAllCovers. now rewrite H.
  - intros H. unfold Updater.updateSpecificCovers. rewrite H.
    destruct (updateLoop_reports net (length albums) albums 0 [] [] (Updater.enter onProgress u))
      as (out & f1 & u1 & r1 & E1 & _).
    unfold tryFinally, bind, ret. rewrite E1. cbn [fst].
    exists out, (Updater.leave u1).
    unfold Updater.updateAllCovers. cbn [Updater.leave Updater.updateInProgress].
    destruct (updateLoop_reports net (length albums') albums' 0 [] []
                (Updater.enter onProgress' (Updater.leave u1)))
      as (out' & f2 & u2 & r2 & E2 & _).
    unfold tryFinally, bind, ret, Updater.reportProgress, modify. rewrite E2. cbn [fst].
    eexists _, _. repeat split.
Qed.

Lemma update_lock_released_witness :
  Updater.updateSpecificCovers unreachableNet tenSongs true busyUpdater
    = (Throw UpdateAlreadyInProgress, busyUpdater) /\
  exists out u1 out' u2,
    Updater.updateSpecificCovers unreachableNet tenSongs true idleUpdater = (Normal out, u1) /\
    Updater.isUpdateInProgress u1 = false /\ Updater.progressCallback u1 = false /\
    Updater.updateAllCovers unreachableNet tenSongs false u1 = (Normal out', u2) /\
    Updater.isUpdateInProgress u2 = false /\ Updater.progressCallback u2 = false.
Proof.
  split.
  - apply (proj1 (update_lock_released unreachableNet tenSongs tenSongs true true busyUpdater)).
    reflexivity.
  - apply (proj2 (update_lock_released unreachableNet tenSongs tenSongs true false idleUpdater)).
    reflexivity.
Defined.

(** X15: progress reports and requests of [updateSpecificCovers].  With a
    callback it is called once per album, in order: the report for the album
    at index [k] has [current = k + 1], [total] the number of albums, the
    album's "artist - title" as [currentSong], and as [completed] the albums
    updated so far, that is the first [k] albums of the final result.  Without
    a callback nothing is delivered.  At most one request per album is
    issued. *)
Theorem update_reports_in_order (net : Network) (albums : list AlbumData)
    (onProgress : bool) (u : Updater.State) :
  Updater.updateInProgress u = false ->
  exists out u' reports,
    Updater.updateSpecificCovers net albums onProgress u = (Normal out, u') /\
    Updater.delivered u' = Updater.delivered u ++ (if onProgress then reports else []) /\
    length reports = length albums /\
    (forall k album, albums !! k = Some album ->
       exists p, reports !! k = Some p /\
         Updater.current p = k + 1 /\ Updater.total p = length albums /\
         Updater.currentSong p = Updater.label album /\
         Updater.completed p = firstn k out) /\
    length (requests (Updater.world u')) <=
      length (requests (Updater.world u)) + length albums.
Proof.
  intros H. unfold Updater.updateSpecificCovers. rewrite H.
  destruct (updateLoop_reports net (length albums) albums 0 [] [] (Updater.enter onProgress u))
    as (out & f1 & u1 & reports & E1 & _ & _ & _ & Hd & Hl & Hrep & Hreq).
  unfold tryFinally, bind, ret. rewrite E1. cbn [fst].
  exists out, (Updater.leave u1), reports.
  split; [reflexivity|]. split; [exact Hd|]. split; [exact Hl|]. split; [|exact Hreq].
  intros k album Hk. destruct (Hrep k album Hk) as (p & Hp & H1 & H2 & H3 & H4).
  exists p. cbn in H1, H4. auto.
Qed.

Lemma update_reports_in_order_witness :
  exists out u' reports,
    Updater.updateSpecificCovers unreachableNet tenSongs true idleUpdater = (Normal out, u') /\
    Updater.delivered u' = Updater.delivered idleUpdater ++ reports /\
    length reports = 10.
Proof.
  destruct (update_reports_in_order unreachableNet tenSongs true idleUpdater eq_refl)
    as (out & u' & reports & H1 & H2 & H3 & _).
  exists out, u', reports. auto.
Defined.

(** X16: [updateAllCovers] reports once more when the loop is done: with a
    callback, the last report delivered says "Complete!", has [current] and
    [total] equal to the number of albums and carries the returned list as
    [completed]. *)
Theorem updateAll_final_report (net : Network) (ALBUMS_DATABASE : list AlbumData)
    (u : Updater.State) :
  Updater.updateInProgress u = false ->
  exists out u' p,
    Updater.updateAllCovers net ALBUMS_DATABASE true u = (Normal out, u') /\
    last (Updater.delivered u') = Some p /\
    length (Updater.delivered u') = length (Updater.delivered u) + length ALBUMS_DATABASE + 1 /\
    Updater.currentSong p = "Complete!" /\
    Updater.current p = length ALBUMS_DATABASE /\
    Updater.total p = length ALBUMS_DATABASE /\
    Updater.completed p = out.
Proof.
  intros H. unfold Updater.updateAllCovers. rewrite H.
  destruct (updateLoop_reports net (length ALBUMS_DATABASE) ALBUMS_DATABASE 0 [] []
              (Updater.enter true u))
    as (out & f1 & u1 & reports & E1 & _ & _ & Hc & Hd & Hl & _ & _).
  unfold tryFinally, bind, ret, Updater.reportProgress, modify. rewrite E1.
  cbn [fst snd]. cbn in Hc, Hd. rewrite Hc.
  eexists _, _, _. split; [reflexivity|]. cbn.
  rewrite last_snoc. split; [reflexivity|].
  rewrite Hd, !length_app. cbn. split; [lia|]. auto.
Qed.

Lemma updateAll_final_report_witness :
  exists out u' p,
    Updater.updateAllCovers unreachableNet tenSongs true idleUpdater = (Normal out, u') /\
    last (Updater.delivered u') = Some p /\
    Updater.currentSong p = "Complete!" /\ Updater.completed p = out.
Proof.
  destruct (updateAll_final_report unreachableNet tenSongs idleUpdater eq_refl)
    as (out & u' & p & H1 & H2 & _ & H3 & _ & _ & H4).
  exists out, u', p. auto.
Defined.

(** ** Batches *)

Lemma slice_inside {A} (l : list A) (i m : Z) :
  (0 <= i < Z.of_nat (length l))%Z -> (1 <= m)%Z ->
  FastItunes.slice l i (i + m) ++ skipn (Z.to_nat (i + m)) l = skipn (Z.to_nat i) l /\
  (1 <= Z.of_nat (length (FastItunes.slice l i (i + m))) <= m)%Z.
Proof.
  intros Hi Hm. unfold FastItunes.slice.
  replace (i <? 0)%Z with false by lia. replace (i + m <? 0)%Z with false by lia.
  replace (Z.min i (Z.of_nat (length l))) with i by lia.
  set (X := skipn (Z.to_nat i) l).
  assert (HX : length X = length l - Z.to_nat i) by apply length_skipn.
  destruct (Z_le_gt_dec (i + m) (Z.of_nat (length l))) as [Hle|Hgt].
  - replace (Z.min (i + m) (Z.of_nat (length l))) with (i + m)%Z by lia.
    replace (Z.to_nat (i + m - i)) with (Z.to_nat m) by lia.
    replace (Z.to_nat (i + m)) with (Z.to_nat m + Z.to_nat i) by lia.
    rewrite <- (skipn_skipn (Z.to_nat m) (Z.to_nat i) l). fold X.
    split; [apply firstn_skipn|]. rewrite length_firstn. lia.
  - replace (Z.min (i + m) (Z.of_nat (length l))) with (Z.of_nat (length l)) by lia.
    rewrite (skipn_all2 (n := Z.to_nat (i + m))) by lia.
    rewrite firstn_all2 by lia. rewrite app_nil_r. split; [reflexivity | lia].
Qed.

Lemma batchesFrom_enough {A} (requests : list A) (m : Z) :
  (1 <= m)%Z ->
  forall fuel i, (0 <= i)%Z -> (Z.of_nat (length requests) - i <= Z.of_nat fuel)%Z ->
  exists batches,
    FastItunes.batchesFrom fuel requests m i = Some batches /\
    concat batches = skipn (Z.to_nat i) requests /\
    Forall (fun b => (1 <= Z.of_nat (length b) <= m)%Z) batches.
Proof.
  intros Hm. induction fuel as [|fuel IH]; intros i Hi Hfuel.
  - exists []. cbn. replace (i <? _)%Z with false by lia.
    split; [reflexivity|]. split; [|constructor].
    rewrite skipn_all2 by lia. reflexivity.
  - cbn [FastItunes.batchesFrom]. destruct (i <? Z.of_nat (length requests))%Z eqn:E.
    + destruct (IH (i + m)%Z ltac:(lia) ltac:(lia)) as (rest & -> & Hc & Hall).
      destruct (slice_inside requests i m ltac:(lia) Hm) as [Hs Hl].
      eexists. split; [reflexivity|]. cbn [concat]. rewrite Hc. split; [exact Hs|].
      constructor; assumption.
    + exists []. split; [reflexivity|]. split; [|constructor].
      rewrite skipn_all2 by lia. reflexivity.
Qed.

Lemma batchesFrom_stuck {A} (requests : list A) (m : Z) :
  (m <= 0)%Z ->
  forall fuel i, (i < Z.of_nat (length requests))%Z ->
  FastItunes.batchesFrom fuel requests m i = None.
Proof.
  intros Hm. induction fuel as [|fuel IH]; intros i Hi; cbn [FastItunes.batchesFrom].
  - now replace (i <? _)%Z with true by lia.
  - replace (i <? _)%Z with true by lia. rewrite IH by lia. reflexivity.
Qed.

(** X17: the batch loop of [loadCoversBatch] (and of the background loader,
    where the batch size is 3).  For a batch size of at least 1 the loop ends
    within one round per request; its batches, put end to end, are the request
    list in order, and every batch holds between 1 and [maxConcurrent]
    requests.  For a batch size of 0 or less and a non-empty request list the
    loop never ends: [i] never reaches the length. *)
Theorem batches_partition {A} (requests : list A) (maxConcurrent : Z) :
  ((1 <= maxConcurrent)%Z ->
     exists batches,
       FastItunes.batchesFrom (length requests) requests maxConcurrent 0 = Some batches /\
       concat batches = requests /\
       Forall (fun b => (1 <= Z.of_nat (length b) <= maxConcurrent)%Z) batches) /\
  ((maxConcurrent <= 0)%Z -> requests <> [] ->
     forall fuel, FastItunes.batchesFrom fuel requests maxConcurrent 0 = None).
Proof.
  split.
  - intros Hm.
    destruct (batchesFrom_enough requests maxConcurrent Hm (length requests) 0
                ltac:(lia) ltac:(lia)) as (batches & H1 & H2 & H3).
    exists batches. auto.
  - intros Hm Hne fuel. apply batchesFrom_stuck; [exact Hm|].
    destruct requests; [congruence | cbn; lia].
Qed.

Lemma batches_partition_witness :
  (exists batches,
     FastItunes.batchesFrom 7 [1; 2; 3; 4; 5; 6; 7] 3 0 = Some batches /\
     concat batches = [1; 2; 3; 4; 5; 6; 7] /\
     Forall (fun b => (1 <= Z.of_nat (length b) <= 3)%Z) batches) /\
  forall fuel, FastItunes.batchesFrom fuel [1; 2; 3] 0 0 = None.
Proof.
  split.
  - apply (proj1 (batches_partition [1; 2; 3; 4; 5; 6; 7] 3)). lia.
  - apply (proj2 (batches_partition [1; 2; 3] 0)); [lia | discriminate].
Defined.

(** ** More on useFastAlbumCovers *)




(** X19: one [loadCover] run to completion.  When the guard lets it pass,
    the service is called once; afterwards [getCover] gives the cover the
    service returned (or what it gave before, when none came back), other keys
    are untouched, the song is no longer loading and its key is out of the
    loading queue. *)
Theorem loadCover_round_trip (net : Network) (cl : FastHook.Closure) (song : Song)
    (st : FastHook.State) :
  FastHook.skips cl (fst st) (FastHook.getCacheKey song) = false ->
  exists cover w' h',
    FastItunes.getAlbumCover net (AlbumData.artist song) (AlbumData.title song) (snd st)
      = (Normal cover, w') /\
    FastHook.loadCover net cl song st = (Normal tt, (h', w')) /\
    (truthyOpt cover = true -> FastHook.getCover h' song = cover) /\
    (truthyOpt cover = false -> FastHook.getCover h' song = FastHook.getCover (fst st) song) /\
    (forall other, FastHook.getCacheKey other <> FastHook.getCacheKey song ->
       FastHook.getCover h' other = FastHook.getCover (fst st) other) /\
    FastHook.isLoading h' (AlbumData.id song) = false /\
    setHas (FastHook.loadingQueue h') (FastHook.getCacheKey song) = false.
Proof.
  intros Hskip. destruct (loadCover_run net cl song st Hskip) as (cover & w' & E & Hrun).
  eexists cover, w', _. split; [exact E|]. split; [exact Hrun|].
  unfold FastHook.getCover, FastHook.isLoading, setHas, FastHook.onCover, truthyOpt.
  assert (Hq : bool_decide (FastHook.getCacheKey song ∈
                 (FastHook.loadingQueue (fst st) ∪ {[FastHook.getCacheKey song]})
                 ∖ {[FastHook.getCacheKey song]}) = false).
  { apply bool_decide_eq_false. set_solver. }
  assert (Hi : forall items : gset string,
            bool_decide (AlbumData.id song ∈ (items ∪ {[AlbumData.id song]})
                         ∖ {[AlbumData.id song]}) = false).
  { intros items. apply bool_decide_eq_false. set_solver. }
  destruct cover as [c|]; [destruct (truthy c) eqn:Et|]; cbn.
  - rewrite lookup_insert_eq, Et. split; [reflexivity|]. split; [discriminate|].
    split; [|split; [apply Hi | exact Hq]].
    intros other Hne. now rewrite lookup_insert_ne by congruence.
  - split; [discriminate|]. split; [reflexivity|].
    split; [reflexivity|]. split; [apply Hi | exact Hq].
  - split; [discriminate|]. split; [reflexivity|].
    split; [reflexivity|]. split; [apply Hi | exact Hq].
Qed.

Lemma loadCover_round_trip_witness :
  exists cover w' h',
    FastItunes.getAlbumCover (answering [antiHero]) "Taylor Swift" "Anti-Hero" emptyWorld
      = (Normal cover, w') /\
    FastHook.loadCover (answering [antiHero]) (FastHook.closureOf FastHook.initial) sampleSong
      (FastHook.initial, emptyWorld) = (Normal tt, (h', w')) /\
    FastHook.isLoading h' "1" = false.
Proof.
  destruct (loadCover_round_trip (answering [antiHero]) (FastHook.closureOf FastHook.initial)
              sampleSong (FastHook.initial, emptyWorld) eq_refl)
    as (cover & w' & h' & H1 & H2 & _ & _ & _ & H3 & _).
  exists cover, w', h'. auto.
Defined.

Lemma StronglySorted_NoDup {A} (R : A -> A -> Prop) (l : list A) :
  (forall x, ~ R x x) -> StronglySorted R l -> NoDup l.
Proof.
  intros Hirr. induction 1 as [|x l Hs IH Hx]; constructor; [|exact IH].
  intros Hin. rewrite Forall_forall in Hx. exact (Hirr x (Hx x Hin)).
Qed.

Lemma NoDup_bounded_length (l : list Z) (n : nat) :
  NoDup l -> (forall x, x ∈ l -> (0 <= x < Z.of_nat n)%Z) -> length l <= n.
Proof.
  intros Hnd Hb.
  assert (Hnd' : NoDup (Z.to_nat <$> l)).
  { apply NoDup_fmap_2_strong; [|exact Hnd].
    intros x y Hx Hy Heq. apply Hb in Hx, Hy. lia. }
  rewrite <- (length_fmap Z.to_nat l).
  transitivity (length (seq 0 n)); [|rewrite length_seq; lia].
  apply submseteq_length, NoDup_submseteq; [exact Hnd'|].
  intros k Hk. apply list_elem_of_fmap in Hk as (x & -> & Hx). apply Hb in Hx.
  apply elem_of_seq. lia.
Qed.

(** X20: the plan of useFastAlbumCovers lists no index twice, and has as
    many songs as indices, at most as many as there are songs. *)
Theorem fast_plan_no_duplicates (songs : list Song) (centerIndex preloadRadius : Z) :
  NoDup (FastHook.planIndices songs centerIndex preloadRadius) /\
  length (FastHook.songsToLoad songs centerIndex preloadRadius) =
    length (FastHook.planIndices songs centerIndex preloadRadius) /\
  length (FastHook.songsToLoad songs centerIndex preloadRadius) <= length songs.
Proof.
  assert (Hnd : NoDup (FastHook.planIndices songs centerIndex preloadRadius)).
  { apply (StronglySorted_NoDup (before centerIndex)); [|apply planIndices_sorted].
    intros x [H|[_ H]]; lia. }
  assert (Hlen : length (FastHook.songsToLoad songs centerIndex preloadRadius) =
                 length (FastHook.planIndices songs centerIndex preloadRadius)).
  { unfold FastHook.songsToLoad, FastHook.planIndices. now rewrite !length_map. }
  split; [exact Hnd|]. split; [exact Hlen|]. rewrite Hlen.
  apply NoDup_bounded_length; [exact Hnd|].
  intros x Hx. now apply planIndices_elem in Hx.
Qed.

(** ** More on useLazyAlbumCovers *)

Lemma loadAlbumCover_skips (net : Network) (image : string -> LazyHook.ImageOutcome)
    (abort : LazyHook.Abort) (seen : LazyHook.LazyLoadState) (song : Song)
    (st : LazyHook.State) :
  lazySkips seen st song = true ->
  LazyHook.loadAlbumCover net image abort seen song st = (Normal tt, st).
Proof.
  unfold lazySkips, LazyHook.loadAlbumCover. intros H.
  apply orb_prop in H as [H|H]; rewrite H; [reflexivity|].
  now destruct (_ || _ || _).
Qed.

Lemma loadAlbumCover_runs (net : Network) (image : string -> LazyHook.ImageOutcome)
    (abort : LazyHook.Abort) (seen : LazyHook.LazyLoadState) (song : Song)
    (st : LazyHook.State) (found : option string) (w1 : World) :
  lazySkips seen st song = false ->
  ITunes.searchTrack net (AlbumData.artist song) (AlbumData.title song) (LazyHook.world st)
    = (Normal found, w1) ->
  LazyHook.loadAlbumCover net image abort seen song st =
  (Normal tt,
   {| LazyHook.state := finalState image abort song found (LazyHook.state st);
      LazyHook.loadingQueue :=
        (LazyHook.loadingQueue st ∪ {[LazyHook.songKey song]}) ∖ {[LazyHook.songKey song]};
      LazyHook.world := if LazyHook.abortedAtStart abort then LazyHook.world st else w1 |}).
Proof.
  intros Hskip E. destruct abort.
  - now apply loadAlbumCover_settles.
  - unfold lazySkips in Hskip. apply orb_false_elim in Hskip as [H1 H2].
    unfold LazyHook.loadAlbumCover. rewrite H1, H2. reflexivity.
  - unfold lazySkips in Hskip. apply orb_false_elim in Hskip as [H1 H2].
    unfold LazyHook.loadAlbumCover. rewrite H1, H2.
    unfold LazyHook.setState, LazyHook.setQueue, LazyHook.liftWorld, bind, tryFinally,
      tryCatch, modify, throw, ret.
    cbv beta iota zeta.
    cbn [LazyHook.world LazyHook.state LazyHook.loadingQueue
         LazyHook.abortedAtStart LazyHook.abortedAfterSearch LazyHook.abortedInCatch].
    cbv beta iota zeta.
    cbn [LazyHook.world LazyHook.state LazyHook.loadingQueue].
    rewrite E. reflexivity.
  - unfold lazySkips in Hskip. apply orb_false_elim in Hskip as [H1 H2].
    unfold LazyHook.loadAlbumCover. rewrite H1, H2.
    unfold LazyHook.setState, LazyHook.setQueue, LazyHook.liftWorld, bind, tryFinally,
      tryCatch, modify, throw, ret.
    cbv beta iota zeta.
    cbn [LazyHook.world LazyHook.state LazyHook.loadingQueue
         LazyHook.abortedAtStart LazyHook.abortedAfterSearch LazyHook.abortedInCatch].
    cbv beta iota zeta.
    cbn [LazyHook.world LazyHook.state LazyHook.loadingQueue].
    rewrite E. cbv beta iota zeta.
    unfold finalState, preloadFails, LazyHook.preload, throw, ret.
    cbn [LazyHook.world LazyHook.state LazyHook.loadingQueue].
    destruct (truthy _ && negb _); [destruct (image _)|]; reflexivity.
Qed.

(** X21: a load that is aborted before its search finishes strands the
    song.  The key is added to [loadingCovers] at the start and neither the
    [catch] nor the [finally] block removes it on abort: no cover is stored,
    the song keeps counting as loading, the scheduling effect no longer wants
    it, and every later [loadAlbumCover] whose callback sees this state
    returns at once. *)
Theorem aborted_load_strands_song (net : Network) (image : string -> LazyHook.ImageOutcome)
    (abort : LazyHook.Abort) (seen : LazyHook.LazyLoadState) (song : Song)
    (st : LazyHook.State) :
  lazySkips seen st song = false ->
  abort = LazyHook.AbortBeforeSearch \/ abort = LazyHook.AbortDuringSearch ->
  exists st',
    LazyHook.loadAlbumCover net image abort seen song st = (Normal tt, st') /\
    LazyHook.loadedCovers (LazyHook.state st') = LazyHook.loadedCovers (LazyHook.state st) /\
    LazyHook.songKey song ∈ LazyHook.loadingCovers (LazyHook.state st') /\
    LazyHook.wanted (LazyHook.state st') song = false /\
    (forall net' image' abort' st'',
       LazyHook.loadAlbumCover net' image' abort' (LazyHook.state st') song st''
       = (Normal tt, st'')).
Proof.
  intros Hskip Habort.
  destruct (searchTrack_normal net (AlbumData.artist song) (AlbumData.title song)
              (LazyHook.world st)) as (found & w1 & E).
  eexists. split; [exact (loadAlbumCover_runs net image abort seen song st found w1 Hskip E)|].
  cbn [LazyHook.state].
  assert (Hf : finalState image abort song found (LazyHook.state st) =
               LazyHook.markLoading (LazyHook.songKey song) (LazyHook.state st)).
  { destruct Habort as [-> | ->]; reflexivity. }
  rewrite Hf. cbn [LazyHook.markLoading LazyHook.loadedCovers LazyHook.loadingCovers].
  assert (Hin : LazyHook.songKey song ∈
                LazyHook.loadingCovers (LazyHook.state st) ∪ {[LazyHook.songKey song]})
    by set_solver.
  split; [reflexivity|]. split; [exact Hin|]. split.
  - unfold LazyHook.wanted, setHas. cbn. rewrite (bool_decide_eq_true_2 _ Hin).
    now rewrite andb_false_r.
  - intros net' image' abort' st''. apply loadAlbumCover_skips.
    unfold lazySkips, setHas. cbn. rewrite (bool_decide_eq_true_2 _ Hin).
    now rewrite orb_true_r.
Qed.

Lemma aborted_load_strands_song_witness :
  exists st',
    LazyHook.loadAlbumCover unreachableNet (fun _ => LazyHook.ImageLoaded)
      LazyHook.AbortDuringSearch LazyHook.initial sampleSong freshLazy = (Normal tt, st') /\
    LazyHook.wanted (LazyHook.state st') sampleSong = false.
Proof.
  destruct (aborted_load_strands_song unreachableNet (fun _ => LazyHook.ImageLoaded)
              LazyHook.AbortDuringSearch LazyHook.initial sampleSong freshLazy)
    as (st' & H1 & _ & _ & H2 & _).
  - reflexivity.
  - now right.
  - exists st'. auto.
Defined.

Lemma lazyInvariant_markLoading (key : string) (s : LazyHook.LazyLoadState) :
  lazyInvariant s -> lazyInvariant (LazyHook.markLoading key s).
Proof. intros H. exact H. Qed.

Lemma lazyInvariant_storeLoaded (key cover : string) (s : LazyHook.LazyLoadState) :
  truthy cover = true -> lazyInvariant s -> lazyInvariant (LazyHook.storeLoaded key cover s).
Proof.
  intros Ht (H1 & H2 & H3). split; [reflexivity|]. cbn. split.
  - rewrite dom_insert_L. set_solver.
  - intros k c. rewrite lookup_insert. case_decide; [congruence | apply H3].
Qed.

Lemma lazyInvariant_storeFailed (key cover : string) (s : LazyHook.LazyLoadState) :
  truthy cover = true -> lazyInvariant s -> lazyInvariant (LazyHook.storeFailed key cover s).
Proof.
  intros Ht (H1 & H2 & H3). split; [reflexivity|]. cbn. split.
  - rewrite dom_insert_L. set_solver.
  - intros k c. rewrite lookup_insert. case_decide; [congruence | apply H3].
Qed.

(** X22: what the state of useLazyAlbumCovers keeps.  From the initial
    state on, through any [loadAlbumCover] (whatever the network, the image
    preload and the abort do) and through [clearCache]: [loadedCount] is the
    number of stored covers, every key in [failedCovers] has a stored cover,
    and no stored cover is empty, so [getSongCover] returns the stored cover
    for every key that has one. *)
Theorem lazy_state_invariant (net : Network) (image : string -> LazyHook.ImageOutcome)
    (abort : LazyHook.Abort) (seen : LazyHook.LazyLoadState) (song : Song)
    (st : LazyHook.State) :
  lazyInvariant LazyHook.initial /\
  lazyInvariant (LazyHook.state (snd (LazyHook.clearCache st))) /\
  (lazyInvariant (LazyHook.state st) ->
   lazyInvariant (LazyHook.state (snd (LazyHook.loadAlbumCover net image abort seen song st)))) /\
  (lazyInvariant (LazyHook.state st) ->
   forall other cover,
     LazyHook.loadedCovers (LazyHook.state st) !! LazyHook.songKey other = Some cover ->
     LazyHook.getSongCover (LazyHook.state st) other = cover).
Proof.
  assert (H0 : lazyInvariant LazyHook.initial).
  { split; [reflexivity|]. cbn. split; [set_solver|].
    intros key cover. rewrite lookup_empty. discriminate. }
  split; [exact H0|]. split; [exact H0|]. split.
  - intros Hinv. destruct (lazySkips seen st song) eqn:Hskip.
    + now rewrite (loadAlbumCover_skips net image abort seen song st Hskip).
    + destruct (searchTrack_normal net (AlbumData.artist song) (AlbumData.title song)
                  (LazyHook.world st)) as (found & w1 & E).
      rewrite (loadAlbumCover_runs net image abort seen song st found w1 Hskip E).
      cbn [snd LazyHook.state].
      pose proof (fallback_is_data_url (AlbumData.artist song) (AlbumData.title song))
        as [_ Hfb].
      pose proof (orElse_truthy found _ Hfb) as Hcover.
      unfold finalState, settledState.
      destruct abort; repeat case_match;
        auto using lazyInvariant_markLoading, lazyInvariant_storeLoaded,
          lazyInvariant_storeFailed.
  - intros (_ & _ & H3) other cover Hl. unfold LazyHook.getSongCover, orElse.
    rewrite Hl. now rewrite (H3 _ _ Hl).
Qed.

Lemma lazy_state_invariant_witness :
  lazyInvariant
    (LazyHook.state
       (snd (LazyHook.loadAlbumCover unreachableNet (fun _ => LazyHook.ImageLoaded)
               LazyHook.NoAbort LazyHook.initial sampleSong freshLazy))).
Proof.
  apply (lazy_state_invariant unreachableNet (fun _ => LazyHook.ImageLoaded) LazyHook.NoAbort
           LazyHook.initial sampleSong freshLazy).
  apply (lazy_state_invariant unreachableNet (fun _ => LazyHook.ImageLoaded) LazyHook.NoAbort
           LazyHook.initial sampleSong freshLazy).
Defined.

(** ** The plan of useLazyAlbumCovers *)

Lemma indexRange_elem (lo hi i : Z) : i ∈ LazyHook.indexRange lo hi <-> (lo <= i <= hi)%Z.
Proof.
  unfold LazyHook.indexRange. rewrite list_elem_of_fmap. split.
  - intros (k & -> & Hk). apply elem_of_seq in Hk. lia.
  - intros H. exists (Z.to_nat (i - lo)). split; [lia|]. apply elem_of_seq. lia.
Qed.

Lemma indexRange_sorted (lo hi : Z) : StronglySorted Z.lt (LazyHook.indexRange lo hi).
Proof.
  unfold LazyHook.indexRange. generalize (Z.to_nat (hi - lo + 1)). intros n.
  generalize 0 at 1. induction n as [|n IH]; intros s; cbn; [constructor|].
  constructor; [apply IH|]. apply Forall_forall. intros x Hx.
  apply list_elem_of_fmap in Hx as (k & -> & Hk). apply elem_of_seq in Hk. lia.
Qed.

Lemma pick_indices (songs : list Song) (seen : LazyHook.LazyLoadState) (l : list Z)
    (keep : Z -> bool) :
  map fst (flat_map (fun i => if keep i then LazyHook.pick songs seen i else []) l) =
  List.filter (fun i => keep i && picked songs seen i) l.
Proof.
  induction l as [|i l IH]; [reflexivity|].
  cbn [flat_map List.filter]. rewrite map_app, IH.
  unfold LazyHook.pick, picked.
  destruct (keep i); cbn [andb]; [|reflexivity].
  destruct (songAt songs i) as [s|]; [|reflexivity].
  destruct (LazyHook.wanted seen s); reflexivity.
Qed.

Lemma StronglySorted_filterb {A} (R : A -> A -> Prop) (f : A -> bool) (l : list A) :
  StronglySorted R l -> StronglySorted R (List.filter f l).
Proof.
  induction 1 as [|x l Hs IH Hx]; cbn; [constructor|].
  destruct (f x); [|exact IH]. constructor; [exact IH|].
  rewrite Forall_forall in *. intros y Hy. apply list_elem_of_In, filter_In in Hy as [Hy _].
  apply Hx. now apply list_elem_of_In.
Qed.

Lemma StronglySorted_weaken {A} (R R' : A -> A -> Prop) (l : list A) :
  (forall x y, x ∈ l -> y ∈ l -> R x y -> R' x y) ->
  StronglySorted R l -> StronglySorted R' l.
Proof.
  intros Hw Hs. induction Hs as [|x l Hs IH Hx]; constructor.
  - apply IH. intros a b Ha Hb. apply Hw; now right.
  - rewrite Forall_forall in *. intros y Hy. apply Hw; [left | now right | now apply Hx].
Qed.

Lemma lazy_plan_unfold (songs : list Song) (c pr lr : Z) (seen : LazyHook.LazyLoadState) :
  songs <> [] ->
  let last := (Z.of_nat (length songs) - 1)%Z in
  let ps := Z.max 0 (c - pr) in
  let pe := Z.min last (c + pr) in
  LazyHook.planIndices songs c pr lr seen =
  List.filter (fun i => true && picked songs seen i) (LazyHook.indexRange ps pe)
  ++ List.filter (fun i => ((i <? ps) || (pe <? i))%Z && picked songs seen i)
       (LazyHook.indexRange (Z.max 0 (c - lr)) (Z.min last (c + lr))).
Proof.
  intros Hne. cbv zeta. unfold LazyHook.planIndices, LazyHook.songsToLoadIx.
  destruct songs as [|s0 rest]; [congruence|].
  rewrite map_app. f_equal.
  - rewrite <- (pick_indices _ _ _ (fun _ => true)). reflexivity.
  - now rewrite <- pick_indices.
Qed.

Lemma picked_valid (songs : list Song) (seen : LazyHook.LazyLoadState) (i : Z) :
  picked songs seen i = true -> (0 <= i < Z.of_nat (length songs))%Z.
Proof.
  unfold picked. destruct (songAt songs i) eqn:E; [|discriminate].
  intros _. apply songAt_Some. eauto.
Qed.

(** X23: the plan of useLazyAlbumCovers.  It lists exactly the indices of
    existing songs that the state seen by the effect has neither loaded nor
    loading and that lie within [preloadRadius] or within [lazyLoadRadius] of
    the centre; indices inside the preload window come before all others, and
    inside and outside the window the order is by ascending index; no index
    appears twice. *)
Theorem lazy_plan_order (songs : list Song) (centerIndex preloadRadius lazyLoadRadius : Z)
    (seen : LazyHook.LazyLoadState) :
  let plan := LazyHook.planIndices songs centerIndex preloadRadius lazyLoadRadius seen in
  (forall i, i ∈ plan <->
     picked songs seen i = true /\
     (Z.abs (i - centerIndex) <= preloadRadius \/ Z.abs (i - centerIndex) <= lazyLoadRadius)%Z) /\
  (forall i j a b, i < j -> plan !! i = Some a -> plan !! j = Some b ->
     lazyBefore centerIndex preloadRadius a b) /\
  NoDup plan.
Proof.
  cbv zeta. destruct (decide (songs = [])) as [->|Hne].
  { unfold LazyHook.planIndices. cbn. split; [|split; [|constructor]].
    - intros i. rewrite elem_of_nil. unfold picked, songAt.
      destruct (i <? 0)%Z; [|rewrite lookup_nil]; intuition discriminate.
    - intros i j a b _ H. rewrite lookup_nil in H. discriminate. }
  rewrite (lazy_plan_unfold songs centerIndex preloadRadius lazyLoadRadius seen Hne).
  set (last := (Z.of_nat (length songs) - 1)%Z).
  set (ps := Z.max 0 (centerIndex - preloadRadius)).
  set (pe := Z.min last (centerIndex + preloadRadius)).
  set (A := List.filter _ (LazyHook.indexRange ps pe)).
  set (B := List.filter _ (LazyHook.indexRange _ _)).
  assert (HA : forall i, i ∈ A <->
            picked songs seen i = true /\ (Z.abs (i - centerIndex) <= preloadRadius)%Z).
  { intros i. unfold A. rewrite list_elem_of_In, filter_In, <- list_elem_of_In, indexRange_elem.
    cbn [andb]. split.
    - intros [Hr Hp]. split; [exact Hp|]. unfold ps, pe, last in Hr. lia.
    - intros [Hp Hd]. split; [|exact Hp]. apply picked_valid in Hp.
      unfold ps, pe, last. lia. }
  assert (HB : forall i, i ∈ B <->
            picked songs seen i = true /\ (Z.abs (i - centerIndex) <= lazyLoadRadius)%Z /\
            ~ (Z.abs (i - centerIndex) <= preloadRadius)%Z).
  { intros i. unfold B. rewrite list_elem_of_In, filter_In, <- list_elem_of_In, indexRange_elem.
    rewrite andb_true_iff, orb_true_iff, !Z.ltb_lt. split.
    - intros [Hr [Ho Hp]]. split; [exact Hp|]. pose proof (picked_valid _ _ _ Hp).
      unfold ps, pe, last in *. lia.
    - intros [Hp [Hd Hn]]. pose proof (picked_valid _ _ _ Hp).
      unfold ps, pe, last in *. split; [lia|]. split; [lia | exact Hp]. }
  assert (Hsorted : StronglySorted (lazyBefore centerIndex preloadRadius) (A ++ B)).
  { apply StronglySorted_append.
    - apply (StronglySorted_weaken Z.lt).
      + intros x y Hx Hy Hlt. apply HA in Hx, Hy. right. split; [tauto | exact Hlt].
      + apply StronglySorted_filterb, indexRange_sorted.
    - apply (StronglySorted_weaken Z.lt).
      + intros x y Hx Hy Hlt. apply HB in Hx, Hy. right. split; [tauto | exact Hlt].
      + apply StronglySorted_filterb, indexRange_sorted.
    - intros a b Ha Hb. apply HA in Ha. apply HB in Hb. unfold lazyBefore. tauto. }
  split; [|split].
  - intros i. rewrite elem_of_app, HA, HB.
    destruct (Z_le_dec (Z.abs (i - centerIndex)) preloadRadius); tauto.
  - intros i j a b Hij Ha Hb. exact (StronglySorted_positions _ _ Hsorted i j a b Hij Ha Hb).
  - apply (StronglySorted_NoDup (lazyBefore centerIndex preloadRadius)); [|exact Hsorted].
    intros x [[H1 H2]|[_ H]]; [tauto | lia].
Qed.

Lemma lazy_plan_order_witness :
  lazyBefore 5 1 4 0.
Proof.
  apply (proj1 (proj2 (lazy_plan_order tenSongs 5 1 10 LazyHook.initial)) 0 3 4%Z 0%Z).
  - lia.
  - vm_compute. reflexivity.
  - vm_compute. reflexivity.
Defined.



(** ** The search strategies of AudioDbService *)

Lemma truthyOpt_cover (answer : option string) :
  truthyOpt answer = true -> exists cover, answer = Some cover /\ truthy cover = true.
Proof. destruct answer as [c|]; [|discriminate]. intros H. now exists c. Qed.

Lemma returnIfCover_truthyOpt {S} (answer : option string) (rest : Eff S string) (s : S) :
  AudioDb.returnIfCover answer rest s =
  if truthyOpt answer then (Normal (default EmptyString answer), s) else rest s.
Proof.
  unfold AudioDb.returnIfCover, truthyOpt. destruct answer as [c|]; [|reflexivity].
  destruct (truthy c); reflexivity.
Qed.

Ltac earlier_searches :=
  let i := fresh "i" in let q := fresh "q" in
  let Hi := fresh "Hi" in let Hq := fresh "Hq" in
  intros i q Hi Hq;
  repeat (destruct i as [|i];
          [cbn in Hq; injection Hq as <-; rewrite ?Nat.add_0_r; assumption|]);
  cbn in Hi; lia.

(** X25: [fetchAlbumCoverFromiTunes] always returns; it issues its searches
    in a fixed order (song by title and artist, album by artist and title,
    any song of the artist, and, only when the simplified artist name differs
    from the artist name, any song of the simplified name), stops at the
    first search that answers with a cover and returns that cover, and
    returns the placeholder when no search does.  The outcome of each search
    is taken as given. *)
Theorem fetch_tries_strategies_in_order (env : AudioDb.Searches)
    (songTitle artistName : string) (log : list AudioDb.Query) :
  exists n cover,
    1 <= n <= length (strategies songTitle artistName) /\
    AudioDb.fetchAlbumCoverFromiTunes env songTitle artistName log =
      (Normal cover, log ++ firstn n (strategies songTitle artistName)) /\
    (forall i q, i < n - 1 -> strategies songTitle artistName !! i = Some q ->
       truthyOpt (env (length log + i) q) = false) /\
    ((exists q, strategies songTitle artistName !! (n - 1) = Some q /\
                env (length log + (n - 1)) q = Some cover /\ truthy cover = true)
     \/ (n = length (strategies songTitle artistName) /\
         cover = AudioDb.getPlaceholderImage /\
         forall q, strategies songTitle artistName !! (n - 1) = Some q ->
           truthyOpt (env (length log + (n - 1)) q) = false)).
Proof.
  unfold AudioDb.fetchAlbumCoverFromiTunes, tryCatch, bind, AudioDb.searchiTunes.
  cbv beta iota zeta. rewrite !returnIfCover_truthyOpt.
  unfold bind. cbv beta iota zeta. rewrite !length_app. cbn [length].
  set (q1 := AudioDb.mkQuery songTitle artistName AudioDb.song).
  set (q2 := AudioDb.mkQuery (artistName +:+ " " +:+ songTitle) EmptyString AudioDb.album).
  set (q3 := AudioDb.mkQuery EmptyString artistName AudioDb.song).
  set (q4 := AudioDb.mkQuery EmptyString (AudioDb.simplifyArtistName artistName) AudioDb.song).
  assert (Hs : strategies songTitle artistName =
               [q1; q2; q3] ++ (if String.eqb (AudioDb.simplifyArtistName artistName) artistName
                                then [] else [q4])) by reflexivity.
  rewrite Hs. clear Hs.
  destruct (truthyOpt (env (length log) q1)) eqn:E1.
  { apply truthyOpt_cover in E1 as (c & E1 & T1). exists 1, c. rewrite E1.
    split; [rewrite length_app; cbn; lia|]. split; [reflexivity|].
    split; [earlier_searches|]. left. exists q1. rewrite Nat.add_0_r. auto. }
  destruct (truthyOpt (env (length log + 1) q2)) eqn:E2.
  { apply truthyOpt_cover in E2 as (c & E2 & T2). exists 2, c. rewrite E2.
    split; [rewrite length_app; cbn; lia|].
    split; [cbn [firstn app default]; now rewrite <- app_assoc|].
    split; [earlier_searches|]. left. exists q2. auto. }
  destruct (truthyOpt (env (length log + 1 + 1) q3)) eqn:E3.
  { apply truthyOpt_cover in E3 as (c & E3 & T3). exists 3, c. rewrite E3.
    split; [rewrite length_app; cbn; lia|].
    split; [cbn [firstn app default]; now rewrite <- !app_assoc|].
    split; [earlier_searches|]. left. exists q3. rewrite <- Nat.add_assoc in E3. auto. }
  rewrite <- Nat.add_assoc in E3. cbn [Nat.add] in E3.
  destruct (String.eqb (AudioDb.simplifyArtistName artistName) artistName) eqn:Eq;
    cbn [negb].
  { exists 3, AudioDb.getPlaceholderImage.
    split; [cbn; lia|]. split; [cbn [firstn app]; now rewrite <- !app_assoc|].
    split; [earlier_searches|].
    right. split; [reflexivity|]. split; [reflexivity|].
    intros q Hq. cbn in Hq. now injection Hq as <-. }
  rewrite returnIfCover_truthyOpt, !length_app. cbn [length]. unfold ret.
  destruct (truthyOpt (env (length log + 1 + 1 + 1) q4)) eqn:E4.
  { apply truthyOpt_cover in E4 as (c & E4 & T4). exists 4, c. rewrite E4.
    split; [cbn; lia|].
    split; [cbn [firstn app default]; now rewrite <- !app_assoc|].
    split; [earlier_searches|]. left. exists q4. rewrite <- !Nat.add_assoc in E4. auto. }
  rewrite <- !Nat.add_assoc in E4. cbn [Nat.add] in E4.
  exists 4, AudioDb.getPlaceholderImage.
  split; [cbn; lia|]. split; [cbn [firstn app]; now rewrite <- !app_assoc|].
  split; [earlier_searches|].
  right. split; [reflexivity|]. split; [reflexivity|].
  intros q Hq. cbn in Hq. now injection Hq as <-.
Qed.

(** ** The edit distance of AudioDbService *)

Lemma editDistance_nil_r (s : list ascii) : editDistance s [] = length s.
Proof. destruct s; reflexivity. Qed.

Lemma editDistance_cons (a b : ascii) (s t : list ascii) :
  editDistance (a :: s) (b :: t) =
  Nat.min (Nat.min (editDistance s (b :: t) + 1) (editDistance (a :: s) t + 1))
          (editDistance s t + (if Ascii.eqb a b then 0 else 1)).
Proof. reflexivity. Qed.

Lemma fillRow_spec (rest : string) (p1 p2 : list ascii) (c2 : ascii) :
  AudioDb.fillRow (editDistance p1 (c2 :: p2)) (editDistance p1 p2)
    (map (fun q => editDistance q p2) (revPrefixes p1 rest)) rest c2 =
  map (fun q => editDistance q (c2 :: p2)) (revPrefixes p1 rest).
Proof.
  revert p1. induction rest as [|c1 rest IH]; intros p1; [reflexivity|].
  cbn [revPrefixes map AudioDb.fillRow]. rewrite (editDistance_cons c1 c2 p1 p2).
  f_equal. rewrite <- (editDistance_cons c1 c2 p1 p2). apply IH.
Qed.

Lemma nextRow_spec (str1 : string) (p2 : list ascii) (c2 : ascii) :
  AudioDb.nextRow (S (length p2))
    (map (fun q => editDistance q p2) ([] :: revPrefixes [] str1)) str1 c2 =
  map (fun q => editDistance q (c2 :: p2)) ([] :: revPrefixes [] str1).
Proof.
  cbn [map AudioDb.nextRow]. f_equal.
  exact (fillRow_spec str1 [] p2 c2).
Qed.

Lemma fillRows_spec (str1 str2 : string) (p2 : list ascii) :
  AudioDb.fillRows (length p2)
    (map (fun q => editDistance q p2) ([] :: revPrefixes [] str1)) str1 str2 =
  map (fun q => editDistance q (rev (chars str2) ++ p2)) ([] :: revPrefixes [] str1).
Proof.
  revert p2. induction str2 as [|c2 str2 IH]; intros p2; [reflexivity|].
  cbn [AudioDb.fillRows]. rewrite nextRow_spec.
  change (S (length p2)) with (length (c2 :: p2)). rewrite IH.
  cbn [chars list_ascii_of_string rev]. now rewrite <- app_assoc.
Qed.

Lemma revPrefixes_lengths (p : list ascii) (rest : string) :
  map (fun q => editDistance q []) (revPrefixes p rest) =
  seq (S (length p)) (String.length rest).
Proof.
  revert p. induction rest as [|c rest IH]; intros p; [reflexivity|].
  cbn [revPrefixes map String.length seq]. rewrite editDistance_nil_r. f_equal.
  exact (IH (c :: p)).
Qed.

Lemma revPrefixes_last (p : list ascii) (rest : string) :
  List.last (p :: revPrefixes p rest) [] = rev (chars rest) ++ p.
Proof.
  revert p. induction rest as [|c rest IH]; intros p; [reflexivity|].
  cbn [revPrefixes chars list_ascii_of_string rev].
  rewrite <- app_assoc. cbn [app]. rewrite <- (IH (c :: p)). reflexivity.
Qed.

Lemma last_map {A B} (f : A -> B) (l : list A) (a : A) (b : B) :
  l <> [] -> List.last (map f l) b = f (List.last l a).
Proof.
  induction l as [|x l IH]; [congruence|]. intros _.
  destruct l as [|y l]; [reflexivity|].
  change (List.last (map f (x :: y :: l)) b) with (List.last (map f (y :: l)) b).
  change (List.last (x :: y :: l) a) with (List.last (y :: l) a).
  apply IH. discriminate.
Qed.

Lemma levenshteinDistance_editDistance (str1 str2 : string) :
  AudioDb.levenshteinDistance str1 str2 =
  editDistance (rev (chars str1)) (rev (chars str2)).
Proof.
  unfold AudioDb.levenshteinDistance.
  assert (seq 0 (S (String.length str1)) =
          map (fun q => editDistance q []) ([] :: revPrefixes [] str1)) as ->.
  { cbn [map seq]. f_equal. symmetry. apply revPrefixes_lengths. }
  change 0 with (length (@nil ascii)) at 1. rewrite fillRows_spec.
  rewrite (last_map _ _ []) by discriminate.
  rewrite revPrefixes_last, !app_nil_r. reflexivity.
Qed.

Lemma editDistance_refl (s : list ascii) : editDistance s s = 0.
Proof.
  induction s as [|a s IH]; [reflexivity|].
  rewrite editDistance_cons, IH, Ascii.eqb_refl. lia.
Qed.

Lemma editDistance_sym (s t : list ascii) : editDistance s t = editDistance t s.
Proof.
  revert t. induction s as [|a s IHs]; intros t.
  - now rewrite editDistance_nil_r.
  - induction t as [|b t IHt]; [reflexivity|].
    rewrite !editDistance_cons, IHt, (IHs (b :: t)), (IHs t), (Ascii.eqb_sym a b). lia.
Qed.

Lemma editDistance_bounds (s t : list ascii) :
  length s - length t <= editDistance s t /\
  length t - length s <= editDistance s t /\
  editDistance s t <= Nat.max (length s) (length t).
Proof.
  revert t. induction s as [|a s IHs]; intros t.
  - cbn. lia.
  - induction t as [|b t IHt]; [cbn; lia|].
    rewrite editDistance_cons.
    pose proof (IHs (b :: t)). pose proof (IHs t).
    cbn [length] in *. destruct (Ascii.eqb a b); lia.
Qed.

Lemma editDistance_zero (s t : list ascii) : editDistance s t = 0 -> s = t.
Proof.
  revert t. induction s as [|a s IHs]; intros t.
  - cbn. destruct t; [reflexivity | discriminate].
  - destruct t as [|b t]; [discriminate|].
    rewrite editDistance_cons. intros H.
    destruct (Ascii.eqb_spec a b) as [->|Hne]; [|lia].
    f_equal. apply IHs. lia.
Qed.

Lemma length_rev_chars (s : string) : length (rev (chars s)) = String.length s.
Proof.
  rewrite length_rev. induction s as [|c s IH]; [reflexivity|]. cbn. now rewrite IH.
Qed.

Lemma levenshteinDistance_sym (str1 str2 : string) :
  AudioDb.levenshteinDistance str1 str2 = AudioDb.levenshteinDistance str2 str1.
Proof. rewrite !levenshteinDistance_editDistance. apply editDistance_sym. Qed.

(** X26: [levenshteinDistance] computes the edit distance.  Its matrix
    satisfies the defining recurrence on the last characters: appending one
    character to each string gives the least of (a) one more than the distance
    without the first string's last character, (b) one more than the distance
    without the second string's, (c) the distance without both, plus one when
    the two characters differ.  Hence: the distance to the empty string is the
    length; it is symmetric; it is 0 exactly for equal strings; it lies
    between the difference of the lengths and the greater length. *)
Theorem levenshteinDistance_spec (str1 str2 : string) :
  AudioDb.levenshteinDistance str1 EmptyString = String.length str1 /\
  AudioDb.levenshteinDistance EmptyString str2 = String.length str2 /\
  (forall a b,
     AudioDb.levenshteinDistance (str1 +:+ String a EmptyString) (str2 +:+ String b EmptyString) =
     Nat.min (Nat.min (AudioDb.levenshteinDistance str1 (str2 +:+ String b EmptyString) + 1)
                      (AudioDb.levenshteinDistance (str1 +:+ String a EmptyString) str2 + 1))
             (AudioDb.levenshteinDistance str1 str2 + (if Ascii.eqb a b then 0 else 1))) /\
  AudioDb.levenshteinDistance str1 str2 = AudioDb.levenshteinDistance str2 str1 /\
  (AudioDb.levenshteinDistance str1 str2 = 0 <-> str1 = str2) /\
  String.length str1 - String.length str2 <= AudioDb.levenshteinDistance str1 str2 /\
  String.length str2 - String.length str1 <= AudioDb.levenshteinDistance str1 str2 /\
  AudioDb.levenshteinDistance str1 str2 <= Nat.max (String.length str1) (String.length str2).
Proof.
  rewrite !levenshteinDistance_editDistance.
  pose proof (editDistance_bounds (rev (chars str1)) (rev (chars str2))) as Hb.
  rewrite !length_rev_chars in Hb.
  split; [cbn [chars list_ascii_of_string rev]; now rewrite editDistance_nil_r, length_rev_chars|].
  split; [cbn [chars list_ascii_of_string rev editDistance]; apply length_rev_chars|].
  split.
  { intros a b. rewrite !levenshteinDistance_editDistance, !chars_append.
    cbn [chars list_ascii_of_string]. rewrite !rev_unit. apply editDistance_cons. }
  split; [apply editDistance_sym|].
  split; [|exact Hb].
  split.
  - intros H. apply editDistance_zero in H. apply chars_inj.
    rewrite <- (rev_involutive (chars str1)), H. apply rev_involutive.
  - intros ->. apply editDistance_refl.
Qed.

(** ** Similarity and artist matching *)

Lemma ratio_bounds (len distance : nat) :
  0 < len -> distance <= len ->
  let q := ((inject_Z (Z.of_nat len) - inject_Z (Z.of_nat distance))
            / inject_Z (Z.of_nat len))%Q in
  (0 <= q)%Q /\ (q <= 1)%Q /\ ((q == 1)%Q <-> distance = 0).
Proof.
  intros Hlen Hd. cbv zeta. destruct len as [|n]; [lia|].
  unfold Qdiv, Qminus, Qplus, Qopp, Qmult, Qinv, inject_Z.
  change (Z.of_nat (S n)) with (Z.pos (Pos.of_succ_nat n)).
  cbn [Qnum Qden Pos.mul Z.opp]. unfold Qle, Qeq. cbn [Qnum Qden].
  rewrite ?Pos.mul_1_r, ?Z.mul_1_r, ?Pos.mul_1_l, ?Z.mul_1_l.
  pose proof (Zpos_P_of_succ_nat n) as Hp.
  split; [|split; [|split]]; nia.
Qed.

Lemma truthy_length (s : string) : truthy s = true -> 0 < String.length s.
Proof. destruct s; [discriminate | cbn; lia]. Qed.

Lemma levenshteinDistance_le (longer shorter : string) :
  String.length shorter <= String.length longer ->
  AudioDb.levenshteinDistance longer shorter <= String.length longer.
Proof.
  intros H. rewrite levenshteinDistance_editDistance.
  pose proof (editDistance_bounds (rev (chars longer)) (rev (chars shorter))) as Hb.
  rewrite !length_rev_chars in Hb. lia.
Qed.

(** What [calculateSimilarity] returns for two non-empty strings. *)
Lemma calculateSimilarity_nonempty (str1 str2 : string) :
  truthy str1 = true -> truthy str2 = true ->
  exists longer shorter,
    (longer = str1 /\ shorter = str2 \/ longer = str2 /\ shorter = str1) /\
    String.length shorter <= String.length longer /\ 0 < String.length longer /\
    AudioDb.calculateSimilarity str1 str2 =
      ((inject_Z (Z.of_nat (String.length longer))
        - inject_Z (Z.of_nat (AudioDb.levenshteinDistance longer shorter)))
       / inject_Z (Z.of_nat (String.length longer)))%Q.
Proof.
  intros T1 T2. unfold AudioDb.calculateSimilarity. rewrite T1, T2. cbn [negb orb].
  apply truthy_length in T1, T2.
  destruct (Nat.ltb_spec (String.length str2) (String.length str1)) as [Hlt|Hge].
  - destruct (Nat.leb_spec (String.length str1) (String.length str2)) as [Hle|_]; [lia|].
    exists str1, str2. split; [now left|]. split; [lia|]. split; [lia|].
    destruct (Nat.eqb_spec (String.length str1) 0); [lia | reflexivity].
  - destruct (Nat.leb_spec (String.length str1) (String.length str2)) as [_|Hgt]; [|lia].
    exists str2, str1. split; [now right|]. split; [lia|]. split; [lia|].
    destruct (Nat.eqb_spec (String.length str2) 0); [lia | reflexivity].
Qed.

(** X27: [calculateSimilarity] returns 0 when either string is empty;
    otherwise it is the share of the longer string's length that the edit
    distance leaves, a value between 0 and 1, equal to 1 exactly when the two
    strings are equal; the order of the arguments does not matter. *)
Theorem calculateSimilarity_spec (str1 str2 : string) :
  (str1 = EmptyString \/ str2 = EmptyString -> AudioDb.calculateSimilarity str1 str2 = 0%Q) /\
  (0 <= AudioDb.calculateSimilarity str1 str2 <= 1)%Q /\
  AudioDb.calculateSimilarity str1 str2 = AudioDb.calculateSimilarity str2 str1 /\
  (str1 <> EmptyString -> str2 <> EmptyString ->
   ((AudioDb.calculateSimilarity str1 str2 == 1)%Q <-> str1 = str2)).
Proof.
  assert (Hempty : str1 = EmptyString \/ str2 = EmptyString ->
                   AudioDb.calculateSimilarity str1 str2 = 0%Q).
  { unfold AudioDb.calculateSimilarity. intros [-> | ->]; [reflexivity|].
    now destruct str1. }
  assert (Hsym : AudioDb.calculateSimilarity str1 str2 = AudioDb.calculateSimilarity str2 str1).
  { unfold AudioDb.calculateSimilarity. rewrite (orb_comm (negb (truthy str2))).
    destruct (negb (truthy str1) || negb (truthy str2)); [reflexivity|].
    destruct (Nat.ltb_spec (String.length str2) (String.length str1)) as [Hlt|Hge];
      destruct (Nat.leb_spec (String.length str1) (String.length str2)) as [Hle|Hgt];
      try lia;
      destruct (Nat.ltb_spec (String.length str1) (String.length str2)) as [Hlt'|Hge'];
      destruct (Nat.leb_spec (String.length str2) (String.length str1)) as [Hle'|Hgt'];
      try lia; try reflexivity.
    assert (String.length str1 = String.length str2) as Heq by lia.
    rewrite Heq.
    now rewrite (levenshteinDistance_sym str1 str2). }
  split; [exact Hempty|]. split; [|split; [exact Hsym|]].
  - destruct (truthy str1) eqn:T1; [|destruct str1; [|discriminate]; rewrite Hempty by auto;
                                      split; unfold Qle; cbn; lia].
    destruct (truthy str2) eqn:T2; [|destruct str2; [|discriminate]; rewrite Hempty by auto;
                                      split; unfold Qle; cbn; lia].
    destruct (calculateSimilarity_nonempty str1 str2 T1 T2)
      as (longer & shorter & _ & Hle & Hpos & ->).
    pose proof (ratio_bounds _ _ Hpos (levenshteinDistance_le longer shorter Hle)) as Hr.
    cbv zeta in Hr. tauto.
  - intros N1 N2.
    assert (T1 : truthy str1 = true) by (destruct str1; [congruence | reflexivity]).
    assert (T2 : truthy str2 = true) by (destruct str2; [congruence | reflexivity]).
    destruct (calculateSimilarity_nonempty str1 str2 T1 T2)
      as (longer & shorter & Hcase & Hle & Hpos & ->).
    pose proof (ratio_bounds _ _ Hpos (levenshteinDistance_le longer shorter Hle)) as Hr.
    cbv zeta in Hr. destruct Hr as (_ & _ & ->).
    rewrite levenshteinDistance_editDistance. split.
    + intros H. apply editDistance_zero in H.
      assert (longer = shorter).
      { apply chars_inj. rewrite <- (rev_involutive (chars longer)), H.
        apply rev_involutive. }
      destruct Hcase as [[-> ->]|[-> ->]]; congruence.
    + intros E. assert (longer = shorter) as -> by (destruct Hcase as [[-> ->]|[-> ->]]; congruence).
      apply editDistance_refl.
Qed.

Lemma calculateSimilarity_spec_witness :
  AudioDb.calculateSimilarity "" "Anti-Hero" = 0%Q /\
  ((AudioDb.calculateSimilarity "kitten" "kitten" == 1)%Q <-> "kitten" = "kitten").
Proof.
  split.
  - apply (proj1 (calculateSimilarity_spec "" "Anti-Hero")). now left.
  - apply (proj2 (proj2 (proj2 (calculateSimilarity_spec "kitten" "kitten"))));
      discriminate.
Defined.

Lemma existsb_swap {A B} (f : A -> B -> bool) (la : list A) (lb : list B) :
  existsb (fun a => existsb (fun b => f a b) lb) la =
  existsb (fun b => existsb (fun a => f a b) la) lb.
Proof.
  apply eq_true_iff_eq. rewrite !existsb_exists. split.
  - intros (a & Ha & H). apply existsb_exists in H as (b & Hb & H).
    exists b. split; [exact Hb|]. apply existsb_exists. eauto.
  - intros (b & Hb & H). apply existsb_exists in H as (a & Ha & H).
    exists a. split; [exact Ha|]. apply existsb_exists. eauto.
Qed.

Lemma existsb_same {A} (f g : A -> bool) (l : list A) :
  (forall a, f a = g a) -> existsb f l = existsb g l.
Proof. intros H. induction l as [|a l IH]; [reflexivity|]. cbn. now rewrite H, IH. Qed.

(** X28: [isArtistMatch] does not depend on the order of its arguments; it
    is false when either name is empty and true for two equal non-empty names.
    Only words of more than two characters are compared, so a name made of
    short words only (one or two characters each) matches nothing but
    itself. *)
Theorem isArtistMatch_spec (searchArtist resultArtist : string) :
  AudioDb.isArtistMatch searchArtist resultArtist =
    AudioDb.isArtistMatch resultArtist searchArtist /\
  (searchArtist = EmptyString \/ resultArtist = EmptyString ->
   AudioDb.isArtistMatch searchArtist resultArtist = false) /\
  (searchArtist <> EmptyString -> AudioDb.isArtistMatch searchArtist searchArtist = true) /\
  (Forall (fun word => String.length word <= 2) (AudioDb.split searchArtist) ->
   AudioDb.isArtistMatch searchArtist resultArtist = true -> searchArtist = resultArtist).
Proof.
  split; [|split; [|split]].
  - unfold AudioDb.isArtistMatch.
    rewrite (orb_comm (negb (truthy resultArtist))), (String.eqb_sym resultArtist).
    destruct (negb (truthy searchArtist) || negb (truthy resultArtist)); [reflexivity|].
    destruct (String.eqb searchArtist resultArtist); [reflexivity|].
    rewrite existsb_swap. apply existsb_same. intros rw. apply existsb_same. intros sw.
    apply orb_comm.
  - unfold AudioDb.isArtistMatch. intros [-> | ->]; [reflexivity|].
    now destruct searchArtist.
  - intros N. unfold AudioDb.isArtistMatch.
    destruct searchArtist; [congruence|]. cbn [truthy negb orb].
    now rewrite String.eqb_refl.
  - intros Hshort. unfold AudioDb.isArtistMatch.
    destruct (negb (truthy searchArtist) || negb (truthy resultArtist)); [discriminate|].
    destruct (String.eqb_spec searchArtist resultArtist) as [->|Hne]; [reflexivity|].
    assert (AudioDb.longWords searchArtist = []) as ->; [|discriminate].
    unfold AudioDb.longWords. induction Hshort as [|w l Hw _ IH]; [reflexivity|].
    cbn [List.filter]. destruct (Nat.ltb_spec 2 (String.length w)); [lia | exact IH].
Qed.

Lemma isArtistMatch_spec_witness :
  AudioDb.isArtistMatch "U2" "" = false /\
  AudioDb.isArtistMatch "U2" "U2" = true /\
  (AudioDb.isArtistMatch "U2" "U2 live" = true -> "U2" = "U2 live").
Proof.
  split; [|split].
  - apply (proj1 (proj2 (isArtistMatch_spec "U2" ""))). now right.
  - apply (proj1 (proj2 (proj2 (isArtistMatch_spec "U2" "U2")))). discriminate.
  - apply (proj2 (proj2 (proj2 (isArtistMatch_spec "U2" "U2 live")))).
    repeat constructor.
Defined.

Lemma word_lower (c : ascii) :
  (is_word c = true -> cleanChar (toLowerChar c) = true) /\
  (cleanChar c = true -> Ascii.eqb c " "%char = false).
Proof. destruct c as [[] [] [] [] [] [] [] []]; vm_compute; intuition congruence. Qed.

Lemma simplifyArtistName_chars (artistName : string) :
  Forall (fun c => cleanChar c = true) (chars (AudioDb.simplifyArtistName artistName)).
Proof.
  unfold AudioDb.simplifyArtistName. generalize (AudioDb.firstWord artistName). intros s.
  induction s as [|c s IH]; [constructor|].
  cbn [AudioDb.keepWord]. destruct (is_word c) eqn:Ew; [|exact IH].
  cbn [toLowerCase chars list_ascii_of_string]. constructor; [|exact IH].
  now apply word_lower.
Qed.

Lemma simplifyArtistName_id (s : string) :
  Forall (fun c => cleanChar c = true) (chars s) -> AudioDb.simplifyArtistName s = s.
Proof.
  intros H. unfold AudioDb.simplifyArtistName.
  assert (AudioDb.firstWord s = s) as ->.
  { induction s as [|c s IH]; [reflexivity|]. apply Forall_cons in H as [Hc H].
    cbn [AudioDb.firstWord]. apply word_lower in Hc as ->. now rewrite (IH H). }
  assert (AudioDb.keepWord s = s) as ->.
  { induction s as [|c s IH]; [reflexivity|]. apply Forall_cons in H as [Hc H].
    cbn [AudioDb.keepWord]. apply cleanChar_facts in Hc as (_ & -> & _). now rewrite (IH H). }
  apply toLowerCase_id. eapply Forall_impl; [exact H|]. intros c Hc. now left.
Qed.

(** X29: [simplifyArtistName] returns lower-case ASCII letters, digits and
    underscores only (the first word of the name, stripped and lower-cased);
    simplifying twice changes nothing more; and the simplified name equals the
    artist name, so that the fourth search of [fetchAlbumCoverFromiTunes] is
    skipped, exactly when the artist name itself consists of such characters
    only. *)
Theorem simplifyArtistName_spec (artistName : string) :
  Forall (fun c => cleanChar c = true) (chars (AudioDb.simplifyArtistName artistName)) /\
  AudioDb.simplifyArtistName (AudioDb.simplifyArtistName artistName) =
    AudioDb.simplifyArtistName artistName /\
  (AudioDb.simplifyArtistName artistName = artistName <->
   Forall (fun c => cleanChar c = true) (chars artistName)).
Proof.
  split; [apply simplifyArtistName_chars|].
  split; [apply simplifyArtistName_id, simplifyArtistName_chars|].
  split; [|apply simplifyArtistName_id].
  intros H. rewrite <- H. apply simplifyArtistName_chars.
Qed.

(** ** The match score on exact matches *)

(** C4, as the code has it.  The five increments of the match score are
    independent [if] statements, so the similarity increment and the
    exact-match bonus add up: a candidate whose normalized artist equals the
    requested artist scores 10 + 20 = 30 for the artist, whatever the track
    and the artwork add; one whose normalized track equals the requested
    track scores 8 + 15 = 23 for the track; a candidate that is exact on both
    scores 53, and 58 with artwork. *)
Theorem exact_match_bonuses_stack (r : iTunesTrack) (artist track : string) :
  let resultArtist := cleanSearchTerm (artistName r) in
  let resultTrack := cleanSearchTerm (trackName r) in
  (resultArtist = artist ->
     score artist track r =
       (30 + (trackSimilarity resultTrack track + trackExact resultTrack track)
        + artworkBonus r)%Z) /\
  (resultTrack = track ->
     score artist track r =
       ((artistSimilarity resultArtist artist + artistExact resultArtist artist) + 23
        + artworkBonus r)%Z) /\
  (resultArtist = artist -> resultTrack = track ->
     score artist track r = (53 + artworkBonus r)%Z /\
     (truthy (artworkUrl100 r) = true -> score artist track r = 58%Z)).
Proof.
  cbv zeta.
  assert (Ha : cleanSearchTerm (artistName r) = artist ->
               (artistSimilarity (cleanSearchTerm (artistName r)) artist
                + artistExact (cleanSearchTerm (artistName r)) artist = 30)%Z).
  { intros <-. unfold artistSimilarity, artistExact.
    now rewrite includes_refl, String.eqb_refl. }
  assert (Ht : cleanSearchTerm (trackName r) = track ->
               (trackSimilarity (cleanSearchTerm (trackName r)) track
                + trackExact (cleanSearchTerm (trackName r)) track = 23)%Z).
  { intros <-. unfold trackSimilarity, trackExact.
    now rewrite includes_refl, String.eqb_refl. }
  split; [|split].
  - intros E. specialize (Ha E). unfold score. lia.
  - intros E. specialize (Ht E). unfold score. lia.
  - intros Ea Et. specialize (Ha Ea). specialize (Ht Et).
    split; [unfold score; lia|].
    intros Hart. unfold score, artworkBonus in *. rewrite Hart. lia.
Qed.

Lemma exact_match_bonuses_stack_witness :
  score "taylor swift" "antihero" antiHero = 58%Z /\
  score "taylor swift" "so what" antiHero =
    (30 + (trackSimilarity "antihero" "so what" + trackExact "antihero" "so what")
     + artworkBonus antiHero)%Z.
Proof.
  split.
  - apply (proj2 (proj2 (exact_match_bonuses_stack antiHero "taylor swift" "antihero")));
      reflexivity.
  - apply (proj1 (exact_match_bonuses_stack antiHero "taylor swift" "so what")).
    reflexivity.
Defined.

(** The claim of C4 fails on an exact match.  A candidate that is exact on
    artist and track and has artwork scores 58, not the 20 + 15 + 5 = 40 of
    the claim; the same candidate asked for under another track scores 35,
    not 20 + 5 = 25. *)
Lemma exact_match_not_exclusive :
  cleanSearchTerm (artistName antiHero) = "taylor swift" /\
  cleanSearchTerm (trackName antiHero) = "antihero" /\
  truthy (artworkUrl100 antiHero) = true /\
  score "taylor swift" "antihero" antiHero = 58%Z /\
  score "taylor swift" "antihero" antiHero <> (20 + 15 + 5)%Z /\
  score "taylor swift" "so what" antiHero = 35%Z /\
  score "taylor swift" "so what" antiHero <> (20 + 5)%Z.
Proof. repeat split; vm_compute; congruence. Qed.

(** ** The artwork URL the services return *)

Lemma highQualityArtwork_upgraded (url : string) : upgraded url (highQualityArtwork url).
Proof.
  split; intros H.
  - now apply replace_absent.
  - destruct (first_occurrence_exists _ _ H) as (pre & post & Hfirst).
    exists pre, post. split; [assumption|]. now apply replace_first.
Qed.

(** C8, as the code has it.  When the response to a search carries results,
    [searchTrack] returns (and caches) the artwork URL of the candidate that
    [findBestMatch] selects, and [FastItunesService.getAlbumCover] that of the
    first result with artwork, each passed through the literal substitution:
    the pattern is [100x100bb]; a URL that does not contain it is returned
    unchanged; otherwise its first occurrence, and only that one, becomes
    [600x600bb]. *)
Theorem services_return_upgraded_artwork (net : Network) (artist track : string)
    (w : World) (results : list iTunesTrack) :
  net (length (requests w)) (ITunes.searchTerm artist track) = Json (Some results) ->
  (forall best,
     itunesCache w !! ITunes.cacheKey artist track = None ->
     findBestMatch results (cleanSearchTerm artist) (cleanSearchTerm track) = Some best ->
     truthy (artworkUrl100 best) = true ->
     exists cover w',
       ITunes.searchTrack net artist track w = (Normal (Some cover), w') /\
       upgraded (artworkUrl100 best) cover /\
       itunesCache w' !! ITunes.cacheKey artist track = Some cover) /\
  (forall first,
     fastCache w !! FastItunes.cacheKey artist track = None ->
     find (fun t => truthy (artworkUrl100 t)) results = Some first ->
     exists cover w',
       FastItunes.getAlbumCover net artist track w = (Normal (Some cover), w') /\
       upgraded (artworkUrl100 first) cover /\
       fastCache w' !! FastItunes.cacheKey artist track = Some cover).
Proof.
  intros Hnet. split.
  - intros best Hmiss Hbest Hart.
    assert (Hlen : (0 <? length results)%nat = true).
    { destruct results; [discriminate Hbest | reflexivity]. }
    exists (highQualityArtwork (artworkUrl100 best)). eexists.
    split; [|split; [apply highQualityArtwork_upgraded|]].
    + rewrite (searchTrack_miss net artist track w Hmiss). cbv zeta.
      rewrite Hnet. unfold selectArtwork. rewrite Hlen, Hbest, Hart. reflexivity.
    + cbn. apply lookup_insert_eq.
  - intros first Hmiss Hfirst.
    assert (Hlen : (0 <? length results)%nat = true).
    { destruct results; [discriminate Hfirst | reflexivity]. }
    exists (highQualityArtwork (artworkUrl100 first)). eexists.
    split; [|split; [apply highQualityArtwork_upgraded|]].
    + rewrite (getAlbumCover_miss net artist track w Hmiss). cbv zeta.
      change (cleanSearchTerm artist +:+ " " +:+ cleanSearchTerm track)
        with (ITunes.searchTerm artist track).
      rewrite Hnet. unfold selectFirstArtwork. rewrite Hlen, Hfirst. reflexivity.
    + cbn. apply lookup_insert_eq.
Qed.

Lemma services_return_upgraded_artwork_witness :
  exists cover w',
    ITunes.searchTrack (answering [antiHero]) "Taylor Swift" "Anti-Hero" emptyWorld
      = (Normal (Some cover), w') /\
    upgraded "https://is1-ssl.mzstatic.com/image/thumb/Music/a/100x100bb.jpg" cover /\
    itunesCache w' !! "taylor swift-anti-hero" = Some cover.
Proof.
  apply (proj1 (services_return_upgraded_artwork (answering [antiHero])
                  "Taylor Swift" "Anti-Hero" emptyWorld [antiHero] eq_refl) antiHero);
    reflexivity.
Defined.

(** The claim of C8 fails for a URL that contains [100x100] without the
    suffix [bb]: both services return it as it is. *)
Lemma thumbnail_without_bb_unchanged :
  includes (artworkUrl100 plainThumbnail) "100x100" = true /\
  fst (ITunes.searchTrack (answering [plainThumbnail]) "Taylor Swift" "Anti-Hero" emptyWorld)
    = Normal (Some "https://a.example/img/100x100.jpg") /\
  fst (FastItunes.getAlbumCover (answering [plainThumbnail]) "Taylor Swift" "Anti-Hero"
         emptyWorld)
    = Normal (Some "https://a.example/img/100x100.jpg") /\
  includes "https://a.example/img/100x100.jpg" "600x600" = false.
Proof. repeat split; vm_compute; reflexivity. Qed.

(** ** Repeated searches for one key *)

Lemma settled_step (s s' : ITunesConcurrent.Service) (e : ITunesConcurrent.Event)
    (key cover : string) :
  settled s key cover -> ITunesConcurrent.step s e = Some s' -> settled s' key cover.
Proof.
  intros [Hc Hin]. destruct e as [caller artist track | caller response];
    cbn [ITunesConcurrent.step].
  - destruct (ITunesConcurrent.inflight s !! caller) eqn:Ei; [discriminate|].
    destruct (ITunesConcurrent.returned s !! caller) eqn:Er; [discriminate|].
    unfold ITunes.searchTrack_start.
    destruct (itunesCache (ITunesConcurrent.world s) !! ITunes.cacheKey artist track)
      as [c|] eqn:Ek.
    + intros [= <-]. split; [exact Hc | exact Hin].
    + intros [= <-]. split; [exact Hc|]. cbn [ITunesConcurrent.inflight].
      intros c a t. rewrite lookup_insert. case_decide as Hd.
      * intros [= <- <-] Hk. rewrite Hk in Ek. congruence.
      * apply Hin.
  - destruct (ITunesConcurrent.inflight s !! caller) as [[artist track]|] eqn:Ei;
      [|discriminate].
    rewrite searchTrack_resume_eq. intros [= <-].
    pose proof (Hin _ _ _ Ei) as Hne. split.
    + cbn [ITunesConcurrent.world]. unfold afterSearch.
      destruct (selectArtwork artist track response); [|exact Hc].
      cbn. rewrite lookup_insert_ne; [exact Hc | exact Hne].
    + cbn [ITunesConcurrent.inflight]. intros c a t Hl.
      apply lookup_delete_Some in Hl as [_ Hl]. now apply (Hin c).
Qed.

Lemma settled_run (events : list ITunesConcurrent.Event) (s s' : ITunesConcurrent.Service)
    (key cover : string) :
  settled s key cover -> ITunesConcurrent.run s events = Some s' -> settled s' key cover.
Proof.
  revert s. induction events as [|e events IH]; intros s Hs; cbn [ITunesConcurrent.run].
  - now intros [= <-].
  - destruct (ITunesConcurrent.step s e) as [s1|] eqn:E; [|discriminate].
    apply IH. eapply settled_step; eassumption.
Qed.

Lemma searchTrack_none (net : Network) (artist track : string) (w w1 : World) :
  ITunes.searchTrack net artist track w = (Normal None, w1) ->
  itunesCache w !! ITunes.cacheKey artist track = None /\
  w1 = recordRequest (ITunes.searchTerm artist track) w.
Proof.
  destruct (itunesCache w !! ITunes.cacheKey artist track) as [c|] eqn:E.
  - rewrite (searchTrack_hit net _ _ _ _ E). discriminate.
  - rewrite (searchTrack_miss net _ _ _ E). cbv zeta.
    destruct (selectArtwork _ _ _); [discriminate|]. cbn. now intros [= <-].
Qed.

(** C2, as the code has it.  For calls made one after another: a successful
    [searchTrack] is cached, and after it, whatever calls follow short of
    [clearCache], the same search returns the same cover and leaves the world
    as it is, so no request is issued; a search that found nothing caches
    nothing, and the next search for the same artist and track issues the same
    request again.  For calls that overlap: once a key has a cover in the
    cache and no call for that key is still waiting for its response, the
    entry stays through any further calls and responses, and every call for
    that key returns that cover at once, issuing no request.  (A call that was
    already waiting when the key was cached writes its own result over the
    entry when its response arrives.)  In the hook, [loadCover] always
    completes, a call that passes the guard marks its key attempted whether or
    not a cover came back, and a callback that sees the key attempted returns
    at once without touching the service. *)
Theorem settled_key_not_requested_again (net : Network) :
  (forall artist track cover w w1 ops,
     ITunes.searchTrack net artist track w = (Normal (Some cover), w1) ->
     forallb (fun op => negb (ITunes.isClear op)) ops = true ->
     let w2 := ITunes.runOps net ops w1 in
     ITunes.searchTrack net artist track w2 = (Normal (Some cover), w2)) /\
  (forall artist track w w1,
     ITunes.searchTrack net artist track w = (Normal None, w1) ->
     itunesCache w1 = itunesCache w /\
     requests w1 = requests w ++ [ITunes.searchTerm artist track] /\
     requests (snd (ITunes.searchTrack net artist track w1)) =
       requests w ++ [ITunes.searchTerm artist track; ITunes.searchTerm artist track]) /\
  (forall s key cover events s',
     settled s key cover -> ITunesConcurrent.run s events = Some s' ->
     settled s' key cover /\
     forall caller artist track,
       ITunes.cacheKey artist track = key ->
       ITunesConcurrent.inflight s' !! caller = None ->
       ITunesConcurrent.returned s' !! caller = None ->
       ITunesConcurrent.step s' (ITunesConcurrent.SearchTrack caller artist track) =
       Some {| ITunesConcurrent.world := ITunesConcurrent.world s';
               ITunesConcurrent.inflight := ITunesConcurrent.inflight s';
               ITunesConcurrent.returned :=
                 <[caller := Some cover]> (ITunesConcurrent.returned s') |}) /\
  (forall cl song st,
     exists st', FastHook.loadCover net cl song st = (Normal tt, st') /\
       (FastHook.skips cl (fst st) (FastHook.getCacheKey song) = false ->
        FastHook.getCacheKey song ∈ FastHook.attemptedLoads (fst st'))) /\
  (forall cl song st,
     FastHook.getCacheKey song ∈ FastHook.seenAttempted cl ->
     FastHook.loadCover net cl song st = (Normal tt, st)).
Proof.
  split; [|split; [|split; [|split]]].
  - intros artist track cover w w1 ops Hs Hops w2.
    apply searchTrack_hit. apply runOps_keeps; [exact Hops|].
    eapply searchTrack_caches; eassumption.
  - intros artist track w w1 Hs.
    destruct (searchTrack_none net artist track w w1 Hs) as [Hmiss ->].
    split; [reflexivity|]. split; [reflexivity|].
    rewrite (searchTrack_miss net artist track
               (recordRequest (ITunes.searchTerm artist track) w) Hmiss).
    cbv zeta. cbn [snd].
    destruct (selectArtwork _ _ _); cbn; now rewrite <- app_assoc.
  - intros s key cover events s' Hs Hrun.
    pose proof (settled_run events s s' key cover Hs Hrun) as Hs'.
    split; [exact Hs'|].
    intros caller artist track Hk Hi Hr. cbn [ITunesConcurrent.step].
    rewrite Hi, Hr. unfold ITunes.searchTrack_start. rewrite Hk, (proj1 Hs'). reflexivity.
  - intros cl song st.
    destruct (FastHook.skips cl (fst st) (FastHook.getCacheKey song)) eqn:E.
    + exists st. split; [now apply loadCover_skipped | discriminate].
    + destruct (loadCover_run net cl song st E) as (cover & w' & _ & Hrun).
      eexists. split; [exact Hrun|]. intros _. cbn. set_solver.
  - intros cl song st H. apply loadCover_skipped.
    unfold FastHook.skips, setHas. rewrite bool_decide_eq_true_2 by assumption. reflexivity.
Qed.

Lemma settled_key_not_requested_again_witness :
  (let w1 := snd (ITunes.searchTrack (answering [antiHero]) "Taylor Swift" "Anti-Hero"
                    emptyWorld) in
   let w2 := ITunes.runOps (answering [antiHero])
               [ITunes.OpSearchTrack "Miles Davis" "So What";
                ITunes.OpGetFallbackArtwork "Miles Davis" "So What"] w1 in
   ITunes.searchTrack (answering [antiHero]) "Taylor Swift" "Anti-Hero" w2 =
   (Normal (Some "https://is1-ssl.mzstatic.com/image/thumb/Music/a/600x600bb.jpg"), w2)) /\
  (exists s s',
     ITunesConcurrent.run ITunesConcurrent.initial antiHeroSettled = Some s /\
     ITunesConcurrent.run s
       [ITunesConcurrent.SearchTrack 2 "Miles Davis" "So What";
        ITunesConcurrent.SearchTrack 3 "TAYLOR SWIFT" "anti-hero";
        ITunesConcurrent.Respond 2 (Json (Some [unrelated]))] = Some s' /\
     settled s' "taylor swift-anti-hero"
       "https://is1-ssl.mzstatic.com/image/thumb/Music/a/600x600bb.jpg").
Proof.
  split.
  - cbv zeta.
    apply (proj1 (settled_key_not_requested_again (answering [antiHero]))
             "Taylor Swift" "Anti-Hero" _ emptyWorld).
    + vm_compute. reflexivity.
    + reflexivity.
  - destruct (ITunesConcurrent.run ITunesConcurrent.initial antiHeroSettled) as [s|] eqn:Es;
      [|vm_compute in Es; discriminate].
    assert (Hs : settled s "taylor swift-anti-hero"
                   "https://is1-ssl.mzstatic.com/image/thumb/Music/a/600x600bb.jpg").
    { assert (Hin : ITunesConcurrent.inflight s = ∅).
      { vm_compute in Es. injection Es as <-. vm_compute. reflexivity. }
      split; [vm_compute in Es; injection Es as <-; vm_compute; reflexivity|].
      intros caller artist track H. rewrite Hin, lookup_empty in H. discriminate. }
    exists s.
    destruct (ITunesConcurrent.run s
                [ITunesConcurrent.SearchTrack 2 "Miles Davis" "So What";
                 ITunesConcurrent.SearchTrack 3 "TAYLOR SWIFT" "anti-hero";
                 ITunesConcurrent.Respond 2 (Json (Some [unrelated]))]) as [s'|] eqn:Es'.
    + exists s'. split; [reflexivity|]. split; [reflexivity|].
      exact (proj1 (proj1 (proj2 (proj2
               (settled_key_not_requested_again (answering [antiHero]))))
               s _ _ _ s' Hs Es')).
    + exfalso. vm_compute in Es. injection Es as <-. vm_compute in Es'. discriminate.
Defined.

(** The claim of C2 fails in two ways.  A lookup that failed is not cached:
    the next call for the same key issues a second request.  And two calls
    for one key that overlap both issue a request, and the response that
    arrives last replaces the cover the first caller was given: a later call
    returns another cover than the first. *)
Lemma key_is_requested_again :
  (let first := ITunes.searchTrack unreachableNet "Taylor Swift" "Anti-Hero" emptyWorld in
   let second := ITunes.searchTrack unreachableNet "Taylor Swift" "Anti-Hero" (snd first) in
   fst first = Normal None /\
   requests (snd first) = ["taylor swift antihero"] /\
   fst second = Normal None /\
   requests (snd second) = ["taylor swift antihero"; "taylor swift antihero"]) /\
  (exists s,
     ITunesConcurrent.run ITunesConcurrent.initial
       [ITunesConcurrent.SearchTrack 1 "Taylor Swift" "Anti-Hero";
        ITunesConcurrent.SearchTrack 2 "Taylor Swift" "Anti-Hero";
        ITunesConcurrent.Respond 1 (Json (Some [antiHero]));
        ITunesConcurrent.Respond 2 (Json (Some [antiHeroLive]));
        ITunesConcurrent.SearchTrack 3 "Taylor Swift" "Anti-Hero"] = Some s /\
     requests (ITunesConcurrent.world s) = ["taylor swift antihero"; "taylor swift antihero"] /\
     ITunesConcurrent.returned s !! 1 =
       Some (Some "https://is1-ssl.mzstatic.com/image/thumb/Music/a/600x600bb.jpg") /\
     ITunesConcurrent.returned s !! 3 =
       Some (Some "https://is1-ssl.mzstatic.com/image/thumb/Music/c/600x600bb.jpg")).
Proof.
  split; [vm_compute; repeat split; reflexivity|].
  eexists. split; [vm_compute; reflexivity|]. repeat split; vm_compute; reflexivity.
Qed.

(** ** What the updater puts into the albums *)






(** ** The fallback image beyond Latin-1 *)

Lemma toLatin1_ofString (s : string) : CodeUnits.toLatin1 (CodeUnits.ofString s) = Some s.
Proof.
  induction s as [|c s IH]; [reflexivity|].
  change (CodeUnits.ofString (String c s)) with (code c :: CodeUnits.ofString s).
  cbn [CodeUnits.toLatin1]. rewrite IH.
  assert (code c < 256)%N as Hlt by (unfold code; apply N_ascii_bounded).
  apply N.ltb_lt in Hlt. rewrite Hlt. unfold code. now rewrite ascii_N_embedding.
Qed.

Lemma ofString_append (a b : string) :
  CodeUnits.ofString (a +:+ b) = CodeUnits.ofString a ++ CodeUnits.ofString b.
Proof. unfold CodeUnits.ofString. now rewrite chars_append, map_app. Qed.

Lemma ofString_length (s : string) : length (CodeUnits.ofString s) = String.length s.
Proof.
  unfold CodeUnits.ofString. rewrite length_map.
  induction s as [|c s IH]; [reflexivity|]. cbn. now rewrite IH.
Qed.

Lemma ofString_take (n : nat) (s : string) :
  firstn n (CodeUnits.ofString s) = CodeUnits.ofString (JsString.take n s).
Proof.
  revert s. induction n as [|n IH]; intros s; [now destruct s|].
  destruct s as [|c s]; [reflexivity|].
  change (CodeUnits.ofString (String c s)) with (code c :: CodeUnits.ofString s).
  cbn [firstn JsString.take]. rewrite IH. reflexivity.
Qed.

Lemma toLatin1_app (a b : CodeUnits.JsText) :
  CodeUnits.toLatin1 (a ++ b) =
  match CodeUnits.toLatin1 a, CodeUnits.toLatin1 b with
  | Some x, Some y => Some (x +:+ y)
  | _, _ => None
  end.
Proof.
  induction a as [|n a IH]; cbn [app CodeUnits.toLatin1].
  - now destruct (CodeUnits.toLatin1 b).
  - destruct (n <? 256)%N; [|reflexivity]. rewrite IH.
    destruct (CodeUnits.toLatin1 a), (CodeUnits.toLatin1 b); reflexivity.
Qed.

Lemma toLatin1_None (t : CodeUnits.JsText) :
  CodeUnits.toLatin1 t = None <-> beyondLatin1 t.
Proof.
  unfold beyondLatin1. induction t as [|n t IH]; cbn [CodeUnits.toLatin1].
  - split; [discriminate | intros H; inversion H].
  - rewrite Exists_cons. destruct (N.ltb_spec n 256) as [Hlt|Hge].
    + destruct (CodeUnits.toLatin1 t).
      * split; [discriminate|]. intros [H|H]; [lia|]. now apply IH in H.
      * split; [intros _; right; now apply IH | reflexivity].
    + split; [intros _; now left | reflexivity].
Qed.

Lemma simpleHash_ofString (s : string) :
  CodeUnits.simpleHash (CodeUnits.ofString s) = simpleHash s.
Proof.
  unfold CodeUnits.simpleHash, simpleHash. f_equal. generalize 0%Z.
  induction s as [|c s IH]; intros h; [reflexivity|].
  change (CodeUnits.ofString (String c s)) with (code c :: CodeUnits.ofString s).
  cbn [fold_left hashLoop]. rewrite IH. reflexivity.
Qed.

Lemma truncate_ofString (s : string) (maxLength : Z) :
  CodeUnits.truncate (CodeUnits.ofString s) maxLength = CodeUnits.ofString (truncate s maxLength).
Proof.
  unfold CodeUnits.truncate, truncate, substring0. rewrite ofString_length.
  destruct (maxLength <? Z.of_nat (String.length s))%Z; [|reflexivity].
  now rewrite ofString_append, ofString_take.
Qed.

Lemma svgDocument_ofString (artist trackTitle : string) :
  CodeUnits.svgDocument (CodeUnits.ofString artist) (CodeUnits.ofString trackTitle) =
  CodeUnits.ofString (svgDocument artist trackTitle).
Proof.
  unfold CodeUnits.svgDocument, svgDocument, CodeUnits.palette, palette.
  rewrite <- ofString_append, simpleHash_ofString, !truncate_ofString.
  cbv zeta. cbn [hue saturation lightness].
  now rewrite !ofString_append.
Qed.

Lemma getFallbackArtwork_ofString (artist trackTitle : string) :
  CodeUnits.getFallbackArtwork (CodeUnits.ofString artist) (CodeUnits.ofString trackTitle) =
  Normal (getFallbackArtwork artist trackTitle).
Proof.
  unfold CodeUnits.getFallbackArtwork, CodeUnits.btoa.
  now rewrite svgDocument_ofString, toLatin1_ofString.
Qed.

Lemma svgDocument_latin1 (artist trackTitle : CodeUnits.JsText) :
  CodeUnits.toLatin1 (CodeUnits.svgDocument artist trackTitle) = None <->
  beyondLatin1 (CodeUnits.truncate artist 20 ++ CodeUnits.truncate trackTitle 25).
Proof.
  rewrite <- toLatin1_None. unfold CodeUnits.svgDocument. cbv zeta.
  rewrite !toLatin1_app, !toLatin1_ofString.
  destruct (CodeUnits.toLatin1 (CodeUnits.truncate artist 20)),
           (CodeUnits.toLatin1 (CodeUnits.truncate trackTitle 25));
    split; congruence.
Qed.

Lemma getFallbackArtwork_throws (artist trackTitle : CodeUnits.JsText) :
  (CodeUnits.getFallbackArtwork artist trackTitle = Throw InvalidCharacter <->
   beyondLatin1 (CodeUnits.truncate artist 20 ++ CodeUnits.truncate trackTitle 25)) /\
  (CodeUnits.getFallbackArtwork artist trackTitle = Throw InvalidCharacter \/
   exists image, CodeUnits.getFallbackArtwork artist trackTitle = Normal image).
Proof.
  rewrite <- svgDocument_latin1. unfold CodeUnits.getFallbackArtwork, CodeUnits.btoa.
  destruct (CodeUnits.toLatin1 (CodeUnits.svgDocument artist trackTitle)).
  - split; [split; discriminate | right; eauto].
  - split; [split; reflexivity | now left].
Qed.

(** ** Errors and the loaders *)

Lemma loadAlbumCoverProgressive_fresh (env : AudioDb.Searches) (songTitle artistName : string)
    (onCoverLoaded : AudioDbCalls.Callback) (priority : AudioDb.Priority)
    (s : AudioDbCalls.State) :
  let key := AudioDb.cacheKey songTitle artistName in
  let placeholder := AudioDb.getPlaceholderImage in
  AudioDbCalls.cache s !! key = None -> AudioDbCalls.requestQueue s !! key = None ->
  exists result s',
    fst (AudioDb.fetchAlbumCoverFromiTunes env songTitle artistName (AudioDbCalls.searches s))
      = Normal result /\
    truthy result = true /\
    AudioDbCalls.loadAlbumCoverProgressive env songTitle artistName onCoverLoaded priority s =
      (afterCallback (onCoverLoaded (AudioDbCalls.delivered s) result) (Normal tt)
         (onCoverLoaded (AudioDbCalls.delivered s ++ [result]) placeholder), s') /\
    AudioDbCalls.cache s' !! key =
      Some (afterCallback (onCoverLoaded (AudioDbCalls.delivered s) result)
              result placeholder) /\
    AudioDbCalls.requestQueue s' !! key = None /\
    AudioDbCalls.delivered s' =
      AudioDbCalls.delivered s
      ++ afterCallback (onCoverLoaded (AudioDbCalls.delivered s) result)
           [result] [result; placeholder].
Proof.
  cbv zeta. intros Hc Hq.
  destruct (fetchAlbumCoverFromiTunes_normal env songTitle artistName (AudioDbCalls.searches s))
    as (result & log' & E & Ht).
  exists result. unfold AudioDbCalls.loadAlbumCoverProgressive. rewrite Hc, Hq.
  unfold AudioDbCalls.startRequest, bind, tryFinally, tryCatch, modify, liftCompletion,
    AudioDbCalls.call. rewrite E. cbv beta iota zeta.
  cbn [AudioDbCalls.setCache AudioDbCalls.setQueue AudioDbCalls.cache
       AudioDbCalls.requestQueue AudioDbCalls.searches AudioDbCalls.delivered].
  destruct (onCoverLoaded (AudioDbCalls.delivered s) result) as [[]|e] eqn:Ecb;
    cbv beta iota zeta;
    cbn [AudioDbCalls.setCache AudioDbCalls.setQueue AudioDbCalls.cache
         AudioDbCalls.requestQueue AudioDbCalls.searches AudioDbCalls.delivered
         afterCallback fst].
  - eexists. split; [reflexivity|]. split; [exact Ht|]. split; [reflexivity|].
    cbn [AudioDbCalls.cache AudioDbCalls.requestQueue AudioDbCalls.delivered].
    split; [apply lookup_insert_eq|]. split; [apply lookup_delete_eq | reflexivity].
  - eexists. split; [reflexivity|]. split; [exact Ht|]. split; [reflexivity|].
    cbn [AudioDbCalls.cache AudioDbCalls.requestQueue AudioDbCalls.delivered].
    split; [apply lookup_insert_eq|]. split; [apply lookup_delete_eq|].
    now rewrite <- app_assoc.
Qed.

Lemma loadAlbumCoverProgressive_normal (env : AudioDb.Searches) (songTitle artistName : string)
    (onCoverLoaded : AudioDbCalls.Callback) (priority : AudioDb.Priority)
    (s : AudioDbCalls.State) :
  (forall history cover, onCoverLoaded history cover = Normal tt) ->
  exists cover s',
    AudioDbCalls.loadAlbumCoverProgressive env songTitle artistName onCoverLoaded priority s
      = (Normal tt, s') /\
    AudioDbCalls.delivered s' = AudioDbCalls.delivered s ++ [cover].
Proof.
  intros Hcb.
  destruct (AudioDbCalls.cache s !! AudioDb.cacheKey songTitle artistName) as [c|] eqn:Hc.
  { exists c. unfold AudioDbCalls.loadAlbumCoverProgressive. rewrite Hc.
    unfold AudioDbCalls.call. rewrite Hcb. eexists. split; reflexivity. }
  destruct (AudioDbCalls.requestQueue s !! AudioDb.cacheKey songTitle artistName)
    as [queued|] eqn:Hq.
  { unfold AudioDbCalls.loadAlbumCoverProgressive. rewrite Hc, Hq.
    unfold tryCatch, bind, liftCompletion, AudioDbCalls.call.
    destruct queued as [v|e]; cbv beta iota zeta; rewrite Hcb;
      eexists _, _; split; reflexivity. }
  destruct (loadAlbumCoverProgressive_fresh env songTitle artistName onCoverLoaded priority s
              Hc Hq) as (result & s' & _ & _ & Hrun & _ & _ & Hd).
  rewrite Hcb in Hrun, Hd. exists result, s'. split; [exact Hrun | exact Hd].
Qed.

(** C3, as the code has it, for strings of Latin-1 code units.  No failure of
    the external lookup reaches a caller: [searchTrack] always completes (with
    null when the lookup failed) and [loadAlbumCover] always completes,
    aborted or not.  A load whose guard finds the key loaded, loading, failed
    or queued returns at once and changes nothing.  A load that passes its
    guard and is not aborted settles
    the song's key, and what it stores is exactly: the cover the search found,
    when its preload succeeds; the generated fallback, with the key added to
    [failedCovers], when the preload of a found cover fails; the generated
    fallback, with [failedCovers] left as it was, when the search found
    nothing.  A load that is aborted before its search result is used, or
    during a preload that fails, stores nothing and leaves the key in
    [loadingCovers].  In AudioDbService [fetchAlbumCoverFromiTunes] always
    completes with a usable image; [loadAlbumCoverProgressive] completes
    whenever the callback does, after one call of the callback; when on a
    fresh key the callback throws, the [catch] block caches the placeholder
    and calls the callback again, and the call ends as that second call ends.
    Beyond Latin-1, [getFallbackArtwork] returns the same image as on Latin-1
    strings when all code units are below 256, and throws exactly when the
    truncated artist or title holds a code unit above 0xFF. *)
Theorem lookup_errors_absorbed (net : Network) :
  (forall artist track w,
     exists found w', ITunes.searchTrack net artist track w = (Normal found, w')) /\
  (forall image abort seen song st,
     exists st', LazyHook.loadAlbumCover net image abort seen song st = (Normal tt, st')) /\
  (forall image abort seen song st,
     lazySkips seen st song = true ->
     LazyHook.loadAlbumCover net image abort seen song st = (Normal tt, st)) /\
  (forall image seen song st found w1,
     lazySkips seen st song = false ->
     ITunes.searchTrack net (AlbumData.artist song) (AlbumData.title song) (LazyHook.world st)
       = (Normal found, w1) ->
     let key := LazyHook.songKey song in
     let fallback := getFallbackArtwork (AlbumData.artist song) (AlbumData.title song) in
     exists st',
       LazyHook.loadAlbumCover net image LazyHook.NoAbort seen song st = (Normal tt, st') /\
       LazyHook.world st' = w1 /\
       (key ∉ LazyHook.loadingCovers (LazyHook.state st')) /\
       (key ∉ LazyHook.loadingQueue st') /\
       (forall cover, found = Some cover -> truthy cover = true ->
          preloadFails image cover = false ->
          LazyHook.loadedCovers (LazyHook.state st') !! key = Some cover /\
          LazyHook.failedCovers (LazyHook.state st') = LazyHook.failedCovers (LazyHook.state st)) /\
       (forall cover, found = Some cover -> truthy cover = true ->
          preloadFails image cover = true ->
          LazyHook.loadedCovers (LazyHook.state st') !! key = Some fallback /\
          LazyHook.failedCovers (LazyHook.state st') =
            LazyHook.failedCovers (LazyHook.state st) ∪ {[key]}) /\
       (truthyOpt found = false ->
          LazyHook.loadedCovers (LazyHook.state st') !! key = Some fallback /\
          LazyHook.failedCovers (LazyHook.state st') = LazyHook.failedCovers (LazyHook.state st))) /\
  (forall image abort seen song st found w1,
     lazySkips seen st song = false ->
     ITunes.searchTrack net (AlbumData.artist song) (AlbumData.title song) (LazyHook.world st)
       = (Normal found, w1) ->
     let fallback := getFallbackArtwork (AlbumData.artist song) (AlbumData.title song) in
     abort = LazyHook.AbortBeforeSearch \/ abort = LazyHook.AbortDuringSearch \/
     (abort = LazyHook.AbortDuringPreload /\
      preloadFails image (orElse found fallback) = true) ->
     exists st',
       LazyHook.loadAlbumCover net image abort seen song st = (Normal tt, st') /\
       LazyHook.loadedCovers (LazyHook.state st') = LazyHook.loadedCovers (LazyHook.state st) /\
       LazyHook.failedCovers (LazyHook.state st') = LazyHook.failedCovers (LazyHook.state st) /\
       LazyHook.songKey song ∈ LazyHook.loadingCovers (LazyHook.state st')) /\
  (forall env songTitle artistName log,
     exists cover log',
       AudioDb.fetchAlbumCoverFromiTunes env songTitle artistName log = (Normal cover, log') /\
       truthy cover = true) /\
  (forall env songTitle artistName onCoverLoaded priority s,
     (forall history cover, onCoverLoaded history cover = Normal tt) ->
     exists cover s',
       AudioDbCalls.loadAlbumCoverProgressive env songTitle artistName onCoverLoaded priority s
         = (Normal tt, s') /\
       AudioDbCalls.delivered s' = AudioDbCalls.delivered s ++ [cover]) /\
  (forall env songTitle artistName onCoverLoaded priority s,
     let key := AudioDb.cacheKey songTitle artistName in
     let placeholder := AudioDb.getPlaceholderImage in
     AudioDbCalls.cache s !! key = None -> AudioDbCalls.requestQueue s !! key = None ->
     exists result s',
       fst (AudioDb.fetchAlbumCoverFromiTunes env songTitle artistName (AudioDbCalls.searches s))
         = Normal result /\
       truthy result = true /\
       AudioDbCalls.loadAlbumCoverProgressive env songTitle artistName onCoverLoaded priority s =
         (afterCallback (onCoverLoaded (AudioDbCalls.delivered s) result) (Normal tt)
            (onCoverLoaded (AudioDbCalls.delivered s ++ [result]) placeholder), s') /\
       AudioDbCalls.cache s' !! key =
         Some (afterCallback (onCoverLoaded (AudioDbCalls.delivered s) result)
                 result placeholder) /\
       AudioDbCalls.requestQueue s' !! key = None /\
       AudioDbCalls.delivered s' =
         AudioDbCalls.delivered s
         ++ afterCallback (onCoverLoaded (AudioDbCalls.delivered s) result)
              [result] [result; placeholder]) /\
  (forall artist trackTitle : string,
     CodeUnits.getFallbackArtwork (CodeUnits.ofString artist) (CodeUnits.ofString trackTitle) =
     Normal (getFallbackArtwork artist trackTitle)) /\
  (forall artist trackTitle : CodeUnits.JsText,
     (CodeUnits.getFallbackArtwork artist trackTitle = Throw InvalidCharacter <->
      beyondLatin1 (CodeUnits.truncate artist 20 ++ CodeUnits.truncate trackTitle 25)) /\
     (CodeUnits.getFallbackArtwork artist trackTitle = Throw InvalidCharacter \/
      exists image, CodeUnits.getFallbackArtwork artist trackTitle = Normal image)).
Proof.
  split; [apply searchTrack_normal|].
  split; [apply loadAlbumCover_normal|].
  split; [intros image abort seen song st; apply loadAlbumCover_skips|].
  split; [|split; [|split; [apply fetchAlbumCoverFromiTunes_normal|
          split; [apply loadAlbumCoverProgressive_normal|
          split; [apply loadAlbumCoverProgressive_fresh|
          split; [apply getFallbackArtwork_ofString | apply getFallbackArtwork_throws]]]]]].
  - intros image seen song st found w1 Hskip E key fallback.
    pose proof (fallback_is_data_url (AlbumData.artist song) (AlbumData.title song))
      as [Hdata Htruthy]. fold fallback in Hdata, Htruthy.
    eexists. split; [exact (loadAlbumCover_settles net image seen song st found w1 Hskip E)|].
    cbn [LazyHook.state LazyHook.world LazyHook.loadingQueue].
    split; [reflexivity|]. fold key. unfold settledState. fold key fallback.
    split; [destruct (preloadFails image (orElse found fallback)); cbn; set_solver|].
    split; [set_solver|].
    split; [|split].
    + intros cover -> Ht Hp. unfold orElse. rewrite Ht, Hp.
      cbn [LazyHook.storeLoaded LazyHook.markLoading LazyHook.loadedCovers
           LazyHook.failedCovers].
      split; [apply lookup_insert_eq | reflexivity].
    + intros cover -> Ht Hp. unfold orElse. rewrite Ht, Hp.
      cbn [LazyHook.storeFailed LazyHook.markLoading LazyHook.loadedCovers
           LazyHook.failedCovers].
      split; [apply lookup_insert_eq | reflexivity].
    + intros Hf. rewrite (orElse_falsy _ _ Hf), (preloadFails_data _ _ Hdata).
      cbn [LazyHook.storeLoaded LazyHook.markLoading LazyHook.loadedCovers
           LazyHook.failedCovers].
      split; [apply lookup_insert_eq | reflexivity].
  - intros image abort seen song st found w1 Hskip E fallback Habort.
    eexists. split; [exact (loadAlbumCover_runs net image abort seen song st found w1 Hskip E)|].
    cbn [LazyHook.state].
    assert (Hf : finalState image abort song found (LazyHook.state st) =
                 LazyHook.markLoading (LazyHook.songKey song) (LazyHook.state st)).
    { destruct Habort as [-> | [-> | [-> Hp]]]; try reflexivity.
      unfold finalState. fold fallback. now rewrite Hp. }
    rewrite Hf. cbn [LazyHook.markLoading LazyHook.loadedCovers LazyHook.loadingCovers
                     LazyHook.failedCovers].
    split; [reflexivity|]. split; [reflexivity|]. set_solver.
Qed.

Lemma lookup_errors_absorbed_witness :
  (exists st',
     LazyHook.loadAlbumCover (answering [antiHero]) (fun _ => LazyHook.ImageLoaded)
       LazyHook.NoAbort LazyHook.initial sampleSong freshLazy = (Normal tt, st') /\
     LazyHook.loadedCovers (LazyHook.state st') !! "Taylor Swift-Anti-Hero" =
       Some "https://is1-ssl.mzstatic.com/image/thumb/Music/a/600x600bb.jpg") /\
  (exists st',
     LazyHook.loadAlbumCover (answering [antiHero]) (fun _ => LazyHook.ImageError)
       LazyHook.NoAbort LazyHook.initial sampleSong freshLazy = (Normal tt, st') /\
     LazyHook.loadedCovers (LazyHook.state st') !! "Taylor Swift-Anti-Hero" =
       Some (getFallbackArtwork "Taylor Swift" "Anti-Hero") /\
     LazyHook.failedCovers (LazyHook.state st') = ∅ ∪ {["Taylor Swift-Anti-Hero"]}) /\
  (exists cover s',
     AudioDbCalls.loadAlbumCoverProgressive (fun _ _ => None) "Anti-Hero" "Taylor Swift"
       (fun _ _ => Normal tt) AudioDb.high freshAudioDb = (Normal tt, s') /\
     AudioDbCalls.delivered s' = [] ++ [cover]).
Proof.
  pose proof (lookup_errors_absorbed (answering [antiHero]))
    as (_ & _ & _ & H3 & _ & _ & H6 & _).
  split; [|split].
  - destruct (H3 (fun _ => LazyHook.ImageLoaded) LazyHook.initial sampleSong freshLazy
                (Some "https://is1-ssl.mzstatic.com/image/thumb/Music/a/600x600bb.jpg")
                (snd (ITunes.searchTrack (answering [antiHero]) "Taylor Swift" "Anti-Hero"
                        emptyWorld)))
      as (st' & Hrun & _ & _ & _ & Hfound & _).
    + reflexivity.
    + vm_compute. reflexivity.
    + exists st'. split; [exact Hrun|]. exact (proj1 (Hfound _ eq_refl eq_refl eq_refl)).
  - destruct (H3 (fun _ => LazyHook.ImageError) LazyHook.initial sampleSong freshLazy
                (Some "https://is1-ssl.mzstatic.com/image/thumb/Music/a/600x600bb.jpg")
                (snd (ITunes.searchTrack (answering [antiHero]) "Taylor Swift" "Anti-Hero"
                        emptyWorld)))
      as (st' & Hrun & _ & _ & _ & _ & Hfailed & _).
    + reflexivity.
    + vm_compute. reflexivity.
    + exists st'. split; [exact Hrun|]. exact (Hfailed _ eq_refl eq_refl eq_refl).
  - apply H6. reflexivity.
Defined.

(** The claim of C3 fails in three ways.  When the lookup fails, the fallback
    is stored as the song's cover like any found cover, and the key is not
    recorded as failed.  When the load is aborted during its search, nothing
    is stored for the song, not even the cover the search found, and the key
    stays in [loadingCovers], so that a later load of the song that sees this
    state returns at once.  And for an artist written beyond Latin-1 the
    fallback image cannot be generated: [getFallbackArtwork] throws. *)
Lemma load_without_mark_or_cover :
  (let run := LazyHook.loadAlbumCover unreachableNet (fun _ => LazyHook.ImageLoaded)
                LazyHook.NoAbort LazyHook.initial sampleSong freshLazy in
   fst run = Normal tt /\
   requests (LazyHook.world (snd run)) = ["taylor swift antihero"] /\
   LazyHook.loadedCovers (LazyHook.state (snd run)) !! LazyHook.songKey sampleSong
     = Some (getFallbackArtwork "Taylor Swift" "Anti-Hero") /\
   setHas (LazyHook.failedCovers (LazyHook.state (snd run))) (LazyHook.songKey sampleSong)
     = false) /\
  (let run := LazyHook.loadAlbumCover (answering [antiHero]) (fun _ => LazyHook.ImageLoaded)
                LazyHook.AbortDuringSearch LazyHook.initial sampleSong freshLazy in
   fst run = Normal tt /\
   itunesCache (LazyHook.world (snd run)) !! "taylor swift-anti-hero"
     = Some "https://is1-ssl.mzstatic.com/image/thumb/Music/a/600x600bb.jpg" /\
   LazyHook.loadedCovers (LazyHook.state (snd run)) !! LazyHook.songKey sampleSong = None /\
   setHas (LazyHook.loadingCovers (LazyHook.state (snd run))) (LazyHook.songKey sampleSong)
     = true /\
   LazyHook.loadAlbumCover (answering [antiHero]) (fun _ => LazyHook.ImageLoaded)
     LazyHook.NoAbort (LazyHook.state (snd run)) sampleSong (snd run) = (Normal tt, snd run)) /\
  CodeUnits.getFallbackArtwork [20013%N] (CodeUnits.ofString "Anti-Hero")
    = Throw InvalidCharacter.
Proof.
  split; [vm_compute; repeat split; reflexivity|].
  split; [vm_compute; repeat split; reflexivity|].
  vm_compute. reflexivity.
Qed.

Module AudioDbFacts.

Import AudioDb AudioDbSpec.

(** ** AudioDbService: the request queue *)

Lemma invariant_initial : QueueInvariant initial.
Proof.
  split; cbn; intros *.
  - rewrite lookup_empty. discriminate.
  - rewrite lookup_empty. discriminate.
  - rewrite lookup_nil. discriminate.
  - rewrite lookup_empty. discriminate.
Qed.

Lemma invariant_invoke (caller : nat) (songTitle artistName : string) (s s' : Service) :
  QueueInvariant s -> invoke caller songTitle artistName s = Some s' -> QueueInvariant s'.
Proof.
  intros [I1 I2 I3 I4]. unfold invoke.
  destruct (callers s !! caller) eqn:Ec; [discriminate|].
  destruct (cache s !! cacheKey songTitle artistName) eqn:Eh.
  { intros [= <-]. split; cbn; intros *.
    - rewrite lookup_insert. case_decide; [discriminate | apply I1].
    - rewrite !lookup_insert. repeat case_decide; try discriminate. apply I2.
    - apply I3.
    - apply I4. }
  destruct (requestQueue s !! cacheKey songTitle artistName) eqn:Eq.
  { intros [= <-]. split; cbn; intros *.
    - rewrite lookup_insert. case_decide; [discriminate | apply I1].
    - rewrite !lookup_insert. repeat case_decide; try discriminate. apply I2.
    - apply I3.
    - apply I4. }
  intros [= <-]. split; cbn; intros *.
  - rewrite lookup_insert. case_decide as Hc.
    + intros [= <- <-]. apply lookup_insert_eq.
    + intros Ho. pose proof (I1 _ _ _ Ho) as Hq.
      rewrite lookup_insert_ne; [exact Hq | congruence].
  - rewrite !lookup_insert. repeat case_decide; subst.
    + reflexivity.
    + intros [= <- <-] Ho. apply I1, I4 in Ho. lia.
    + intros Ho [= <- <-]. apply I1, I4 in Ho. lia.
    + apply I2.
  - intros Hl Hp. destruct (decide (p < length (lookups s))) as [Hlt|Hge].
    + rewrite lookup_app_l in Hl by assumption.
      pose proof (I3 _ _ Hl Hp) as Hq.
      rewrite lookup_insert_ne; [exact Hq | congruence].
    + rewrite lookup_app_r in Hl by lia.
      destruct (p - length (lookups s)) as [|n] eqn:En; [|destruct n; discriminate].
      injection Hl as <-. cbn. rewrite lookup_insert_eq. f_equal. lia.
  - rewrite length_app. cbn. rewrite lookup_insert. case_decide.
    + intros [= <-]. lia.
    + intros Ho. apply I4 in Ho. lia.
Qed.

Lemma invariant_settle (request : nat) (result : string) (s s' : Service) :
  QueueInvariant s -> settle request result s = Some s' -> QueueInvariant s'.
Proof.
  intros [I1 I2 I3 I4]. unfold settle.
  destruct (lookups s !! request) as [l|] eqn:El; [|discriminate].
  destruct (lookupState l) eqn:Es; [|discriminate].
  intros [= <-]. split; cbn; intros *.
  - apply I1.
  - apply I2.
  - destruct (decide (p = request)) as [->|Hne].
    + rewrite list_lookup_insert_eq by (eapply lookup_lt_Some; eassumption).
      intros [= <-]. discriminate.
    + rewrite list_lookup_insert_ne by congruence. apply I3.
  - rewrite length_insert. apply I4.
Qed.

Lemma valueOf_fulfilled (s : Service) (request : nat) (result : string) :
  valueOf s request = Some result ->
  exists l, lookups s !! request = Some l /\ lookupState l = Fulfilled result.
Proof.
  unfold valueOf. destruct (lookups s !! request) as [l|]; [|discriminate].
  destruct (lookupState l) eqn:E; [discriminate|]. intros [= ->]. eauto.
Qed.

Lemma invariant_continue (caller : nat) (s s' : Service) :
  QueueInvariant s -> continue caller s = Some s' -> QueueInvariant s'.
Proof.
  intros [I1 I2 I3 I4]. unfold continue.
  destruct (callers s !! caller) as [[cover|key request|request]|] eqn:Ec; try discriminate.
  - destruct (valueOf s request) as [result|] eqn:Ev; [|discriminate].
    apply valueOf_fulfilled in Ev as (l0 & El0 & Es0).
    intros [= <-]. split; cbn; intros *.
    + rewrite lookup_insert. case_decide; [discriminate|]. intros Ho.
      pose proof (I1 _ _ _ Ho) as Hq. pose proof (I1 _ _ _ Ec) as Hq0.
      destruct (decide (k = key)) as [->|Hk].
      * rewrite Hq in Hq0. injection Hq0 as ->.
        pose proof (I2 _ _ _ _ _ Ho Ec). congruence.
      * rewrite lookup_delete_ne by congruence. exact Hq.
    + rewrite !lookup_insert. repeat case_decide; try discriminate. apply I2.
    + intros Hl Hp. pose proof (I3 _ _ Hl Hp) as Hq. pose proof (I1 _ _ _ Ec) as Hq0.
      destruct (decide (lookupKey l = key)) as [Hk|Hk].
      * rewrite Hk, Hq0 in Hq. injection Hq as ->. congruence.
      * rewrite lookup_delete_ne by congruence. exact Hq.
    + rewrite lookup_delete. case_decide; [discriminate | apply I4].
  - destruct (valueOf s request) as [result|] eqn:Ev; [|discriminate].
    intros [= <-]. split; cbn; intros *.
    + rewrite lookup_insert. case_decide; [discriminate | apply I1].
    + rewrite !lookup_insert. repeat case_decide; try discriminate. apply I2.
    + apply I3.
    + apply I4.
Qed.

Lemma invariant_step (s s' : Service) (e : Event) :
  QueueInvariant s -> step s e = Some s' -> QueueInvariant s'.
Proof.
  intros Hi. destruct e; cbn [step].
  - now apply invariant_invoke.
  - now apply invariant_invoke.
  - now apply invariant_settle.
  - now apply invariant_continue.
Qed.

Lemma invariant_run (events : list Event) (s s' : Service) :
  QueueInvariant s -> run s events = Some s' -> QueueInvariant s'.
Proof.
  revert s; induction events as [|e events IH]; intros s Hi; cbn [run].
  - now intros [= <-].
  - destruct (step s e) as [s1|] eqn:E; [|discriminate].
    apply IH. eapply invariant_step; eassumption.
Qed.

Lemma invariant_reachable (s : Service) : reachable s -> QueueInvariant s.
Proof. intros [events H]. eapply invariant_run; [apply invariant_initial | exact H]. Qed.

Lemma filter_none {A} (P : A -> Prop) `{forall x, Decision (P x)} (l : list A) :
  (forall y, y ∈ l -> ~ P y) -> filter P l = [].
Proof.
  induction l as [|x l IH]; intros Hn; [reflexivity|].
  rewrite filter_cons. destruct (decide (P x)) as [Hx|Hx].
  - exfalso. apply (Hn x); [left | exact Hx].
  - apply IH. intros y Hy. apply Hn. now right.
Qed.

Lemma filter_at_most_one {A} (P : A -> Prop) `{forall x, Decision (P x)} (l : list A) :
  (forall i j x y, l !! i = Some x -> l !! j = Some y -> P x -> P y -> i = j) ->
  length (filter P l) <= 1.
Proof.
  induction l as [|x l IH]; intros Huniq; [cbn; lia|].
  rewrite filter_cons. destruct (decide (P x)) as [Hx|Hx].
  - assert (filter P l = []) as ->; [|cbn; lia].
    apply filter_none. intros y Hy Py.
    apply list_elem_of_lookup in Hy as [j Hj].
    specialize (Huniq 0 (S j) x y eq_refl Hj Hx Py). discriminate.
  - apply IH. intros i j a b Ha Hb Pa Pb.
    specialize (Huniq (S i) (S j) a b Ha Hb Pa Pb). lia.
Qed.

Lemma outstanding_at_most_one (s : Service) (key : string) :
  QueueInvariant s -> outstanding s key <= 1.
Proof.
  intros [_ _ I3 _]. unfold outstanding. apply filter_at_most_one.
  intros i j x y Hx Hy Px Py. unfold isPendingFor in Px, Py.
  apply andb_prop in Px as [Kx Sx]. apply andb_prop in Py as [Ky Sy].
  apply String.eqb_eq in Kx, Ky.
  assert (lookupState x = Pending) as Ex by (destruct (lookupState x); [reflexivity | discriminate]).
  assert (lookupState y = Pending) as Ey by (destruct (lookupState y); [reflexivity | discriminate]).
  pose proof (I3 _ _ Hx Ex) as Qx. pose proof (I3 _ _ Hy Ey) as Qy.
  rewrite Kx in Qx. rewrite Ky in Qy. congruence.
Qed.

Lemma setAll_lookup (v : Caller) (cs : list nat) (m : gmap nat Caller) (c : nat) :
  setAll v cs m !! c = if decide (c ∈ cs) then Some v else m !! c.
Proof.
  revert m; induction cs as [|c0 cs IH]; intros m.
  - cbn. rewrite decide_False; [reflexivity | apply not_elem_of_nil].
  - unfold setAll in *. cbn [foldl]. rewrite IH.
    destruct (decide (c ∈ cs)) as [Hin|Hnin].
    + rewrite decide_True; [reflexivity | now right].
    + destruct (decide (c = c0)) as [->|Hne].
      * rewrite decide_True by left. apply lookup_insert_eq.
      * rewrite decide_False by (rewrite elem_of_cons; tauto).
        now apply lookup_insert_ne.
Qed.

Lemma run_joiners (songTitle artistName : string) (request : nat) (cs : list nat) :
  forall s,
  cache s !! cacheKey songTitle artistName = None ->
  requestQueue s !! cacheKey songTitle artistName = Some request ->
  NoDup cs -> (forall c, c ∈ cs -> callers s !! c = None) ->
  run s (map (fun c => GetAlbumCover c songTitle artistName) cs) =
  Some (withCallers s (setAll (AwaitingShared request) cs (callers s))).
Proof.
  induction cs as [|c cs IH]; intros s Hc Hq Hnd Hfresh.
  - destruct s; reflexivity.
  - cbn [map run step]. unfold invoke.
    rewrite (Hfresh c) by left. rewrite Hc, Hq.
    apply NoDup_cons in Hnd as [Hnin Hnd].
    rewrite IH; cbn; try assumption; [reflexivity|].
    intros c' Hc'. rewrite lookup_insert_ne by (intros ->; contradiction).
    apply Hfresh. now right.
Qed.

Lemma run_sharers (request : nat) (result : string) (cs : list nat) :
  forall s,
  valueOf s request = Some result ->
  NoDup cs -> (forall c, c ∈ cs -> callers s !! c = Some (AwaitingShared request)) ->
  run s (map Continue cs) = Some (withCallers s (setAll (Returned result) cs (callers s))).
Proof.
  induction cs as [|c cs IH]; intros s Hv Hnd Hall.
  - destruct s; reflexivity.
  - cbn [map run step]. unfold continue.
    rewrite (Hall c) by left. rewrite Hv.
    apply NoDup_cons in Hnd as [Hnin Hnd].
    rewrite IH; cbn; try assumption; [reflexivity|].
    intros c' Hc'. rewrite lookup_insert_ne by (intros ->; contradiction).
    apply Hall. now right.
Qed.

Lemma run_app (s : Service) (e1 e2 : list Event) :
  run s (e1 ++ e2) = match run s e1 with Some s1 => run s1 e2 | None => None end.
Proof.
  revert s; induction e1 as [|e e1 IH]; intros s; [reflexivity|].
  cbn [app run]. destruct (step s e); [apply IH | reflexivity].
Qed.

Lemma concurrent_callers_share (s : Service) (first : nat) (others : list nat)
    (songTitle artistName result : string) :
  let key := cacheKey songTitle artistName in
  let request := length (lookups s) in
  cache s !! key = None -> requestQueue s !! key = None ->
  NoDup (first :: others) ->
  (forall c, c ∈ first :: others -> callers s !! c = None) ->
  exists s1 s2,
    run s (map (fun c => GetAlbumCover c songTitle artistName) (first :: others)) = Some s1 /\
    lookups s1 = lookups s ++
      [{| lookupKey := key; lookupTitle := songTitle; lookupArtist := artistName;
          lookupState := Pending |}] /\
    callers s1 !! first = Some (AwaitingOwn key request) /\
    (forall c, c ∈ others -> callers s1 !! c = Some (AwaitingShared request)) /\
    run s1 (Settle request result :: map Continue (first :: others)) = Some s2 /\
    length (lookups s2) = S (length (lookups s)) /\
    (forall c, c ∈ first :: others -> callers s2 !! c = Some (Returned result)) /\
    cache s2 !! key = Some result /\
    requestQueue s2 !! key = None.
Proof.
  intros key request Hc Hq Hnd Hfresh.
  apply NoDup_cons in Hnd as [Hnin Hnd].
  set (new := {| lookupKey := key; lookupTitle := songTitle; lookupArtist := artistName;
                 lookupState := Pending |}).
  set (s0 := {| cache := cache s; requestQueue := <[key := request]> (requestQueue s);
                lookups := lookups s ++ [new];
                callers := <[first := AwaitingOwn key request]> (callers s) |}).
  set (s1 := withCallers s0 (setAll (AwaitingShared request) others (callers s0))).
  assert (Hrun1 : run s (map (fun c => GetAlbumCover c songTitle artistName) (first :: others))
                  = Some s1).
  { cbn [map run step]. unfold invoke. rewrite (Hfresh first) by left.
    fold key. rewrite Hc, Hq. fold request new s0.
    apply (run_joiners songTitle artistName request); cbn; try assumption.
    - apply lookup_insert_eq.
    - intros c Hin. rewrite lookup_insert_ne by (intros ->; contradiction).
      apply Hfresh. now right. }
  assert (Hfirst1 : callers s1 !! first = Some (AwaitingOwn key request)).
  { cbn. rewrite setAll_lookup, decide_False by assumption. apply lookup_insert_eq. }
  assert (Hothers1 : forall c, c ∈ others -> callers s1 !! c = Some (AwaitingShared request)).
  { intros c Hin. cbn. rewrite setAll_lookup. now rewrite decide_True. }
  assert (Hnew : lookups s1 !! request = Some new).
  { cbn. rewrite lookup_app_r by (unfold request; lia).
    unfold request. now rewrite Nat.sub_diag. }
  set (s2 := {| cache := cache s1; requestQueue := requestQueue s1;
                lookups := <[request := fulfil result new]> (lookups s1);
                callers := callers s1 |}).
  assert (Hval : valueOf s2 request = Some result).
  { unfold valueOf. cbn [lookups s2].
    rewrite list_lookup_insert_eq by (eapply lookup_lt_Some; exact Hnew). reflexivity. }
  set (s3 := {| cache := <[key := result]> (cache s2);
                requestQueue := delete key (requestQueue s2);
                lookups := lookups s2;
                callers := <[first := Returned result]> (callers s2) |}).
  set (s4 := withCallers s3 (setAll (Returned result) others (callers s3))).
  exists s1, s4. split; [exact Hrun1|]. split; [reflexivity|].
  split; [exact Hfirst1|]. split; [exact Hothers1|]. split.
  { cbn [run step]. unfold settle. rewrite Hnew. cbn [lookupState new]. fold s2.
    cbn [map run step]. unfold continue.
    change (callers s2) with (callers s1). rewrite Hfirst1, Hval. fold s3.
    apply (run_sharers request); try assumption.
    intros c Hin. cbn [callers s3].
    rewrite lookup_insert_ne by (intros ->; contradiction).
    now apply Hothers1. }
  split; [cbn; rewrite length_insert, length_app; cbn; lia|].
  split.
  { intros c Hin. cbn [callers s4 withCallers]. rewrite setAll_lookup.
    destruct (decide (c ∈ others)); [reflexivity|].
    apply elem_of_cons in Hin as [->|Hin]; [|contradiction].
    cbn. apply lookup_insert_eq. }
  split; [cbn; apply lookup_insert_eq | cbn; apply lookup_delete_eq].
Qed.

(** C1, as the code has it (AudioDbService, whose request queue is shared by
    [getAlbumCover] and [loadAlbumCoverProgressive]).  In every state the
    service can reach, however calls, settlements and continuations
    interleave, at most one lookup per key is outstanding.  When a key is
    neither cached nor queued and any number of callers ask for the same
    title and artist before the lookup settles, one lookup is started, the
    first caller owns it, the others wait on the same promise, and once it
    settles every one of them gets the same cover, which is then cached. *)
Theorem one_lookup_per_key :
  (forall s key, reachable s -> outstanding s key <= 1) /\
  (forall s first others songTitle artistName result,
     let key := cacheKey songTitle artistName in
     let request := length (lookups s) in
     cache s !! key = None -> requestQueue s !! key = None ->
     NoDup (first :: others) ->
     (forall c, c ∈ first :: others -> callers s !! c = None) ->
     exists s1 s2,
       run s (map (fun c => GetAlbumCover c songTitle artistName) (first :: others)) = Some s1 /\
       lookups s1 = lookups s ++
         [{| lookupKey := key; lookupTitle := songTitle; lookupArtist := artistName;
             lookupState := Pending |}] /\
       callers s1 !! first = Some (AwaitingOwn key request) /\
       (forall c, c ∈ others -> callers s1 !! c = Some (AwaitingShared request)) /\
       run s1 (Settle request result :: map Continue (first :: others)) = Some s2 /\
       length (lookups s2) = S (length (lookups s)) /\
       (forall c, c ∈ first :: others -> callers s2 !! c = Some (Returned result)) /\
       cache s2 !! key = Some result /\
       requestQueue s2 !! key = None).
Proof.
  split.
  - intros s key Hr. now apply outstanding_at_most_one, invariant_reachable.
  - intros. now apply concurrent_callers_share.
Qed.

Lemma one_lookup_per_key_witness :
  exists s2,
    run initial
      ([GetAlbumCover 1 "Anti-Hero" "Taylor Swift"; GetAlbumCover 2 "Anti-Hero" "Taylor Swift";
        GetAlbumCover 3 "Anti-Hero" "Taylor Swift"]
       ++ [Settle 0 "https://a.example/600x600bb.jpg"; Continue 1; Continue 2; Continue 3])
      = Some s2 /\
    length (lookups s2) = 1 /\
    outstanding s2 "Taylor Swift-Anti-Hero" <= 1 /\
    forall c, c ∈ [1; 2; 3] -> callers s2 !! c = Some (Returned "https://a.example/600x600bb.jpg").
Proof.
  destruct (proj2 one_lookup_per_key initial 1 [2; 3] "Anti-Hero" "Taylor Swift"
              "https://a.example/600x600bb.jpg")
    as (s1 & s2 & H1 & _ & _ & _ & H2 & H3 & H4 & _).
  - reflexivity.
  - reflexivity.
  - repeat constructor; set_solver.
  - intros c _. reflexivity.
  - cbn [map] in H1, H2.
    exists s2. split; [rewrite run_app, H1; exact H2|].
    split; [exact H3|]. split; [|exact H4].
    apply (proj1 one_lookup_per_key).
    eexists. rewrite run_app, H1. exact H2.
Defined.

(** The claim of C1 fails for iTunesAPIService.searchTrack: two callers that
    ask for the same artist and track before the first response arrives each
    issue their own request. *)
Lemma searchTrack_requests_twice :
  exists s,
    ITunesConcurrent.run ITunesConcurrent.initial
      [ITunesConcurrent.SearchTrack 1 "Taylor Swift" "Anti-Hero";
       ITunesConcurrent.SearchTrack 2 "Taylor Swift" "Anti-Hero"] = Some s /\
    requests (ITunesConcurrent.world s) = ["taylor swift antihero"; "taylor swift antihero"].
Proof. eexists. split; vm_compute; reflexivity. Qed.

(** ** AudioDbService: lookups over the life of the service *)

Lemma started_insert (s : Service) (key : string) (p : nat) (l l' : Lookup) :
  lookups s !! p = Some l -> lookupKey l' = lookupKey l ->
  length (filter (fun x => String.eqb (lookupKey x) key = true) (<[p := l']> (lookups s))) =
  started s key.
Proof.
  unfold started. generalize (lookups s). intros ls. revert p.
  induction ls as [|x ls IH]; intros p Hl Hk; [discriminate|].
  destruct p as [|p]; cbn in Hl.
  - injection Hl as ->. change (<[0 := l']> (l :: ls)) with (l' :: ls).
    rewrite !filter_cons, Hk. destruct (decide _); reflexivity.
  - change (<[S p := l']> (x :: ls)) with (x :: <[p := l']> ls).
    rewrite !filter_cons.
    destruct (decide _); cbn [length]; rewrite (IH p Hl Hk); reflexivity.
Qed.

Lemma started_app (ls : list Lookup) (l : Lookup) (key : string) :
  length (filter (fun x => String.eqb (lookupKey x) key = true) (ls ++ [l])) =
  length (filter (fun x => String.eqb (lookupKey x) key = true) ls)
  + (if String.eqb (lookupKey l) key then 1 else 0).
Proof.
  rewrite filter_app, length_app. f_equal.
  rewrite filter_cons, filter_nil.
  destruct (decide _) as [H|H]; [rewrite H; reflexivity|].
  destruct (String.eqb (lookupKey l) key); [congruence | reflexivity].
Qed.

Lemma started_new (s s' : Service) (l : Lookup) (key : string) :
  lookups s' = lookups s ++ [l] ->
  started s' key = started s key + (if String.eqb (lookupKey l) key then 1 else 0).
Proof. intros H. unfold started. rewrite H. apply started_app. Qed.

Lemma started_same (s s' : Service) (key : string) :
  lookups s' = lookups s -> started s' key = started s key.
Proof. intros H. unfold started. now rewrite H. Qed.

Lemma life_initial : LifetimeInvariant initial.
Proof.
  split.
  - apply invariant_initial.
  - intros c k p. cbn. rewrite lookup_empty. discriminate.
  - intros k [[x H]|[x H]]; cbn in H; rewrite lookup_empty in H; discriminate.
  - reflexivity.
Qed.

Lemma life_invoke (caller : nat) (songTitle artistName : string) (s s' : Service) :
  LifetimeInvariant s -> invoke caller songTitle artistName s = Some s' -> LifetimeInvariant s'.
Proof.
  intros Hlife Hstep.
  pose proof (invariant_invoke _ _ _ _ _ (life_queue _ Hlife) Hstep) as Hq'.
  destruct Hlife as [Hq L2 L3 L4]. revert Hstep. unfold invoke.
  destruct (callers s !! caller) eqn:Ec; [discriminate|].
  destruct (cache s !! cacheKey songTitle artistName) eqn:Eh.
  { intros [= <-]. split; [exact Hq' | | exact L3 | exact L4].
    cbn. intros c k p. rewrite lookup_insert. case_decide; [discriminate | apply L2]. }
  destruct (requestQueue s !! cacheKey songTitle artistName) eqn:Eq.
  { intros [= <-]. split; [exact Hq' | | exact L3 | exact L4].
    cbn. intros c k p. rewrite lookup_insert. case_decide; [discriminate | apply L2]. }
  assert (Hunknown : ~ known s (cacheKey songTitle artistName)).
  { intros [[x H]|[x H]]; congruence. }
  intros [= <-]. split; [exact Hq' | | |].
  - cbn. intros c k p. rewrite lookup_insert. case_decide.
    + intros [= <- <-]. exact Eh.
    + apply L2.
  - intros k Hk. erewrite (started_new s) by (cbn [lookups]; reflexivity). cbn [lookupKey].
    destruct (String.eqb_spec (cacheKey songTitle artistName) k) as [<-|Hne].
    + rewrite (L4 _ Hunknown). reflexivity.
    + unfold known in Hk. cbn [cache requestQueue] in Hk.
      rewrite lookup_insert_ne in Hk by exact Hne. rewrite (L3 k Hk). reflexivity.
  - intros k Hk. erewrite (started_new s) by (cbn [lookups]; reflexivity). cbn [lookupKey].
    destruct (String.eqb_spec (cacheKey songTitle artistName) k) as [<-|Hne].
    + exfalso. apply Hk. right. cbn [requestQueue]. rewrite lookup_insert_eq. eauto.
    + unfold known in Hk. cbn [cache requestQueue] in Hk.
      rewrite lookup_insert_ne in Hk by exact Hne. rewrite (L4 k Hk). reflexivity.
Qed.

Lemma life_settle (request : nat) (result : string) (s s' : Service) :
  LifetimeInvariant s -> settle request result s = Some s' -> LifetimeInvariant s'.
Proof.
  intros Hlife Hstep.
  pose proof (invariant_settle _ _ _ _ (life_queue _ Hlife) Hstep) as Hq'.
  destruct Hlife as [Hq L2 L3 L4]. revert Hstep. unfold settle.
  destruct (lookups s !! request) as [l|] eqn:El; [|discriminate].
  destruct (lookupState l); [|discriminate].
  intros [= <-]. split; [exact Hq' | exact L2 | |].
  - intros k Hk. unfold started. cbn [lookups].
    rewrite (started_insert s k request l); auto.
  - intros k Hk. unfold started. cbn [lookups].
    rewrite (started_insert s k request l); auto.
Qed.

Lemma life_continue (caller : nat) (s s' : Service) :
  LifetimeInvariant s -> continue caller s = Some s' -> LifetimeInvariant s'.
Proof.
  intros Hlife Hstep.
  pose proof (invariant_continue _ _ _ (life_queue _ Hlife) Hstep) as Hq'.
  destruct Hlife as [Hq L2 L3 L4]. revert Hstep. unfold continue.
  destruct (callers s !! caller) as [[cover|key request|request]|] eqn:Ec; try discriminate.
  - destruct (valueOf s request) as [result|] eqn:Ev; [|discriminate].
    pose proof (owner_queued _ Hq _ _ _ Ec) as Hqueued.
    assert (Hknown : known s key) by (right; eauto).
    intros [= <-]. split; [exact Hq' | | |].
    + cbn. intros c k p. rewrite lookup_insert. case_decide; [discriminate|]. intros Ho.
      destruct (decide (k = key)) as [->|Hk].
      * pose proof (owner_queued _ Hq _ _ _ Ho) as Hq2.
        rewrite Hq2 in Hqueued. injection Hqueued as ->.
        pose proof (owner_unique _ Hq _ _ _ _ _ Ho Ec). congruence.
      * rewrite lookup_insert_ne by congruence. exact (L2 _ _ _ Ho).
    + intros k Hk. erewrite (started_same s) by reflexivity.
      destruct (decide (k = key)) as [->|Hne]; [now apply L3|].
      apply L3. unfold known in *. cbn [cache requestQueue] in Hk.
      rewrite lookup_insert_ne, lookup_delete_ne in Hk by congruence. exact Hk.
    + intros k Hk. erewrite (started_same s) by reflexivity.
      destruct (decide (k = key)) as [->|Hne].
      * exfalso. apply Hk. left. cbn [cache]. rewrite lookup_insert_eq. eauto.
      * apply L4. unfold known in *. cbn [cache requestQueue] in Hk.
        rewrite lookup_insert_ne, lookup_delete_ne in Hk by congruence. exact Hk.
  - destruct (valueOf s request) as [result|] eqn:Ev; [|discriminate].
    intros [= <-]. split; [exact Hq' | | exact L3 | exact L4].
    cbn. intros c k p. rewrite lookup_insert. case_decide; [discriminate | apply L2].
Qed.

Lemma life_step (s s' : Service) (e : Event) :
  LifetimeInvariant s -> step s e = Some s' -> LifetimeInvariant s'.
Proof.
  intros Hi. destruct e; cbn [step].
  - now apply life_invoke.
  - now apply life_invoke.
  - now apply life_settle.
  - now apply life_continue.
Qed.

Lemma life_run (events : list Event) (s s' : Service) :
  LifetimeInvariant s -> run s events = Some s' -> LifetimeInvariant s'.
Proof.
  revert s; induction events as [|e events IH]; intros s Hi; cbn [run].
  - now intros [= <-].
  - destruct (step s e) as [s1|] eqn:E; [|discriminate].
    apply IH. eapply life_step; eassumption.
Qed.

Lemma cached_step (s s' : Service) (e : Event) (key cover : string) :
  LifetimeInvariant s -> cache s !! key = Some cover -> step s e = Some s' ->
  cache s' !! key = Some cover /\ lookups s' = lookups s \/
  cache s' !! key = Some cover /\ started s' key = started s key.
Proof.
  intros Hlife Hc Hstep.
  assert (Hk : known s key) by (left; eauto).
  pose proof (life_step _ _ _ Hlife Hstep) as Hlife'.
  assert (Hc' : cache s' !! key = Some cover).
  { revert Hstep. destruct e; cbn [step].
    - unfold invoke. repeat case_match; try discriminate; now intros [= <-].
    - unfold invoke. repeat case_match; try discriminate; now intros [= <-].
    - unfold settle. repeat case_match; try discriminate; now intros [= <-].
    - unfold continue. destruct (callers s !! caller) as [[c|k p|p]|] eqn:Ec; try discriminate.
      + pose proof (owner_uncached _ Hlife _ _ _ Ec) as Hu.
        destruct (valueOf s p); [|discriminate]. intros [= <-]. cbn.
        rewrite lookup_insert_ne; [exact Hc | congruence].
      + destruct (valueOf s p); [|discriminate]. now intros [= <-]. }
  right. split; [exact Hc'|].
  rewrite (known_started _ Hlife key Hk).
  apply (known_started _ Hlife'). left. eauto.
Qed.

(** X30: over the whole life of AudioDbService, however calls, settlements
    and continuations interleave, at most one lookup is ever started for a
    key, and a key has a lookup exactly when it is cached or queued.  Once a
    key has a cover in the cache, that entry is never replaced and no further
    lookup is started for it: a placeholder stored after unsuccessful
    searches stays for good. *)
Theorem lookup_started_once (s : Service) (key : string) :
  reachable s ->
  started s key <= 1 /\
  (started s key = 1 <-> known s key) /\
  (forall cover events s',
     cache s !! key = Some cover -> run s events = Some s' ->
     cache s' !! key = Some cover /\ started s' key = started s key).
Proof.
  intros [evs Hr].
  pose proof (life_run _ _ _ life_initial Hr) as Hlife.
  split; [|split].
  - destruct (decide (is_Some (cache s !! key) \/ is_Some (requestQueue s !! key))) as [H|H].
    + rewrite (known_started _ Hlife key H). lia.
    + rewrite (unknown_not_started _ Hlife key H). lia.
  - split; [|apply (known_started _ Hlife)].
    intros H1. destruct (decide (is_Some (cache s !! key) \/ is_Some (requestQueue s !! key)))
      as [H|H]; [exact H|].
    rewrite (unknown_not_started _ Hlife key H) in H1. discriminate.
  - intros cover events. clear Hr. revert s Hlife.
    induction events as [|e events IH]; intros s Hlife s' Hc; cbn [run].
    + intros [= <-]. split; [exact Hc | reflexivity].
    + destruct (step s e) as [s1|] eqn:E; [|discriminate]. intros Hrun.
      pose proof (life_step _ _ _ Hlife E) as Hlife1.
      assert (cache s1 !! key = Some cover /\ started s1 key = started s key) as [Hc1 Hs1].
      { destruct (cached_step _ _ _ _ _ Hlife Hc E) as [[H1 H2]|H]; [|exact H].
        split; [exact H1|]. unfold started. now rewrite H2. }
      destruct (IH s1 Hlife1 s' Hc1 Hrun) as [H1 H2]. split; [exact H1 | congruence].
Qed.

Lemma lookup_started_once_witness :
  exists s s',
    run initial placeholderCached = Some s /\
    run s [GetAlbumCover 2 "Anti-Hero" "Taylor Swift";
           LoadProgressive 3 "Anti-Hero" "Taylor Swift" high] = Some s' /\
    cache s' !! "Taylor Swift-Anti-Hero" = Some getPlaceholderImage /\
    started s' "Taylor Swift-Anti-Hero" = started s "Taylor Swift-Anti-Hero".
Proof.
  destruct (run initial placeholderCached) as [s|] eqn:Es;
    [|vm_compute in Es; discriminate].
  pose proof (ex_intro (fun evs => run initial evs = Some s) placeholderCached Es) as Hreach.
  assert (Hc : cache s !! "Taylor Swift-Anti-Hero" = Some getPlaceholderImage).
  { vm_compute in Es. injection Es as <-. vm_compute. reflexivity. }
  exists s.
  destruct (run s [GetAlbumCover 2 "Anti-Hero" "Taylor Swift";
                   LoadProgressive 3 "Anti-Hero" "Taylor Swift" high]) as [s'|] eqn:Es'.
  - exists s'. split; [reflexivity|]. split; [reflexivity|].
    exact (proj2 (proj2 (lookup_started_once s "Taylor Swift-Anti-Hero" Hreach))
             getPlaceholderImage _ s' Hc Es').
  - exfalso. vm_compute in Es. injection Es as <-. vm_compute in Es'. discriminate.
Defined.

End AudioDbFacts.
